(** * FIRST, FOLLOW and PREDICT sets of a context-free grammar

    A shallow embedding of [first_follow_pred_full_commented.py]: the
    symbol classifier [is_nonterminal] and the class [Grammar] with its
    methods [first], [first_of_rhs], [derives_epsilon], [follow_all] and
    [prediction_sets].

    Modelling choices.
    - A Python [str] is a [string] holding its UTF-8 encoding, so that
      equality, concatenation and [' '.join] are the byte-level operations.
    - A [Set[str]] is a [gset string]; the caches are [gmap]s.
    - The [productions] dictionary is insertion ordered and is iterated by
      [follow_all] and [prediction_sets]: it is an association list, read
      with [dict_get] and [dict_keys]. A dictionary has no two equal keys;
      no result below needs that.
    - The methods mutate the caches of [self]: they are state passing
      functions [Grammar -> res (result * Grammar)].
    - [first] stores its local set [result] in [_first_cache] before it
      recurses, and a nested call of [first] returns that very object: the
      model writes every mutation of [result] through to the cache. No
      other set is mutated after it has been stored or returned.
    - [first] and [first_of_rhs] are mutually recursive and the loop of
      [follow_all] is a [while]: both are bounded by a [fuel] argument, and
      running out of it is the outcome [OutOfFuel], distinct from every
      outcome of the program. These functions are the methods on a call
      stack without limit.
    - The interpreter bounds the depth of the call stack. The functions
      named [..._limited] are the same methods with the frames counted: a
      call made when no frame is left is the outcome [RecursionError].
      Whatever they return, the functions without limit return, and with
      frames enough for the depth a call reaches the two agree. *)

From Stdlib Require Import Ascii.
From stdpp Require Import gmap strings list fin_maps fin_sets.

(** ** Outcomes *)

(** A call returns a value, raises [KeyError] (a subscript [d[k]] on a
    dictionary without the key [k]), raises [RecursionError] (a call made
    when the interpreter has no frame left), or exhausts the fuel of the
    model. *)
Inductive res (A : Type) : Type :=
  | Ok (a : A)
  | KeyError (k : string)
  | RecursionError
  | OutOfFuel.
Arguments Ok {A} a.
Arguments KeyError {A} k.
Arguments RecursionError {A}.
Arguments OutOfFuel {A}.

(** Sequencing: an exception or the exhaustion of the fuel ends the call. *)
#[global] Instance res_bind : MBind res := λ A B f m,
  match m with
  | Ok a => f a
  | KeyError k => KeyError k
  | RecursionError => RecursionError
  | OutOfFuel => OutOfFuel
  end.

(** The call returned. *)
Definition is_Ok {A : Type} (r : res A) : bool :=
  match r with
  | Ok _ => true
  | _ => false
  end.

(** ** Strings of the host language *)

(** [str.isalpha] and [str.isupper] consult the Unicode character database.
    The development is parametric in them. *)
Class PyStr : Type := {
  str_isalpha : string → bool;
  str_isupper : string → bool
}.

(** The empty-string marker ['ε'] and the end-of-input marker ['$']. *)
Definition EPS : string := "ε".
Definition EOI : string := "$".

(** [sep.join(l)]. *)
Definition str_join (sep : string) (l : list string) : string :=
  String.concat sep l.

(** ** Dictionaries that are iterated *)

Definition pydict (V : Type) : Type := list (string * V).

Fixpoint dict_lookup {V : Type} (k : string) (d : pydict V) : option V :=
  match d with
  | [] => None
  | (k', v) :: d' => if decide (k = k') then Some v else dict_lookup k d'
  end.

(** [d.get(k, default)]. *)
Definition dict_get {V : Type} (k : string) (default : V) (d : pydict V) : V :=
  match dict_lookup k d with
  | Some v => v
  | None => default
  end.

(** [d.keys()]. *)
Definition dict_keys {V : Type} (d : pydict V) : list string := d.*1.

(** ** The analyzer state *)

Record Grammar : Type := mkGrammar {
  productions : pydict (list (list string));
  start : string;
  _first_cache : gmap string (gset string);
  _first_rhs_cache : gmap (list string) (gset string);
  _nullable_cache : gmap (list string) bool;
  _follow_cache : gmap string (gset string)
}.

Definition set_first_cache (X : string) (s : gset string) (g : Grammar) : Grammar :=
  mkGrammar (productions g) (start g) (<[X := s]> (_first_cache g))
            (_first_rhs_cache g) (_nullable_cache g) (_follow_cache g).

Definition set_first_rhs_cache (rhs : list string) (s : gset string) (g : Grammar) : Grammar :=
  mkGrammar (productions g) (start g) (_first_cache g)
            (<[rhs := s]> (_first_rhs_cache g)) (_nullable_cache g) (_follow_cache g).

Definition set_follow_cache (X : string) (s : gset string) (g : Grammar) : Grammar :=
  mkGrammar (productions g) (start g) (_first_cache g)
            (_first_rhs_cache g) (_nullable_cache g) (<[X := s]> (_follow_cache g)).

(** [Grammar.__init__]: stores its two arguments and four empty caches.
    There is no [raise] in it. *)
Definition Grammar_init (productions : pydict (list (list string))) (start : string)
  : res Grammar :=
  Ok {| productions := productions; start := start;
        _first_cache := ∅; _first_rhs_cache := ∅;
        _nullable_cache := ∅; _follow_cache := ∅ |}.

(** The generator [(x for x in s if x != 'ε')], as the set it feeds to
    [update] or [set]. *)
Definition without_eps (s : gset string) : gset string :=
  filter (λ x, x ≠ EPS) s.

Section Analyzer.
Context {py : PyStr}.

(** ** [is_nonterminal] *)

(** Symbols are strings, so [isinstance(sym, str)] holds. *)
Definition is_nonterminal (sym : string) : bool :=
  str_isalpha sym && str_isupper sym.

(** ** [first] and [first_of_rhs] *)

Section OpenRecursion.
(** The method [self.first] as seen from the bodies below. *)
Variable first_rec : string → Grammar → res (gset string * Grammar).

(** The [for sym in rhs] loop of [first_of_rhs] with its [break]s and
    its [else] branch; [result] is the local set being filled. *)
Fixpoint first_of_rhs_scan (rhs : list string) (result : gset string) (g : Grammar)
  : res (gset string * Grammar) :=
  match rhs with
  | [] => Ok (result ∪ {[EPS]}, g)
  | sym :: rhs' =>
      if negb (is_nonterminal sym) then Ok (result ∪ {[sym]}, g)
      else
        '(first_sym, g) ← first_rec sym g;
        let result := result ∪ without_eps first_sym in
        if decide (EPS ∈ first_sym) then first_of_rhs_scan rhs' result g
        else Ok (result, g)
  end.

Definition first_of_rhs_body (rhs : list string) (g : Grammar)
  : res (gset string * Grammar) :=
  match _first_rhs_cache g !! rhs with
  | Some cached => Ok (cached, g)
  | None =>
      if (length rhs =? 0) then
        let result : gset string := ∅ ∪ {[EPS]} in
        Ok (result, set_first_rhs_cache rhs result g)
      else
        '(result, g) ← first_of_rhs_scan rhs ∅ g;
        Ok (result, set_first_rhs_cache rhs result g)
  end.

(** The [for alpha in self.productions.get(X, [])] loop of [first].
    [result] is the very object stored at [self._first_cache[X]], so
    each of its mutations is also written to the cache. *)
Fixpoint first_alternatives (X : string) (alphas : list (list string))
    (result : gset string) (g : Grammar) : res (gset string * Grammar) :=
  match alphas with
  | [] => Ok (result, g)
  | alpha :: alphas' =>
      '(first_alpha, g) ← first_of_rhs_body alpha g;
      let result := result ∪ without_eps first_alpha in
      let result := if decide (EPS ∈ first_alpha) then result ∪ {[EPS]} else result in
      first_alternatives X alphas' result (set_first_cache X result g)
  end.
End OpenRecursion.

Fixpoint first (fuel : nat) (X : string) (g : Grammar) : res (gset string * Grammar) :=
  match _first_cache g !! X with
  | Some cached => Ok (cached, g)
  | None =>
      match fuel with
      | 0 => OutOfFuel
      | S fuel' =>
          let result : gset string := ∅ in
          let g := set_first_cache X result g in
          '(result, g) ← first_alternatives (first fuel') X
                            (dict_get X [] (productions g)) result g;
          Ok (result, set_first_cache X result g)
      end
  end.

Definition first_of_rhs (fuel : nat) (rhs : list string) (g : Grammar)
  : res (gset string * Grammar) :=
  first_of_rhs_body (first fuel) rhs g.

Definition derives_epsilon (fuel : nat) (rhs : list string) (g : Grammar)
  : res (bool * Grammar) :=
  '(s, g) ← first_of_rhs fuel rhs g;
  Ok (bool_decide (EPS ∈ s), g).

(** ** [follow_all] *)

(** [self._follow_cache.setdefault(nt, set())]. *)
Definition follow_setdefault (g : Grammar) (nt : string) : Grammar :=
  match _follow_cache g !! nt with
  | Some _ => g
  | None => set_follow_cache nt ∅ g
  end.

(** One propagation step: the body of the innermost loop for a
    nonterminal [B] at a position of a body of [A], with [rest] the
    symbols after it. *)
Definition follow_step (fuel : nat) (A B : string) (rest : list string)
    (changed : bool) (g : Grammar) : res (bool * Grammar) :=
  '(first_rest, g) ← first_of_rhs fuel rest g;
  match _follow_cache g !! B with
  | None => KeyError B
  | Some before =>
      let fB := before ∪ without_eps first_rest in
      let g := set_follow_cache B fB g in
      '(fB, g) ←
         (if bool_decide (EPS ∈ first_rest) || (length rest =? 0) then
            match _follow_cache g !! A with
            | None => KeyError A
            | Some fA => Ok (fB ∪ fA, set_follow_cache B (fB ∪ fA) g)
            end
          else Ok (fB, g));
      Ok (if bool_decide (fB ≠ before) then true else changed, g)
  end.

(** [for i, B in enumerate(symbols)]: at [B :: rest] the slice
    [symbols[i+1:]] is [rest]. *)
Fixpoint follow_symbols (fuel : nat) (A : string) (symbols : list string)
    (changed : bool) (g : Grammar) : res (bool * Grammar) :=
  match symbols with
  | [] => Ok (changed, g)
  | B :: rest =>
      if negb (is_nonterminal B) then follow_symbols fuel A rest changed g
      else
        '(changed, g) ← follow_step fuel A B rest changed g;
        follow_symbols fuel A rest changed g
  end.

(** [for rhs in rhss]. *)
Fixpoint follow_rhss (fuel : nat) (A : string) (rhss : list (list string))
    (changed : bool) (g : Grammar) : res (bool * Grammar) :=
  match rhss with
  | [] => Ok (changed, g)
  | rhs :: rhss' =>
      '(changed, g) ← follow_symbols fuel A rhs changed g;
      follow_rhss fuel A rhss' changed g
  end.

(** [for A, rhss in self.productions.items()]. *)
Fixpoint follow_items (fuel : nat) (items : pydict (list (list string)))
    (changed : bool) (g : Grammar) : res (bool * Grammar) :=
  match items with
  | [] => Ok (changed, g)
  | (A, rhss) :: items' =>
      '(changed, g) ← follow_rhss fuel A rhss changed g;
      follow_items fuel items' changed g
  end.

(** One pass of the [while] loop: [changed = False], then the three
    nested [for] loops. *)
Definition follow_pass (fuel : nat) (g : Grammar) : res (bool * Grammar) :=
  follow_items fuel (productions g) false g.

(** [while changed:], entered with [changed = True]; [passes] bounds the
    number of passes of the model. *)
Fixpoint follow_while (passes fuel : nat) (g : Grammar) : res Grammar :=
  match passes with
  | 0 => OutOfFuel
  | S passes' =>
      '(changed, g) ← follow_pass fuel g;
      if changed : bool then follow_while passes' fuel g else Ok g
  end.

Definition follow_all (fuel : nat) (g : Grammar)
  : res (gmap string (gset string) * Grammar) :=
  let g := foldl follow_setdefault g (dict_keys (productions g)) in
  match _follow_cache g !! start g with
  | None => KeyError (start g)
  | Some s =>
      let g := set_follow_cache (start g) (s ∪ {[EOI]}) g in
      g ← follow_while fuel fuel g;
      Ok (_follow_cache g, g)
  end.

(** ** [prediction_sets] *)

(** [f"{A} -> {' '.join(rhs) if rhs else 'ε'}"]. *)
Definition production_key (A : string) (rhs : list string) : string :=
  A +:+ " -> " +:+ (if negb (length rhs =? 0) then str_join " " rhs else EPS).

(** [for rhs in rhss] of [prediction_sets]. *)
Fixpoint prediction_rhss (fuel : nat) (follow_all_ : gmap string (gset string))
    (A : string) (rhss : list (list string)) (preds : gmap string (gset string))
    (g : Grammar) : res (gmap string (gset string) * Grammar) :=
  match rhss with
  | [] => Ok (preds, g)
  | rhs :: rhss' =>
      let key := production_key A rhs in
      '(first_rhs, g) ← first_of_rhs fuel rhs g;
      let pred := without_eps first_rhs in
      pred ← (if bool_decide (EPS ∈ first_rhs) then
                match follow_all_ !! A with
                | None => KeyError A
                | Some fA => Ok (pred ∪ fA)
                end
              else Ok pred);
      prediction_rhss fuel follow_all_ A rhss' (<[key := pred]> preds) g
  end.

(** [for A, rhss in self.productions.items()] of [prediction_sets]. *)
Fixpoint prediction_items (fuel : nat) (follow_all_ : gmap string (gset string))
    (items : pydict (list (list string))) (preds : gmap string (gset string))
    (g : Grammar) : res (gmap string (gset string) * Grammar) :=
  match items with
  | [] => Ok (preds, g)
  | (A, rhss) :: items' =>
      '(preds, g) ← prediction_rhss fuel follow_all_ A rhss preds g;
      prediction_items fuel follow_all_ items' preds g
  end.

Definition prediction_sets (fuel : nat) (g : Grammar)
  : res (gmap string (gset string) * Grammar) :=
  '(follow_all_, g) ← follow_all fuel g;
  prediction_items fuel follow_all_ (productions g) ∅ g.

(** ** The recursion limit *)

(** Every call of a function written in Python pushes a frame, and the
    interpreter raises [RecursionError] at a call that would take the
    stack beyond its recursion limit. The functions above are the methods
    on a stack without limit. The functions below count the frames:
    [limit] is the number of frames that can still be pushed when the
    call is made, the call takes one of them, and the calls made from its
    body have [limit - 1]. The builtins ([isinstance], [str.isalpha],
    [str.isupper], [len], [tuple], [dict.get], [set.update], ...) push
    no frame. A generator expression [(x for x in s if x != 'ε')] runs in
    a frame of its own, one level above the body that consumes it; each
    of them is consumed after a call made from the same body has
    returned, so that frame is known to be there. *)

(** The call [is_nonterminal(sym)]. *)
Definition is_nonterminal_limited (limit : nat) (sym : string) : res bool :=
  match limit with
  | 0 => RecursionError
  | S _ => Ok (is_nonterminal sym)
  end.

Section OpenRecursionLimited.
(** The call [self.first(sym)] as made from the body of [first_of_rhs],
    and the number of frames left to the calls of that body. *)
Variable first_rec : string → Grammar → res (gset string * Grammar).
Variable limit : nat.

Fixpoint first_of_rhs_scan_limited (rhs : list string) (result : gset string)
    (g : Grammar) : res (gset string * Grammar) :=
  match rhs with
  | [] => Ok (result ∪ {[EPS]}, g)
  | sym :: rhs' =>
      nt ← is_nonterminal_limited limit sym;
      if negb nt then Ok (result ∪ {[sym]}, g)
      else
        '(first_sym, g) ← first_rec sym g;
        let result := result ∪ without_eps first_sym in
        if decide (EPS ∈ first_sym) then first_of_rhs_scan_limited rhs' result g
        else Ok (result, g)
  end.

(** The body of [first_of_rhs]. *)
Definition first_of_rhs_body_limited (rhs : list string) (g : Grammar)
  : res (gset string * Grammar) :=
  match _first_rhs_cache g !! rhs with
  | Some cached => Ok (cached, g)
  | None =>
      if (length rhs =? 0) then
        let result : gset string := ∅ ∪ {[EPS]} in
        Ok (result, set_first_rhs_cache rhs result g)
      else
        '(result, g) ← first_of_rhs_scan_limited rhs ∅ g;
        Ok (result, set_first_rhs_cache rhs result g)
  end.
End OpenRecursionLimited.

(** The loop of [first]; [first_of_rhs_rec] is the call
    [self.first_of_rhs(tuple(alpha))] as made from the body of [first]. *)
Fixpoint first_alternatives_limited
    (first_of_rhs_rec : list string → Grammar → res (gset string * Grammar))
    (X : string) (alphas : list (list string))
    (result : gset string) (g : Grammar) : res (gset string * Grammar) :=
  match alphas with
  | [] => Ok (result, g)
  | alpha :: alphas' =>
      '(first_alpha, g) ← first_of_rhs_rec alpha g;
      let result := result ∪ without_eps first_alpha in
      let result := if decide (EPS ∈ first_alpha) then result ∪ {[EPS]} else result in
      first_alternatives_limited first_of_rhs_rec X alphas' result
        (set_first_cache X result g)
  end.

(** The call [self.first(X)] with [limit] frames left: the call takes one,
    the call of [first_of_rhs] from its body another, and the calls made
    from the body of [first_of_rhs] have [limit - 2]. *)
Fixpoint first_limited (limit : nat) (X : string) (g : Grammar)
  : res (gset string * Grammar) :=
  match limit with
  | 0 => RecursionError
  | S limit1 =>
      match _first_cache g !! X with
      | Some cached => Ok (cached, g)
      | None =>
          let result : gset string := ∅ in
          let g := set_first_cache X result g in
          '(result, g) ← first_alternatives_limited
                            (λ alpha g,
                               match limit1 with
                               | 0 => RecursionError
                               | S limit2 =>
                                   first_of_rhs_body_limited (first_limited limit2)
                                     limit2 alpha g
                               end)
                            X (dict_get X [] (productions g)) result g;
          Ok (result, set_first_cache X result g)
      end
  end.

(** The call [self.first_of_rhs(rhs)] with [limit] frames left. *)
Definition first_of_rhs_limited (limit : nat) (rhs : list string) (g : Grammar)
  : res (gset string * Grammar) :=
  match limit with
  | 0 => RecursionError
  | S limit1 => first_of_rhs_body_limited (first_limited limit1) limit1 rhs g
  end.

(** The call [self.derives_epsilon(rhs)] with [limit] frames left. *)
Definition derives_epsilon_limited (limit : nat) (rhs : list string) (g : Grammar)
  : res (bool * Grammar) :=
  match limit with
  | 0 => RecursionError
  | S limit1 =>
      '(s, g) ← first_of_rhs_limited limit1 rhs g;
      Ok (bool_decide (EPS ∈ s), g)
  end.

(** The loops of [follow_all]; [limit] is the number of frames left to
    the calls made from the body of [follow_all]. *)
Definition follow_step_limited (limit : nat) (A B : string) (rest : list string)
    (changed : bool) (g : Grammar) : res (bool * Grammar) :=
  '(first_rest, g) ← first_of_rhs_limited limit rest g;
  match _follow_cache g !! B with
  | None => KeyError B
  | Some before =>
      let fB := before ∪ without_eps first_rest in
      let g := set_follow_cache B fB g in
      '(fB, g) ←
         (if bool_decide (EPS ∈ first_rest) || (length rest =? 0) then
            match _follow_cache g !! A with
            | None => KeyError A
            | Some fA => Ok (fB ∪ fA, set_follow_cache B (fB ∪ fA) g)
            end
          else Ok (fB, g));
      Ok (if bool_decide (fB ≠ before) then true else changed, g)
  end.

Fixpoint follow_symbols_limited (limit : nat) (A : string) (symbols : list string)
    (changed : bool) (g : Grammar) : res (bool * Grammar) :=
  match symbols with
  | [] => Ok (changed, g)
  | B :: rest =>
      nt ← is_nonterminal_limited limit B;
      if negb nt then follow_symbols_limited limit A rest changed g
      else
        '(changed, g) ← follow_step_limited limit A B rest changed g;
        follow_symbols_limited limit A rest changed g
  end.

Fixpoint follow_rhss_limited (limit : nat) (A : string) (rhss : list (list string))
    (changed : bool) (g : Grammar) : res (bool * Grammar) :=
  match rhss with
  | [] => Ok (changed, g)
  | rhs :: rhss' =>
      '(changed, g) ← follow_symbols_limited limit A rhs changed g;
      follow_rhss_limited limit A rhss' changed g
  end.

Fixpoint follow_items_limited (limit : nat) (items : pydict (list (list string)))
    (changed : bool) (g : Grammar) : res (bool * Grammar) :=
  match items with
  | [] => Ok (changed, g)
  | (A, rhss) :: items' =>
      '(changed, g) ← follow_rhss_limited limit A rhss changed g;
      follow_items_limited limit items' changed g
  end.

Definition follow_pass_limited (limit : nat) (g : Grammar) : res (bool * Grammar) :=
  follow_items_limited limit (productions g) false g.

Fixpoint follow_while_limited (passes limit : nat) (g : Grammar) : res Grammar :=
  match passes with
  | 0 => OutOfFuel
  | S passes' =>
      '(changed, g) ← follow_pass_limited limit g;
      if changed : bool then follow_while_limited passes' limit g else Ok g
  end.

(** The call [self.follow_all()] with [limit] frames left; [passes]
    bounds the number of passes of the model. *)
Definition follow_all_limited (passes limit : nat) (g : Grammar)
  : res (gmap string (gset string) * Grammar) :=
  match limit with
  | 0 => RecursionError
  | S limit1 =>
      let g := foldl follow_setdefault g (dict_keys (productions g)) in
      match _follow_cache g !! start g with
      | None => KeyError (start g)
      | Some s =>
          let g := set_follow_cache (start g) (s ∪ {[EOI]}) g in
          g ← follow_while_limited passes limit1 g;
          Ok (_follow_cache g, g)
      end
  end.

(** The loops of [prediction_sets]; [limit] is the number of frames left
    to the calls made from the body of [prediction_sets]. *)
Fixpoint prediction_rhss_limited (limit : nat) (follow_all_ : gmap string (gset string))
    (A : string) (rhss : list (list string)) (preds : gmap string (gset string))
    (g : Grammar) : res (gmap string (gset string) * Grammar) :=
  match rhss with
  | [] => Ok (preds, g)
  | rhs :: rhss' =>
      let key := production_key A rhs in
      '(first_rhs, g) ← first_of_rhs_limited limit rhs g;
      let pred := without_eps first_rhs in
      pred ← (if bool_decide (EPS ∈ first_rhs) then
                match follow_all_ !! A with
                | None => KeyError A
                | Some fA => Ok (pred ∪ fA)
                end
              else Ok pred);
      prediction_rhss_limited limit follow_all_ A rhss' (<[key := pred]> preds) g
  end.

Fixpoint prediction_items_limited (limit : nat) (follow_all_ : gmap string (gset string))
    (items : pydict (list (list string))) (preds : gmap string (gset string))
    (g : Grammar) : res (gmap string (gset string) * Grammar) :=
  match items with
  | [] => Ok (preds, g)
  | (A, rhss) :: items' =>
      '(preds, g) ← prediction_rhss_limited limit follow_all_ A rhss preds g;
      prediction_items_limited limit follow_all_ items' preds g
  end.

(** The call [self.prediction_sets()] with [limit] frames left. *)
Definition prediction_sets_limited (passes limit : nat) (g : Grammar)
  : res (gmap string (gset string) * Grammar) :=
  match limit with
  | 0 => RecursionError
  | S limit1 =>
      '(follow_all_, g) ← follow_all_limited passes limit1 g;
      prediction_items_limited limit1 follow_all_ (productions g) ∅ g
  end.

End Analyzer.

(** ** A classifier for ASCII symbols *)

(** On a string of ASCII characters [ascii_isalpha] and [ascii_isupper]
    are [str.isalpha] and [str.isupper]. A string with any other byte is
    not alphabetic here, hence a terminal, as is the lower-case letter
    ['ε'] for [str.isupper]. *)
Definition ascii_is_upper (c : Ascii.ascii) : bool :=
  let n := Ascii.nat_of_ascii c in (65 <=? n) && (n <=? 90).

Definition ascii_is_lower (c : Ascii.ascii) : bool :=
  let n := Ascii.nat_of_ascii c in (97 <=? n) && (n <=? 122).

Definition ascii_isalpha (s : string) : bool :=
  let l := String.list_ascii_of_string s in
  negb (length l =? 0) && forallb (λ c, ascii_is_upper c || ascii_is_lower c) l.

Definition ascii_isupper (s : string) : bool :=
  let l := String.list_ascii_of_string s in
  existsb ascii_is_upper l && negb (existsb ascii_is_lower l).

Definition ascii_str : PyStr :=
  {| str_isalpha := ascii_isalpha; str_isupper := ascii_isupper |}.

(** ** Symbols of a grammar *)

(** Every symbol occurring in a body. *)
Definition body_symbols (prods : pydict (list (list string))) : gset string :=
  list_to_set (mjoin (mjoin prods.*2)).

(** Every symbol of a body that [is_nonterminal] accepts is a key, and so
    is the start symbol: the grammars the specification calls structurally
    valid. *)
Definition structurally_valid {py : PyStr} (g : Grammar) : bool :=
  bool_decide (start g ∈ dict_keys (productions g)) &&
  forallb (λ sym, negb (is_nonterminal sym) ||
                  bool_decide (sym ∈ dict_keys (productions g)))
          (mjoin (mjoin (productions g).*2)).

(** ** Production keys *)

(** [' ' not in s]. *)
Fixpoint no_space (s : string) : bool :=
  match s with
  | EmptyString => true
  | String c s' => negb (Ascii.eqb c " "%char) && no_space s'
  end.

(** The body as [prediction_sets] shows it in a key: the empty body is
    shown as the body [['ε']]. *)
Definition shown_body (rhs : list string) : list string :=
  match rhs with
  | [] => [EPS]
  | _ => rhs
  end.

(** The productions in the order [prediction_sets] visits them. *)
Definition flat_productions (items : pydict (list (list string)))
  : list (string * list string) :=
  mjoin ((λ item, pair item.1 <$> item.2) <$> items).

(** [A → rhs] is a production of the grammar. *)
Definition is_production (g : Grammar) (A : string) (rhs : list string) : Prop :=
  (A, rhs) ∈ flat_productions (productions g).

(** No other production of the grammar has the key of [A → rhs]. *)
Definition key_unique (g : Grammar) (A : string) (rhs : list string) : Prop :=
  Forall (λ p, production_key p.1 p.2 = production_key A rhs → p = (A, rhs))
         (flat_productions (productions g)).

#[global] Instance is_production_dec g A rhs : Decision (is_production g A rhs).
Proof. unfold is_production. apply _. Defined.

#[global] Instance key_unique_dec g A rhs : Decision (key_unique g A rhs).
Proof. unfold key_unique. apply _. Defined.

(** The PREDICT set assembled from [FIRST(rhs)] and the FOLLOW map, as
    the rule of the specification words it. *)
Definition predict_rule (follow : gmap string (gset string)) (A : string)
    (first_rhs : gset string) : gset string :=
  (first_rhs ∖ {[EPS]}) ∪
  (if decide (EPS ∈ first_rhs) then default ∅ (follow !! A) else ∅).

(** The entries of [preds] for the productions [done] visited so far; [g0]
    is the analyzer [prediction_sets] was called on. *)
Definition pred_done (g0 : Grammar) (follow : gmap string (gset string))
    (done : list (string * list string)) (preds : gmap string (gset string))
    (g : Grammar) : Prop :=
  ∀ A rhs, (A, rhs) ∈ done → key_unique g0 A rhs →
    ∃ F, _first_rhs_cache g !! rhs = Some F ∧
         preds !! production_key A rhs = Some (predict_rule follow A F).

(** ** The scan of the specification *)

(** FIRST of a nonterminal as the cache of [g] gives it. *)
Definition first_map (g : Grammar) (X : string) : gset string :=
  default ∅ (_first_cache g !! X).

(** The left-to-right scan in the words of the specification: the empty
    sequence gives [{ε}]; a terminal is added and ends the scan; a
    nonterminal contributes its FIRST set without [ε] and the scan goes on
    iff that set has [ε]. *)
Fixpoint spec_scan {py : PyStr} (first_of : string → gset string)
    (alpha : list string) : gset string :=
  match alpha with
  | [] => {[EPS]}
  | sym :: rest =>
      if is_nonterminal sym then
        (first_of sym ∖ {[EPS]}) ∪
        (if decide (EPS ∈ first_of sym) then spec_scan first_of rest else ∅)
      else {[sym]}
  end.

(** ** The states of an analyzer *)

(** The states an analyzer goes through: the one [__init__] builds, and
    the one a returning call of a method leaves. *)
Inductive reachable {py : PyStr} : Grammar → Prop :=
  | reach_init productions start g :
      Grammar_init productions start = Ok g → reachable g
  | reach_first fuel X g r g' :
      reachable g → first fuel X g = Ok (r, g') → reachable g'
  | reach_first_of_rhs fuel rhs g r g' :
      reachable g → first_of_rhs fuel rhs g = Ok (r, g') → reachable g'
  | reach_follow_all fuel g m g' :
      reachable g → follow_all fuel g = Ok (m, g') → reachable g'
  | reach_prediction_sets fuel g preds g' :
      reachable g → prediction_sets fuel g = Ok (preds, g') → reachable g'.

(** The FIRST cache holds the empty set for every symbol without
    productions. *)
Definition no_productions_empty (g : Grammar) : Prop :=
  ∀ X s, _first_cache g !! X = Some s → dict_lookup X (productions g) = None → s = ∅.

(** ** Example grammars *)

(** [S → S a | b]. *)
Definition left_recursive : pydict (list (list string)) :=
  [("S", [["S"; "a"]; ["b"]])].


(** [S → Z] with no productions for [Z]. *)
Definition dangling : pydict (list (list string)) :=
  [("S", [["Z"]])].

(** [S → A b | c], [A → ε]. *)
Definition scenario : pydict (list (list string)) :=
  [("S", [["A"; "b"]; ["c"]]); ("A", [["ε"]])].

(** The first grammar of the script. *)
Definition productions1 : pydict (list (list string)) :=
  [("S", [["A"; "uno"; "B"; "C"]; ["S"; "dos"]]);
   ("A", [["B"; "C"; "D"]; ["A"; "tres"]; ["ε"]]);
   ("B", [["D"; "cuatro"; "C"; "tres"]]);
   ("C", [["cinco"; "D"; "B"]; ["ε"]]);
   ("D", [["ε"]])].

(** A freshly constructed analyzer. *)
Definition fresh (productions : pydict (list (list string))) (start : string) : Grammar :=
  mkGrammar productions start ∅ ∅ ∅ ∅.

(** The analyzer of [scenario] as [follow_all] has it when its first pass
    begins: an entry per key, and [$] in the entry of the start symbol. *)
Definition scenario_seeded : Grammar :=
  set_follow_cache "S" {[EOI]}
    (set_follow_cache "A" ∅ (set_follow_cache "S" ∅ (fresh scenario "S"))).

(** ** Relations between analyzer states *)

(** [cache_ext g g']: the grammar is the same and every entry of the two
    FIRST caches of [g] is an entry of [g']. *)
Definition cache_ext (g g' : Grammar) : Prop :=
  productions g' = productions g ∧ start g' = start g ∧
  _first_cache g ⊆ _first_cache g' ∧
  _first_rhs_cache g ⊆ _first_rhs_cache g'.

(** [first_ext g g']: a call of [first] or [first_of_rhs] leads from [g]
    to [g']. *)
Definition first_ext (g g' : Grammar) : Prop :=
  cache_ext g g' ∧ _follow_cache g' = _follow_cache g.

(** ** Measures for termination *)

(** The symbols of [U] not yet in [_first_cache]: every call of [first]
    that misses the cache removes one before it recurses. *)
Definition slack (U : gset string) (g : Grammar) : nat :=
  size (U ∖ dom (_first_cache g)).

(** The state can serve any query about the symbols [U] within recursion
    depth [n]. *)
Definition ready (U : gset string) (n : nat) (g : Grammar) : Prop :=
  body_symbols (productions g) ⊆ U ∧ slack U g ≤ n.

(** Every set held by a cache is a subset of [V]. *)
Definition bounded (V : gset string) (g : Grammar) : Prop :=
  body_symbols (productions g) ⊆ V ∧ EPS ∈ V ∧
  map_Forall (λ _ s, s ⊆ V) (_first_cache g) ∧
  map_Forall (λ _ s, s ⊆ V) (_first_rhs_cache g) ∧
  map_Forall (λ _ s, s ⊆ V) (_follow_cache g).

(** All members of all cached sets, the symbols of the bodies and the two
    markers: a finite set that bounds whatever the analysis adds. *)
Definition universe (g : Grammar) : gset string :=
  body_symbols (productions g) ∪ {[EPS; EOI]} ∪
  ⋃ (map_to_list (_first_cache g)).*2 ∪
  ⋃ (map_to_list (_first_rhs_cache g)).*2 ∪
  ⋃ (map_to_list (_follow_cache g)).*2.

(** [follow_grows g g']: from [g] to [g'] the FOLLOW cache keeps its keys
    and none of its sets loses a member. *)
Definition follow_grows (g g' : Grammar) : Prop :=
  cache_ext g g' ∧
  dom (_follow_cache g') = dom (_follow_cache g) ∧
  ∀ X s, _follow_cache g !! X = Some s →
         ∃ s', _follow_cache g' !! X = Some s' ∧ s ⊆ s'.

(** The total size of the FOLLOW sets. *)
Definition follow_weight (g : Grammar) : nat :=
  sum_list ((λ X, size (default ∅ (_follow_cache g !! X)))
              <$> elements (dom (_follow_cache g))).

(** What the flag [changed] records about the pass started in [g0]. *)
Definition flag_ok (g0 : Grammar) (changed : bool) (g : Grammar) : Prop :=
  if changed then follow_weight g0 < follow_weight g
  else _follow_cache g = _follow_cache g0.

(** [step_rel changed g changed' g']: a part of a pass leads from the
    flag [changed] and the state [g] to [changed'] and [g']. *)
Definition step_rel (changed : bool) (g : Grammar) (changed' : bool) (g' : Grammar)
  : Prop :=
  follow_grows g g' ∧
  ∀ g0, follow_grows g0 g → flag_ok g0 changed g → flag_ok g0 changed' g'.

(** The subscripts of [follow_all] find their keys. *)
Definition follow_keys_ok {py : PyStr} (g : Grammar) : Prop :=
  (∀ A, A ∈ dict_keys (productions g) → A ∈ dom (_follow_cache g)) ∧
  (∀ sym, sym ∈ body_symbols (productions g) → is_nonterminal sym = true →
          sym ∈ dom (_follow_cache g)).

(** The invariant of the passes of [follow_all]. *)
Definition follow_inv {py : PyStr} (U V : gset string) (n : nat) (g : Grammar) : Prop :=
  ready U n g ∧ bounded V g ∧ follow_keys_ok g.

(** ** Sequences of calls *)

(** [calls g g']: returning calls of the methods lead from the analyzer
    state [g] to [g']. *)
Inductive calls {py : PyStr} : Grammar → Grammar → Prop :=
  | calls_none g : calls g g
  | calls_first fuel X g g1 r g2 :
      calls g g1 → first fuel X g1 = Ok (r, g2) → calls g g2
  | calls_first_of_rhs fuel rhs g g1 r g2 :
      calls g g1 → first_of_rhs fuel rhs g1 = Ok (r, g2) → calls g g2
  | calls_derives_epsilon fuel rhs g g1 b g2 :
      calls g g1 → derives_epsilon fuel rhs g1 = Ok (b, g2) → calls g g2
  | calls_follow_all fuel g g1 m g2 :
      calls g g1 → follow_all fuel g1 = Ok (m, g2) → calls g g2
  | calls_prediction_sets fuel g g1 preds g2 :
      calls g g1 → prediction_sets fuel g1 = Ok (preds, g2) → calls g g2.

(** [settled g1 h]: [h] has the FOLLOW cache of [g1] and every entry of
    its FIRST caches. *)
Definition settled (g1 h : Grammar) : Prop :=
  cache_ext g1 h ∧ _follow_cache h = _follow_cache g1.

(** ** Invariants of the cached sets *)

(** What [_first_rhs_cache] holds for the sequences whose FIRST set does
    not depend on the grammar: the empty sequence and the sequences that
    begin with a terminal. *)
Definition rhs_cache_ok {py : PyStr} (g : Grammar) : Prop :=
  ∀ rhs s, _first_rhs_cache g !! rhs = Some s →
    match rhs with
    | [] => s = {[EPS]}
    | sym :: _ => is_nonterminal sym = false → s = {[sym]}
    end.

(** The symbols of the bodies that [is_nonterminal] rejects. *)
Definition terminals {py : PyStr} (prods : pydict (list (list string))) : gset string :=
  filter (λ sym, is_nonterminal sym = false) (body_symbols prods).

(** The members of the cached FIRST sets are terminals of the bodies or
    [ε]; the FIRST set of a sequence may also hold terminals of the
    sequence. *)
Definition first_members_ok {py : PyStr} (g : Grammar) : Prop :=
  map_Forall (λ _ s, s ⊆ terminals (productions g) ∪ {[EPS]}) (_first_cache g) ∧
  map_Forall (λ rhs s, s ⊆ terminals (productions g) ∪ {[EPS]} ∪
                           filter (λ sym, is_nonterminal sym = false)
                                  (list_to_set rhs))
             (_first_rhs_cache g).

(** The members of the FOLLOW sets are terminals of the bodies other
    than [ε], or [$]. *)
Definition follow_members_ok {py : PyStr} (g : Grammar) : Prop :=
  map_Forall (λ _ s, s ⊆ (terminals (productions g) ∖ {[EPS]}) ∪ {[EOI]})
             (_follow_cache g).

(** The keys of the FOLLOW cache are keys of the productions. *)
Definition follow_dom_ok (g : Grammar) : Prop :=
  ∀ k, k ∈ dom (_follow_cache g) → k ∈ dict_keys (productions g).

(** FIRST of a sequence as the cache of [g] gives it. *)
Definition rhs_map (g : Grammar) (rhs : list string) : gset string :=
  default ∅ (_first_rhs_cache g !! rhs).

(** A body whose FIRST set holds [ε] whatever the grammar: the empty body
    and a body that begins with the terminal ['ε']. *)
Definition shows_epsilon {py : PyStr} (alpha : list string) : bool :=
  match alpha with
  | [] => true
  | sym :: _ => bool_decide (sym = EPS) && negb (is_nonterminal sym)
  end.

(** [X] has an alternative that shows [ε]. *)
Definition has_epsilon_alternative {py : PyStr} (g : Grammar) (X : string) : Prop :=
  Exists (λ alpha, shows_epsilon alpha = true) (dict_get X [] (productions g)).

(** Outside of the nonterminals [P] whose FIRST set is being computed,
    the cached FIRST set of a nonterminal with an alternative that shows
    [ε] holds [ε]. *)
Definition first_epsilon_ok {py : PyStr} (P : gset string) (g : Grammar) : Prop :=
  ∀ X s, X ∉ P → _first_cache g !! X = Some s → has_epsilon_alternative g X → EPS ∈ s.

(** The FOLLOW sets [follow] satisfy the two propagation rules for the
    nonterminal [B] followed by [rest] in a body of [A], [first_rest] being
    the FIRST set of [rest]. *)
Definition follow_closed_at (follow : gmap string (gset string))
    (first_rest : gset string) (A B : string) (rest : list string) : Prop :=
  ∃ sB, follow !! B = Some sB ∧
        first_rest ∖ {[EPS]} ⊆ sB ∧
        ((EPS ∈ first_rest ∨ rest = []) →
         ∃ sA, follow !! A = Some sA ∧ sA ⊆ sB).

(** ** Keys that stand for one production *)

(** Every production of the grammar that has the key of [A → rhs] has the
    head [A] and, as the key shows it, the body [rhs]: the key stands for
    [A → rhs] alone, or for [A → []] and [A → ['ε']] together. *)
Definition key_faithful (g : Grammar) (A : string) (rhs : list string) : Prop :=
  Forall (λ p, production_key p.1 p.2 = production_key A rhs →
               p.1 = A ∧ shown_body p.2 = shown_body rhs)
         (flat_productions (productions g)).

#[global] Instance key_faithful_dec g A rhs : Decision (key_faithful g A rhs).
Proof. unfold key_faithful. apply _. Defined.

(** No head and no symbol of a body holds a space. *)
Definition space_free (g : Grammar) : Prop :=
  Forall (λ p, no_space p.1 = true ∧ Forall (λ x, no_space x = true) p.2)
         (flat_productions (productions g)).



(** ** A deep grammar *)




(** ** Lemmas on [first] and [first_of_rhs] *)

Lemma is_Ok_inv {A : Type} (r : res A) : is_Ok r = true → ∃ a, r = Ok a.
Proof. destruct r; [eauto | done..]. Qed.

Lemma Grammar_init_fresh productions start :
  Grammar_init productions start = Ok (fresh productions start).
Proof. done. Qed.

Lemma bind_Ok {A B : Type} (m : res A) (f : A → res B) (b : B) :
  m ≫= f = Ok b → ∃ a, m = Ok a ∧ f a = Ok b.
Proof. destruct m as [a| | |]; simpl; [eauto | done..]. Qed.

Lemma cache_ext_refl g : cache_ext g g.
Proof. by repeat split. Qed.

Lemma cache_ext_trans g1 g2 g3 : cache_ext g1 g2 → cache_ext g2 g3 → cache_ext g1 g3.
Proof.
  intros (Hp & Hs & Hf & Hr) (Hp' & Hs' & Hf' & Hr').
  repeat split; [congruence | congruence | by etrans | by etrans].
Qed.

Lemma first_ext_refl g : first_ext g g.
Proof. split; [apply cache_ext_refl | done]. Qed.

Lemma first_ext_trans g1 g2 g3 : first_ext g1 g2 → first_ext g2 g3 → first_ext g1 g3.
Proof.
  intros [H1 E1] [H2 E2]. split; [by eapply cache_ext_trans | congruence].
Qed.

Lemma first_ext_set_first_rhs_cache g0 g rhs s :
  _first_rhs_cache g0 !! rhs = None →
  first_ext g0 g → first_ext g0 (set_first_rhs_cache rhs s g).
Proof.
  intros Hn [(Hp & Hs & Hf & Hr) E]. repeat split; simpl; try done.
  by apply insert_subseteq_r.
Qed.

Lemma first_ext_set_first_cache g0 g X s :
  _first_cache g0 !! X = None →
  first_ext g0 g → first_ext g0 (set_first_cache X s g).
Proof.
  intros Hn [(Hp & Hs & Hf & Hr) E]. repeat split; simpl; try done.
  by apply insert_subseteq_r.
Qed.

Section FirstExt.
Context {py : PyStr}.

Section Bodies.
Variable first_rec : string → Grammar → res (gset string * Grammar).
Hypothesis first_rec_ext : ∀ X g r g',
  first_rec X g = Ok (r, g') → first_ext g g' ∧ _first_cache g' !! X = Some r.

Lemma first_of_rhs_scan_ext rhs : ∀ result g r g',
  first_of_rhs_scan first_rec rhs result g = Ok (r, g') → first_ext g g'.
Proof.
  induction rhs as [|sym rhs IH]; intros result g r g' H; simpl in H.
  - injection H as _ <-. apply first_ext_refl.
  - destruct (negb (is_nonterminal sym)).
    { injection H as _ <-. apply first_ext_refl. }
    apply bind_Ok in H as ([fs g1] & Hf & H).
    apply first_rec_ext in Hf as [Hf _].
    destruct (decide (EPS ∈ fs)).
    + eapply first_ext_trans; [exact Hf | by eapply IH].
    + by injection H as _ <-.
Qed.

Lemma first_of_rhs_body_ext rhs g r g' :
  first_of_rhs_body first_rec rhs g = Ok (r, g') →
  first_ext g g' ∧ _first_rhs_cache g' !! rhs = Some r.
Proof.
  unfold first_of_rhs_body. intros H.
  destruct (_first_rhs_cache g !! rhs) as [c|] eqn:Hc.
  { injection H as <- <-. split; [apply first_ext_refl | done]. }
  destruct (length rhs =? 0).
  - injection H as <- <-. split.
    + apply first_ext_set_first_rhs_cache; [done | apply first_ext_refl].
    + simpl. apply lookup_insert_eq.
  - apply bind_Ok in H as ([r1 g1] & Hs & H). injection H as <- <-.
    apply first_of_rhs_scan_ext in Hs. split.
    + by apply first_ext_set_first_rhs_cache.
    + simpl. apply lookup_insert_eq.
Qed.

Lemma first_alternatives_ext X g0 alphas : ∀ result g r g',
  _first_cache g0 !! X = None →
  first_ext g0 g →
  _first_cache g !! X = Some result →
  first_alternatives first_rec X alphas result g = Ok (r, g') →
  first_ext g0 g' ∧ _first_cache g' !! X = Some r.
Proof.
  induction alphas as [|alpha alphas IH]; intros result g r g' Hn Hg Hx H; simpl in H.
  - by injection H as <- <-.
  - apply bind_Ok in H as ([fa g1] & Hb & H).
    apply first_of_rhs_body_ext in Hb as [Hb _].
    eapply IH in H; [done | done | | simpl; apply lookup_insert_eq].
    apply first_ext_set_first_cache; [done|]. by eapply first_ext_trans.
Qed.
End Bodies.

Lemma first_spec fuel : ∀ X g r g',
  first fuel X g = Ok (r, g') → first_ext g g' ∧ _first_cache g' !! X = Some r.
Proof.
  induction fuel as [|fuel IH]; intros X g r g' H; simpl in H.
  - destruct (_first_cache g !! X) eqn:Hc; [|done].
    injection H as <- <-. split; [apply first_ext_refl | done].
  - destruct (_first_cache g !! X) eqn:Hc.
    { injection H as <- <-. split; [apply first_ext_refl | done]. }
    apply bind_Ok in H as ([r1 g1] & Ha & H). injection H as <- <-.
    eapply first_alternatives_ext in Ha as [Ha Hx]; [| exact IH | exact Hc | |].
    + split; [by apply first_ext_set_first_cache | simpl; apply lookup_insert_eq].
    + apply first_ext_set_first_cache; [done | apply first_ext_refl].
    + simpl. apply lookup_insert_eq.
Qed.

Lemma first_of_rhs_spec fuel rhs g r g' :
  first_of_rhs fuel rhs g = Ok (r, g') →
  first_ext g g' ∧ _first_rhs_cache g' !! rhs = Some r.
Proof. apply first_of_rhs_body_ext, first_spec. Qed.

End FirstExt.

(** ** Termination of [first] and [first_of_rhs] *)

Lemma elem_of_body_symbols prods A rhss rhs sym :
  (A, rhss) ∈ prods → rhs ∈ rhss → sym ∈ rhs → sym ∈ body_symbols prods.
Proof.
  intros Hp Hr Hs. unfold body_symbols. rewrite elem_of_list_to_set.
  apply list_elem_of_join. exists rhs. split; [done|].
  apply list_elem_of_join. exists rhss. split; [done|].
  apply list_elem_of_fmap. by exists (A, rhss).
Qed.

Lemma body_symbols_inv prods sym :
  sym ∈ body_symbols prods →
  ∃ A rhss rhs, (A, rhss) ∈ prods ∧ rhs ∈ rhss ∧ sym ∈ rhs.
Proof.
  unfold body_symbols. rewrite elem_of_list_to_set.
  intros (rhs & Hs & (rhss & Hr & Hp)%list_elem_of_join)%list_elem_of_join.
  apply list_elem_of_fmap in Hp as ([A rhss'] & -> & Hp). eauto 6.
Qed.

Lemma dict_lookup_elem {V : Type} k (d : pydict V) v :
  dict_lookup k d = Some v → (k, v) ∈ d.
Proof.
  induction d as [|[k' v'] d IH]; simpl; [done|].
  destruct (decide (k = k')) as [->|].
  - intros [= ->]. left.
  - intros H. right. by apply IH.
Qed.

Lemma dict_get_symbols prods X alpha sym :
  alpha ∈ dict_get X [] prods → sym ∈ alpha → sym ∈ body_symbols prods.
Proof.
  unfold dict_get. destruct (dict_lookup X prods) as [rhss|] eqn:E.
  - intros. eapply elem_of_body_symbols; [by apply dict_lookup_elem | done | done].
  - by intros ?%elem_of_nil.
Qed.

Section FirstTotal.
Context {py : PyStr}.
(** [U]: the symbols [first] may be asked about. *)
Variable U : gset string.

#[local] Abbreviation slack := (slack U).
#[local] Abbreviation ready := (ready U).

Lemma ready_cache_ext n g g' : cache_ext g g' → ready n g → ready n g'.
Proof.
  intros (Hp & _ & Hf & _) [HU Hn]. split; [by rewrite Hp|].
  assert (slack g' ≤ slack g); [|lia].
  unfold slack. apply subseteq_size.
  apply subseteq_dom in Hf. set_solver.
Qed.

Lemma ready_set_first_cache n X s g : ready n g → ready n (set_first_cache X s g).
Proof.
  intros [HU Hn]. split; [done|].
  assert (slack (set_first_cache X s g) ≤ slack g); [|lia].
  unfold slack. apply subseteq_size. simpl. rewrite dom_insert_L. set_solver.
Qed.

Lemma ready_mono n m g : n ≤ m → ready n g → ready m g.
Proof. intros ? [? ?]. split; [done | lia]. Qed.

Lemma ready_miss n X s g :
  X ∈ U → _first_cache g !! X = None → ready (S n) g →
  ready n (set_first_cache X s g).
Proof.
  intros HX Hc [HU Hn]. split; [done|].
  assert (slack (set_first_cache X s g) < slack g); [|lia].
  unfold slack. apply subset_size. simpl. rewrite dom_insert_L.
  apply not_elem_of_dom in Hc. set_solver.
Qed.

Lemma ready_0_hit X g : X ∈ U → ready 0 g → is_Some (_first_cache g !! X).
Proof.
  intros HX [_ Hn]. apply elem_of_dom.
  destruct (decide (X ∈ dom (_first_cache g))) as [|Hd]; [done|].
  assert (size (U ∖ dom (_first_cache g)) = 0) as He.
  { unfold slack in Hn. lia. }
  apply size_empty_inv in He. set_solver.
Qed.

Section Bodies.
Variable first_rec : string → Grammar → res (gset string * Grammar).
Variable n : nat.
Hypothesis first_rec_ext : ∀ X g r g',
  first_rec X g = Ok (r, g') → first_ext g g' ∧ _first_cache g' !! X = Some r.
Hypothesis first_rec_total : ∀ X g,
  X ∈ U → ready n g → ∃ r g', first_rec X g = Ok (r, g').

Lemma first_of_rhs_scan_total rhs : ∀ result g,
  (∀ sym, sym ∈ rhs → sym ∈ U) → ready n g →
  ∃ r g', first_of_rhs_scan first_rec rhs result g = Ok (r, g').
Proof.
  induction rhs as [|sym rhs IH]; intros result g HU Hn; simpl; [eauto|].
  destruct (negb (is_nonterminal sym)); [eauto|].
  destruct (first_rec_total sym g) as (fs & g1 & Hf); [apply HU; left | done |].
  rewrite Hf. simpl. destruct (decide (EPS ∈ fs)); [|eauto].
  apply IH.
  - intros s Hs. apply HU. by right.
  - apply first_rec_ext in Hf as [[Hf _] _]. by eapply ready_cache_ext.
Qed.

Lemma first_of_rhs_body_total rhs g :
  (∀ sym, sym ∈ rhs → sym ∈ U) → ready n g →
  ∃ r g', first_of_rhs_body first_rec rhs g = Ok (r, g').
Proof.
  intros HU Hn. unfold first_of_rhs_body.
  destruct (_first_rhs_cache g !! rhs); [eauto|].
  destruct (length rhs =? 0); [eauto|].
  destruct (first_of_rhs_scan_total rhs ∅ g) as (r & g1 & Hs); [done..|].
  rewrite Hs. simpl. eauto.
Qed.

Lemma first_alternatives_total X alphas : ∀ result g,
  (∀ alpha sym, alpha ∈ alphas → sym ∈ alpha → sym ∈ U) → ready n g →
  ∃ r g', first_alternatives first_rec X alphas result g = Ok (r, g').
Proof.
  induction alphas as [|alpha alphas IH]; intros result g HU Hn; simpl; [eauto|].
  destruct (first_of_rhs_body_total alpha g) as (fa & g1 & Hb); [|done|].
  { intros sym. apply HU. left. }
  rewrite Hb. simpl. apply IH.
  - intros a sym Ha. apply HU. by right.
  - apply ready_set_first_cache.
    apply (first_of_rhs_body_ext _ first_rec_ext) in Hb as [[Hb _] _].
    by eapply ready_cache_ext.
Qed.
End Bodies.

Lemma first_total fuel : ∀ X g,
  X ∈ U → ready fuel g → ∃ r g', first fuel X g = Ok (r, g').
Proof.
  induction fuel as [|fuel IH]; intros X g HX Hn; simpl.
  - destruct (ready_0_hit X g HX Hn) as [c ->]. eauto.
  - destruct (_first_cache g !! X) eqn:Hc; [eauto|].
    destruct (first_alternatives_total (first fuel) fuel) with
      (X := X) (alphas := dict_get X [] (productions g))
      (result := (∅ : gset string)) (g := set_first_cache X ∅ g)
      as (r & g1 & Ha).
    + apply first_spec.
    + exact IH.
    + intros alpha sym Ha Hs. apply Hn. by eapply dict_get_symbols.
    + by apply ready_miss.
    + simpl in Ha. rewrite Ha. simpl. eauto.
Qed.

Lemma first_of_rhs_total fuel rhs g :
  (∀ sym, sym ∈ rhs → sym ∈ U) → ready fuel g →
  ∃ r g', first_of_rhs fuel rhs g = Ok (r, g').
Proof.
  intros. eapply first_of_rhs_body_total; [apply first_spec | apply first_total | done..].
Qed.

End FirstTotal.

(** ** The cached sets stay within a finite universe *)

Lemma without_eps_spec (s : gset string) x : x ∈ without_eps s ↔ x ≠ EPS ∧ x ∈ s.
Proof. unfold without_eps. by rewrite elem_of_filter. Qed.

Lemma without_eps_subseteq (s : gset string) : without_eps s ⊆ s.
Proof. intros x. rewrite without_eps_spec. tauto. Qed.

Lemma bounded_set_first_cache V X s g :
  s ⊆ V → bounded V g → bounded V (set_first_cache X s g).
Proof.
  intros Hs (Hb & He & H1 & H2 & H3). repeat split; simpl; try done.
  by apply map_Forall_insert_2.
Qed.

Lemma bounded_set_first_rhs_cache V rhs s g :
  s ⊆ V → bounded V g → bounded V (set_first_rhs_cache rhs s g).
Proof.
  intros Hs (Hb & He & H1 & H2 & H3). repeat split; simpl; try done.
  by apply map_Forall_insert_2.
Qed.

Lemma bounded_set_follow_cache V X s g :
  s ⊆ V → bounded V g → bounded V (set_follow_cache X s g).
Proof.
  intros Hs (Hb & He & H1 & H2 & H3). repeat split; simpl; try done.
  by apply map_Forall_insert_2.
Qed.

Section FirstBounded.
Context {py : PyStr}.
Variable V : gset string.

Section Bodies.
Variable first_rec : string → Grammar → res (gset string * Grammar).
Hypothesis first_rec_bounded : ∀ X g r g',
  first_rec X g = Ok (r, g') → bounded V g → bounded V g' ∧ r ⊆ V.

Lemma first_of_rhs_scan_bounded rhs : ∀ result g r g',
  (∀ sym, sym ∈ rhs → sym ∈ V) → result ⊆ V → bounded V g →
  first_of_rhs_scan first_rec rhs result g = Ok (r, g') →
  bounded V g' ∧ r ⊆ V.
Proof.
  induction rhs as [|sym rhs IH]; intros result g r g' HV Hr Hg H; simpl in H.
  - injection H as <- <-. split; [done|]. destruct Hg as (_ & He & _). set_solver.
  - assert (sym ∈ V) by (apply HV; left).
    destruct (negb (is_nonterminal sym)).
    { injection H as <- <-. split; [done | set_solver]. }
    apply bind_Ok in H as ([fs g1] & Hf & H).
    apply first_rec_bounded in Hf as [Hg1 Hfs]; [|done].
    pose proof (without_eps_subseteq fs).
    destruct (decide (EPS ∈ fs)).
    + eapply IH in H; [done| |set_solver|done]. intros s Hs. apply HV. by right.
    + injection H as <- <-. split; [done | set_solver].
Qed.

Lemma first_of_rhs_body_bounded rhs g r g' :
  (∀ sym, sym ∈ rhs → sym ∈ V) → bounded V g →
  first_of_rhs_body first_rec rhs g = Ok (r, g') →
  bounded V g' ∧ r ⊆ V.
Proof.
  unfold first_of_rhs_body. intros HV Hg H.
  destruct (_first_rhs_cache g !! rhs) as [c|] eqn:Hc.
  { injection H as <- <-. split; [done|].
    destruct Hg as (_ & _ & _ & H2 & _). by apply (H2 rhs). }
  destruct (length rhs =? 0).
  - injection H as <- <-.
    assert ((∅ ∪ {[EPS]} : gset string) ⊆ V).
    { destruct Hg as (_ & He & _). set_solver. }
    split; [by apply bounded_set_first_rhs_cache | done].
  - apply bind_Ok in H as ([r1 g1] & Hs & H). injection H as <- <-.
    apply first_of_rhs_scan_bounded in Hs as [Hg1 Hr1]; [|done|set_solver|done].
    split; [by apply bounded_set_first_rhs_cache | done].
Qed.

Lemma first_alternatives_bounded X alphas : ∀ result g r g',
  (∀ alpha sym, alpha ∈ alphas → sym ∈ alpha → sym ∈ V) →
  result ⊆ V → bounded V g →
  first_alternatives first_rec X alphas result g = Ok (r, g') →
  bounded V g' ∧ r ⊆ V.
Proof.
  induction alphas as [|alpha alphas IH]; intros result g r g' HV Hr Hg H; simpl in H.
  - by injection H as <- <-.
  - apply bind_Ok in H as ([fa g1] & Hb & H).
    apply first_of_rhs_body_bounded in Hb as [Hg1 Hfa]; [| |done].
    2:{ intros sym. apply HV. left. }
    pose proof (without_eps_subseteq fa).
    assert ((let result := result ∪ without_eps fa in
             if decide (EPS ∈ fa) then result ∪ {[EPS]} else result) ⊆ V) as Hr'.
    { simpl. destruct (decide (EPS ∈ fa)); set_solver. }
    eapply IH in H; [done| |exact Hr'|by apply bounded_set_first_cache].
    intros a sym Ha. apply HV. by right.
Qed.
End Bodies.

Lemma first_bounded fuel : ∀ X g r g',
  first fuel X g = Ok (r, g') → bounded V g → bounded V g' ∧ r ⊆ V.
Proof.
  induction fuel as [|fuel IH]; intros X g r g' H Hg; simpl in H.
  - destruct (_first_cache g !! X) eqn:Hc; [|done].
    injection H as <- <-. split; [done|].
    destruct Hg as (_ & _ & H1 & _). by apply (H1 X).
  - destruct (_first_cache g !! X) eqn:Hc.
    { injection H as <- <-. split; [done|].
      destruct Hg as (_ & _ & H1 & _). by apply (H1 X). }
    apply bind_Ok in H as ([r1 g1] & Ha & H). injection H as <- <-.
    eapply first_alternatives_bounded in Ha as [Hg1 Hr1]; [| exact IH | | done |].
    + split; [by apply bounded_set_first_cache | done].
    + intros alpha sym Ha' Hs. simpl in Ha'. apply Hg. by eapply dict_get_symbols.
    + by apply bounded_set_first_cache.
Qed.

Lemma first_of_rhs_bounded fuel rhs g r g' :
  (∀ sym, sym ∈ rhs → sym ∈ V) → bounded V g →
  first_of_rhs fuel rhs g = Ok (r, g') → bounded V g' ∧ r ⊆ V.
Proof. apply first_of_rhs_body_bounded, first_bounded. Qed.

End FirstBounded.

(** ** The FOLLOW sets only grow *)

Lemma follow_grows_refl g : follow_grows g g.
Proof. split; [apply cache_ext_refl|]. split; [done|]. eauto. Qed.

Lemma follow_grows_trans g1 g2 g3 :
  follow_grows g1 g2 → follow_grows g2 g3 → follow_grows g1 g3.
Proof.
  intros (Hc & Hd & Hm) (Hc' & Hd' & Hm').
  split; [by eapply cache_ext_trans|]. split; [congruence|].
  intros X s Hs. apply Hm in Hs as (s1 & Hs1 & Hsub).
  apply Hm' in Hs1 as (s2 & Hs2 & Hsub'). exists s2. split; [done | set_solver].
Qed.

Lemma first_ext_follow_grows g g' : first_ext g g' → follow_grows g g'.
Proof.
  intros [Hc He]. split; [done|]. rewrite He. split; [done|]. eauto.
Qed.

Lemma follow_grows_set_follow_cache g B before s :
  _follow_cache g !! B = Some before → before ⊆ s →
  follow_grows g (set_follow_cache B s g).
Proof.
  intros HB Hs. split; [by repeat split|]. simpl. split.
  - rewrite dom_insert_L. apply elem_of_dom_2 in HB. set_solver.
  - intros X t Ht. destruct (decide (X = B)) as [->|Hne].
    + rewrite lookup_insert_eq. exists s. split; [done|].
      assert (t = before) as -> by congruence. done.
    + rewrite lookup_insert_ne; [eauto | done].
Qed.

Lemma follow_grows_productions g g' : follow_grows g g' → productions g' = productions g.
Proof. by intros ((Hp & _) & _). Qed.

(** *** The weight of the FOLLOW cache *)

Lemma sum_list_fmap_le {A : Type} (f f' : A → nat) (l : list A) :
  (∀ x, x ∈ l → f x ≤ f' x) → sum_list (f <$> l) ≤ sum_list (f' <$> l).
Proof.
  induction l as [|a l IH]; intros H; [done|]. rewrite !fmap_cons. simpl.
  assert (f a ≤ f' a) by (apply H; left).
  assert (sum_list (f <$> l) ≤ sum_list (f' <$> l)); [|lia].
  apply IH. intros x Hx. apply H. by right.
Qed.

Lemma sum_list_fmap_lt {A : Type} (f f' : A → nat) (l : list A) a :
  (∀ x, x ∈ l → f x ≤ f' x) → a ∈ l → f a < f' a →
  sum_list (f <$> l) < sum_list (f' <$> l).
Proof.
  induction l as [|b l IH]; intros H Ha Hlt; [by apply elem_of_nil in Ha|].
  rewrite !fmap_cons. simpl. assert (f b ≤ f' b) by (apply H; left).
  assert (∀ x, x ∈ l → f x ≤ f' x) as Hl by (intros x Hx; apply H; by right).
  apply elem_of_cons in Ha as [->|Ha].
  - pose proof (sum_list_fmap_le f f' l Hl). lia.
  - specialize (IH Hl Ha Hlt). lia.
Qed.

Lemma sum_list_fmap_bound {A : Type} (f : A → nat) (l : list A) b :
  (∀ x, x ∈ l → f x ≤ b) → sum_list (f <$> l) ≤ length l * b.
Proof.
  induction l as [|a l IH]; intros H; [done|]. rewrite fmap_cons. simpl.
  assert (f a ≤ b) by (apply H; left).
  assert (sum_list (f <$> l) ≤ length l * b); [|lia].
  apply IH. intros x Hx. apply H. by right.
Qed.

Lemma follow_weight_mono g g' : follow_grows g g' → follow_weight g ≤ follow_weight g'.
Proof.
  intros (_ & Hd & Hm). unfold follow_weight. rewrite Hd.
  apply sum_list_fmap_le. intros X HX.
  apply elem_of_elements, elem_of_dom in HX as [s Hs].
  destruct (Hm X s Hs) as (s' & Hs' & Hsub). rewrite Hs, Hs'. simpl.
  by apply subseteq_size.
Qed.

Lemma follow_weight_strict g g' B s s' :
  follow_grows g g' →
  _follow_cache g !! B = Some s → _follow_cache g' !! B = Some s' → s' ≠ s →
  follow_weight g < follow_weight g'.
Proof.
  intros (_ & Hd & Hm) HB HB' Hne. unfold follow_weight. rewrite Hd.
  apply sum_list_fmap_lt with (a := B).
  - intros X HX. apply elem_of_elements, elem_of_dom in HX as [t Ht].
    destruct (Hm X t Ht) as (t' & Ht' & Hsub). rewrite Ht, Ht'. simpl.
    by apply subseteq_size.
  - apply elem_of_elements. by apply elem_of_dom_2 in HB.
  - rewrite HB, HB'. simpl. apply subset_size.
    destruct (Hm B s HB) as (t & Ht & Hsub).
    assert (t = s') by congruence. subst t. set_solver.
Qed.

Lemma follow_weight_bound V g :
  map_Forall (λ _ s, s ⊆ V) (_follow_cache g) →
  follow_weight g ≤ size (dom (_follow_cache g)) * size V.
Proof.
  intros HV. unfold follow_weight.
  apply (sum_list_fmap_bound _ (elements (dom (_follow_cache g)))).
  intros X HX. apply elem_of_elements, elem_of_dom in HX as [s Hs].
  rewrite Hs. simpl. apply subseteq_size. by apply (HV X).
Qed.

Lemma follow_weight_eq g g' :
  _follow_cache g' = _follow_cache g → follow_weight g' = follow_weight g.
Proof. unfold follow_weight. by intros ->. Qed.

(** *** The flag [changed] *)

Lemma flag_ok_follow_eq g0 c g g' :
  _follow_cache g' = _follow_cache g → flag_ok g0 c g → flag_ok g0 c g'.
Proof.
  intros He. destruct c; simpl.
  - by rewrite (follow_weight_eq g g' He).
  - congruence.
Qed.

Lemma step_rel_refl c g : step_rel c g c g.
Proof. split; [apply follow_grows_refl | done]. Qed.

Lemma step_rel_trans c1 g1 c2 g2 c3 g3 :
  step_rel c1 g1 c2 g2 → step_rel c2 g2 c3 g3 → step_rel c1 g1 c3 g3.
Proof.
  intros [Hg Hf] [Hg' Hf']. split; [by eapply follow_grows_trans|].
  intros g0 H0 Hc. apply Hf'; [by eapply follow_grows_trans | by apply Hf].
Qed.

(** *** The loops of [follow_all] *)

Section FollowSpec.
Context {py : PyStr}.

Lemma follow_step_spec fuel A B rest c g c' g' :
  follow_step fuel A B rest c g = Ok (c', g') → step_rel c g c' g'.
Proof.
  unfold follow_step. intros H.
  apply bind_Ok in H as ([first_rest g1] & Hf & H).
  apply first_of_rhs_spec in Hf as [Hf _].
  destruct (_follow_cache g1 !! B) as [before|] eqn:HB; [|done].
  apply bind_Ok in H as ([fB g2] & Hu & H). injection H as <- <-.
  set (fB1 := before ∪ without_eps first_rest) in *.
  assert (follow_grows g1 g2 ∧ _follow_cache g2 = <[B := fB]> (_follow_cache g1))
    as [Hg12 Hfo].
  { destruct (bool_decide (EPS ∈ first_rest) || (length rest =? 0)).
    - destruct (_follow_cache (set_follow_cache B fB1 g1) !! A) as [fA|]; [|done].
      injection Hu as <- <-. split; [|simpl; apply insert_insert_eq].
      eapply follow_grows_trans.
      + apply (follow_grows_set_follow_cache g1 B before fB1); [done | set_solver].
      + apply (follow_grows_set_follow_cache _ B fB1); [|set_solver].
        simpl. apply lookup_insert_eq.
    - injection Hu as <- <-. split; [|done].
      apply (follow_grows_set_follow_cache g1 B before fB1); [done | set_solver]. }
  apply first_ext_follow_grows in Hf as Hg01.
  split; [by eapply follow_grows_trans|].
  clear Hu. intros g0 Hg0 Hc. case_bool_decide as Hne.
  - simpl. eapply Nat.le_lt_trans.
    + apply (follow_weight_mono g0 g1). by eapply follow_grows_trans.
    + eapply (follow_weight_strict g1 g2 B before fB); [done | done | | done].
      rewrite Hfo. apply lookup_insert_eq.
  - subst fB.
    apply (flag_ok_follow_eq g0 c g); [|done].
    rewrite Hfo. destruct Hf as [_ <-]. by apply insert_id.
Qed.

Lemma follow_symbols_spec fuel A symbols : ∀ c g c' g',
  follow_symbols fuel A symbols c g = Ok (c', g') → step_rel c g c' g'.
Proof.
  induction symbols as [|B rest IH]; intros c g c' g' H; simpl in H.
  - injection H as <- <-. apply step_rel_refl.
  - destruct (negb (is_nonterminal B)); [by apply IH|].
    apply bind_Ok in H as ([c1 g1] & Hs & H).
    eapply step_rel_trans; [by eapply follow_step_spec | by apply IH].
Qed.

Lemma follow_rhss_spec fuel A rhss : ∀ c g c' g',
  follow_rhss fuel A rhss c g = Ok (c', g') → step_rel c g c' g'.
Proof.
  induction rhss as [|rhs rhss IH]; intros c g c' g' H; simpl in H.
  - injection H as <- <-. apply step_rel_refl.
  - apply bind_Ok in H as ([c1 g1] & Hs & H).
    eapply step_rel_trans; [by eapply follow_symbols_spec | by apply IH].
Qed.

Lemma follow_items_spec fuel items : ∀ c g c' g',
  follow_items fuel items c g = Ok (c', g') → step_rel c g c' g'.
Proof.
  induction items as [|[A rhss] items IH]; intros c g c' g' H; simpl in H.
  - injection H as <- <-. apply step_rel_refl.
  - apply bind_Ok in H as ([c1 g1] & Hs & H).
    eapply step_rel_trans; [by eapply follow_rhss_spec | by apply IH].
Qed.

(** A pass either reports a change and has added a member to some FOLLOW
    set, or reports none and has left the FOLLOW cache as it was. *)
Lemma follow_pass_spec fuel g c' g' :
  follow_pass fuel g = Ok (c', g') → follow_grows g g' ∧ flag_ok g c' g'.
Proof.
  intros [Hg Hf]%follow_items_spec. split; [done|].
  apply Hf; [apply follow_grows_refl | done].
Qed.

(** The loop ends with a pass that changed nothing. *)
Lemma follow_while_spec passes fuel : ∀ g g',
  follow_while passes fuel g = Ok g' →
  follow_grows g g' ∧
  ∃ g1, follow_grows g g1 ∧ follow_pass fuel g1 = Ok (false, g') ∧
        _follow_cache g' = _follow_cache g1.
Proof.
  induction passes as [|passes IH]; intros g g' H; simpl in H; [done|].
  apply bind_Ok in H as ([c g1] & Hp & H).
  pose proof (follow_pass_spec _ _ _ _ Hp) as [Hg Hf].
  destruct c.
  - apply IH in H as (Hg' & g2 & Hg2 & Hp2 & He).
    split; [by eapply follow_grows_trans|].
    exists g2. split; [by eapply follow_grows_trans | done].
  - injection H as <-. split; [done|].
    exists g. split; [apply follow_grows_refl | done].
Qed.

Lemma follow_setdefault_keys keys : ∀ g,
  let g' := foldl follow_setdefault g keys in
  productions g' = productions g ∧ start g' = start g ∧
  _first_cache g' = _first_cache g ∧ _first_rhs_cache g' = _first_rhs_cache g ∧
  _follow_cache g ⊆ _follow_cache g' ∧
  dom (_follow_cache g') = dom (_follow_cache g) ∪ list_to_set keys ∧
  ∀ X s, _follow_cache g' !! X = Some s →
         _follow_cache g !! X = Some s ∨ s = ∅.
Proof.
  induction keys as [|k keys IH]; intros g; simpl.
  - repeat split; try done; [set_solver | eauto].
  - destruct (IH (follow_setdefault g k)) as (Hp & Hs & Hf & Hr & Hm & Hd & Hn).
    unfold follow_setdefault in *.
    destruct (_follow_cache g !! k) as [s|] eqn:Hk.
    + repeat split; try done. rewrite Hd. apply elem_of_dom_2 in Hk. set_solver.
    + simpl in *. repeat split; try done.
      * etrans; [|exact Hm]. by apply insert_subseteq.
      * rewrite Hd, dom_insert_L. set_solver.
      * intros X s HX. apply Hn in HX as [HX| ->]; [|by right].
        destruct (decide (k = X)) as [->|Hne].
        -- rewrite lookup_insert_eq in HX. right. congruence.
        -- rewrite lookup_insert_ne in HX by done. by left.
Qed.

End FollowSpec.

(** ** Termination of [follow_all] *)

Lemma bounded_universe g : bounded (universe g) g.
Proof.
  assert (∀ (K : Type) `{Countable K} (m : gmap K (gset string)),
            map_Forall (λ _ s, s ⊆ ⋃ (map_to_list m).*2) m) as Hm.
  { intros K ?? m k s Hk x Hx. apply elem_of_union_list. exists s. split; [|done].
    apply list_elem_of_fmap. exists (k, s). split; [done|].
    by apply elem_of_map_to_list. }
  unfold universe. repeat split.
  - set_solver.
  - set_solver.
  - intros k s Hk. pose proof (Hm _ _ _ (_first_cache g) k s Hk). set_solver.
  - intros k s Hk. pose proof (Hm _ _ _ (_first_rhs_cache g) k s Hk). set_solver.
  - intros k s Hk. pose proof (Hm _ _ _ (_follow_cache g) k s Hk). set_solver.
Qed.

Section FollowTotal.
Context {py : PyStr}.
Variables U V : gset string.
Variable fuel : nat.

#[local] Abbreviation inv := (follow_inv U V fuel).

Lemma follow_inv_dom g g' :
  follow_grows g g' → ready U fuel g' → bounded V g' → follow_keys_ok g →
  inv g'.
Proof.
  intros (Hc & Hd & _) Hr Hb [Hk1 Hk2]. repeat split; try apply Hr; try apply Hb.
  - destruct Hc as (-> & _). rewrite Hd. apply Hk1.
  - destruct Hc as (-> & _). rewrite Hd. apply Hk2.
Qed.

Lemma follow_step_total A B rest c g :
  inv g → (∀ sym, sym ∈ rest → sym ∈ body_symbols (productions g)) →
  A ∈ dom (_follow_cache g) → B ∈ dom (_follow_cache g) →
  ∃ c' g', follow_step fuel A B rest c g = Ok (c', g') ∧ inv g'.
Proof.
  intros (Hr & Hb & Hk) Hrest HA HB.
  destruct (first_of_rhs_total U fuel rest g) as (fr & g1 & Hf); [|done|].
  { intros sym Hs. apply Hr. by apply Hrest. }
  pose proof Hf as Hf'. apply first_of_rhs_spec in Hf' as [Hext _].
  pose proof Hf as Hf'. apply (first_of_rhs_bounded V) in Hf' as [Hb1 Hfr]; [| |done].
  2:{ intros sym Hs. apply Hb. by apply Hrest. }
  destruct (follow_step fuel A B rest c g) as [[c' g']| | |] eqn:E.
  - exists c', g'. split; [done|].
    pose proof (follow_step_spec _ _ _ _ _ _ _ _ E) as [Hg _].
    unfold follow_step in E. rewrite Hf in E. simpl in E.
    destruct (_follow_cache g1 !! B) as [before|] eqn:HB1; [|done].
    assert (before ⊆ V) as Hbefore.
    { destruct Hb1 as (_ & _ & _ & _ & H3). by apply (H3 B). }
    pose proof (without_eps_subseteq fr).
    apply bind_Ok in E as ([fB g2] & Hu & E). injection E as <- <-.
    apply (follow_inv_dom g); [done | | | done].
    + apply (ready_cache_ext U fuel g); [apply Hg | done].
    + destruct (bool_decide (EPS ∈ fr) || (length rest =? 0)).
      * destruct (<[B:=before ∪ without_eps fr]> (_follow_cache g1) !! A)
          as [fA|] eqn:EA; [|done].
        injection Hu as <- <-.
        assert (fA ⊆ V).
        { destruct (decide (B = A)) as [->|Hne].
          - rewrite lookup_insert_eq in EA. injection EA as <-. set_solver.
          - rewrite lookup_insert_ne in EA by done.
            destruct Hb1 as (_ & _ & _ & _ & H3). by apply (H3 A). }
        apply bounded_set_follow_cache; [set_solver|].
        apply bounded_set_follow_cache; [set_solver | done].
      * injection Hu as <- <-.
        apply bounded_set_follow_cache; [set_solver | done].
  - exfalso. unfold follow_step in E. rewrite Hf in E. simpl in E.
    destruct Hext as [_ He]. rewrite <- He in HA, HB.
    apply elem_of_dom in HB as [before HB]. rewrite HB in E.
    destruct (bool_decide (EPS ∈ fr) || (length rest =? 0)); [|done].
    assert (is_Some (<[B:=before ∪ without_eps fr]> (_follow_cache g1) !! A))
      as [fA HfA].
    { apply elem_of_dom. rewrite dom_insert_L. set_solver. }
    by rewrite HfA in E.
  - exfalso. unfold follow_step in E. rewrite Hf in E. simpl in E.
    destruct Hext as [_ He]. rewrite <- He in HA, HB.
    apply elem_of_dom in HB as [before HB]. rewrite HB in E.
    destruct (bool_decide (EPS ∈ fr) || (length rest =? 0)); [|done].
    assert (is_Some (<[B:=before ∪ without_eps fr]> (_follow_cache g1) !! A))
      as [fA HfA].
    { apply elem_of_dom. rewrite dom_insert_L. set_solver. }
    by rewrite HfA in E.
  - exfalso. unfold follow_step in E. rewrite Hf in E. simpl in E.
    destruct Hext as [_ He]. rewrite <- He in HA, HB.
    apply elem_of_dom in HB as [before HB]. rewrite HB in E.
    destruct (bool_decide (EPS ∈ fr) || (length rest =? 0)); [|done].
    assert (is_Some (<[B:=before ∪ without_eps fr]> (_follow_cache g1) !! A))
      as [fA HfA].
    { apply elem_of_dom. rewrite dom_insert_L. set_solver. }
    by rewrite HfA in E.
Qed.

Lemma follow_symbols_total A symbols : ∀ c g,
  inv g → (∀ sym, sym ∈ symbols → sym ∈ body_symbols (productions g)) →
  A ∈ dict_keys (productions g) →
  ∃ c' g', follow_symbols fuel A symbols c g = Ok (c', g') ∧ inv g'.
Proof.
  induction symbols as [|B rest IH]; intros c g Hi Hs HA; simpl; [eauto|].
  assert (∀ sym, sym ∈ rest → sym ∈ body_symbols (productions g)) as Hrest.
  { intros sym Hsym. apply Hs. by right. }
  destruct (is_nonterminal B) eqn:HB; simpl; [|by apply IH].
  pose proof Hi as (_ & _ & Hk1 & Hk2).
  destruct (follow_step_total A B rest c g) as (c1 & g1 & Hstep & Hi1); [done..| | |].
  - by apply Hk1.
  - apply Hk2; [|done]. apply Hs. left.
  - rewrite Hstep. simpl.
    apply follow_step_spec in Hstep as [Hg%follow_grows_productions _].
    apply IH; [done | by rewrite Hg | by rewrite Hg].
Qed.

Lemma follow_rhss_total A rhss : ∀ c g,
  inv g →
  (∀ rhs sym, rhs ∈ rhss → sym ∈ rhs → sym ∈ body_symbols (productions g)) →
  A ∈ dict_keys (productions g) →
  ∃ c' g', follow_rhss fuel A rhss c g = Ok (c', g') ∧ inv g'.
Proof.
  induction rhss as [|rhs rhss IH]; intros c g Hi Hs HA; simpl; [eauto|].
  destruct (follow_symbols_total A rhs c g) as (c1 & g1 & Hsym & Hi1); [done| |done|].
  { intros sym. apply Hs. left. }
  rewrite Hsym. simpl.
  apply follow_symbols_spec in Hsym as [Hg%follow_grows_productions _].
  apply IH; [done | | by rewrite Hg].
  rewrite Hg. intros r sym Hr. apply Hs. by right.
Qed.

Lemma follow_items_total items : ∀ c g,
  inv g → items ⊆ productions g →
  ∃ c' g', follow_items fuel items c g = Ok (c', g') ∧ inv g'.
Proof.
  induction items as [|[A rhss] items IH]; intros c g Hi Hs; simpl; [eauto|].
  assert ((A, rhss) ∈ productions g) as HA by (apply Hs; left).
  destruct (follow_rhss_total A rhss c g) as (c1 & g1 & Hr & Hi1); [done| | |].
  - intros rhs sym ??. by eapply elem_of_body_symbols.
  - apply list_elem_of_fmap. by exists (A, rhss).
  - rewrite Hr. simpl.
    apply follow_rhss_spec in Hr as [Hg%follow_grows_productions _].
    apply IH; [done|]. rewrite Hg. intros x Hx. apply Hs. by right.
Qed.

Lemma follow_pass_total g :
  inv g → ∃ c' g', follow_pass fuel g = Ok (c', g') ∧ inv g'.
Proof. intros. by apply follow_items_total. Qed.

(** Each pass that reports a change has added a member to a FOLLOW set,
    and the sets stay within [V]: after at most
    [size (dom _follow_cache) * size V + 1] passes one reports none. *)
Lemma follow_while_total k : ∀ passes g,
  inv g →
  size (dom (_follow_cache g)) * size V < follow_weight g + k →
  k ≤ passes →
  ∃ g', follow_while passes fuel g = Ok g' ∧ inv g'.
Proof.
  induction k as [|k IH]; intros passes g Hi Hk Hp.
  - pose proof (follow_weight_bound V g) as Hw.
    destruct Hi as (_ & (_ & _ & _ & _ & H3) & _). specialize (Hw H3). lia.
  - destruct passes as [|passes]; [lia|]. simpl.
    destruct (follow_pass_total g Hi) as (c & g1 & Hpass & Hi1).
    rewrite Hpass. simpl.
    apply follow_pass_spec in Hpass as [Hg Hf].
    destruct c; [|eauto].
    simpl in Hf. apply IH; [done| |lia].
    destruct Hg as (_ & -> & _). lia.
Qed.

End FollowTotal.

Section FollowAll.
Context {py : PyStr}.

Lemma structurally_valid_spec g :
  structurally_valid g = true →
  start g ∈ dict_keys (productions g) ∧
  ∀ sym, sym ∈ body_symbols (productions g) → is_nonterminal sym = true →
         sym ∈ dict_keys (productions g).
Proof.
  unfold structurally_valid. intros [Hs Hb]%andb_prop.
  split; [by apply bool_decide_eq_true in Hs|].
  intros sym Hsym Hnt. unfold body_symbols in Hsym.
  rewrite elem_of_list_to_set in Hsym.
  rewrite forallb_forall in Hb. apply list_elem_of_In, Hb in Hsym.
  rewrite Hnt in Hsym. simpl in Hsym. by apply bool_decide_eq_true in Hsym.
Qed.

(** What a returning call of [follow_all] has done. *)
Lemma follow_all_spec fuel g m g' :
  follow_all fuel g = Ok (m, g') →
  m = _follow_cache g' ∧ productions g' = productions g ∧ start g' = start g ∧
  (∃ s, m !! start g = Some s ∧ EOI ∈ s) ∧
  (∀ A, A ∈ dict_keys (productions g) → A ∈ dom m) ∧
  (∀ X s, _follow_cache g !! X = Some s → ∃ s', m !! X = Some s' ∧ s ⊆ s') ∧
  ∃ g1, follow_pass fuel g1 = Ok (false, g') ∧ _follow_cache g1 = m.
Proof.
  unfold follow_all. intros H.
  pose proof (follow_setdefault_keys (dict_keys (productions g)) g)
    as (Hp & Hst & Hf & Hr & Hm & Hd & Hn).
  simpl in *. set (g1 := foldl follow_setdefault g (dict_keys (productions g))) in *.
  destruct (_follow_cache g1 !! start g1) as [s|] eqn:Hs; [|done].
  apply bind_Ok in H as (g3 & Hw & H). injection H as <- <-.
  apply follow_while_spec in Hw as ((Hc & Hd3 & Hm3) & g2 & Hg2 & Hpass & He).
  simpl in *. destruct Hc as (Hp3 & Hs3 & _). simpl in *.
  split; [done|]. split; [congruence|]. split; [congruence|]. split; [|split; [|split]].
  - destruct (Hm3 (start g1) (s ∪ {[EOI]})) as (s' & Hs' & Hsub).
    { apply lookup_insert_eq. }
    rewrite <- Hst. exists s'. split; [done | set_solver].
  - intros A HA. rewrite Hd3, dom_insert_L, Hd. set_solver.
  - intros X t Ht. eapply lookup_weaken in Ht; [|exact Hm].
    destruct (decide (X = start g1)) as [->|Hne].
    + destruct (Hm3 (start g1) (s ∪ {[EOI]})) as (s' & Hs' & Hsub).
      { apply lookup_insert_eq. }
      exists s'. split; [done|]. assert (t = s) as -> by congruence. set_solver.
    + apply (Hm3 X t). by rewrite lookup_insert_ne.
  - exists g2. split; [done | by symmetry].
Qed.

(** With enough fuel [follow_all] returns on a structurally valid
    grammar, whatever the caches hold. *)
Lemma follow_all_total g :
  structurally_valid g = true →
  let U := body_symbols (productions g) in
  let K := dom (_follow_cache g) ∪ list_to_set (dict_keys (productions g)) in
  ∀ fuel, size U + size K * size (universe g) + 1 ≤ fuel →
  ∃ m g', follow_all fuel g = Ok (m, g') ∧
          follow_inv U (universe g) fuel g'.
Proof.
  intros [Hstart Hbody]%structurally_valid_spec U K fuel Hfuel.
  unfold follow_all.
  pose proof (follow_setdefault_keys (dict_keys (productions g)) g)
    as (Hp & Hst & Hf & Hr & Hm & Hd & Hn).
  simpl in *. set (g1 := foldl follow_setdefault g (dict_keys (productions g))) in *.
  assert (is_Some (_follow_cache g1 !! start g1)) as [s Hs].
  { apply elem_of_dom. rewrite Hd, Hst. set_solver. }
  rewrite Hs.
  pose proof (bounded_universe g) as (Hb0 & Hb1 & Hb2 & Hb3 & Hb4).
  assert (EOI ∈ universe g) as Heoi by (unfold universe; set_solver).
  assert (s ⊆ universe g) as HsV.
  { apply Hn in Hs as [Hs| ->]; [by apply (Hb4 (start g1)) | set_solver]. }
  set (g2 := set_follow_cache (start g1) (s ∪ {[EOI]}) g1).
  assert (dom (_follow_cache g2) = K) as Hd2.
  { simpl. rewrite dom_insert_L, Hd. subst K. apply elem_of_dom_2 in Hs.
    rewrite Hd in Hs. set_solver. }
  assert (follow_inv U (universe g) fuel g2) as Hinv.
  { split; [|split; [|split]].
    - split; simpl; [by rewrite Hp|].
      assert (slack U g2 ≤ size U); [|lia].
      unfold slack. apply subseteq_size. set_solver.
    - repeat split; simpl; try done.
      + by rewrite Hp.
      + by rewrite Hf.
      + by rewrite Hr.
      + apply map_Forall_insert_2; [set_solver|].
        intros X t [Ht| ->]%Hn; [by apply (Hb4 X) | set_solver].
    - intros A HA. rewrite Hd2. simpl in HA. rewrite Hp in HA. set_solver.
    - intros sym Hsym Hnt. rewrite Hd2. simpl in Hsym. rewrite Hp in Hsym.
      specialize (Hbody sym Hsym Hnt). set_solver. }
  destruct (follow_while_total U (universe g) fuel
              (size K * size (universe g) + 1) fuel g2)
    as (g3 & Hw & Hinv3); [done | rewrite Hd2; lia | lia |].
  rewrite Hw. simpl. eauto.
Qed.

End FollowAll.

(** ** Production keys *)

Lemma no_space_append a b : no_space (a +:+ b) = no_space a && no_space b.
Proof.
  induction a as [|c a IH]; simpl; [done|]. rewrite IH. by rewrite andb_assoc.
Qed.

Lemma append_space_inj a a' r r' :
  no_space a = true → no_space a' = true →
  a +:+ String " "%char r = a' +:+ String " "%char r' → a = a' ∧ r = r'.
Proof.
  revert a'. induction a as [|c a IH]; intros [|c' a'] Ha Ha' H; simpl in *.
  - by injection H as ->.
  - injection H as <- _. done.
  - injection H as -> _. done.
  - injection H as -> H. apply andb_prop in Ha as [_ Ha], Ha' as [_ Ha'].
    destruct (IH a' Ha Ha' H) as [-> ->]. done.
Qed.

Lemma str_join_cons sep x y l :
  str_join sep (x :: y :: l) = x +:+ sep +:+ str_join sep (y :: l).
Proof. done. Qed.

Lemma str_join_space_inj l : ∀ l',
  Forall (λ x, no_space x = true) l → Forall (λ x, no_space x = true) l' →
  l ≠ [] → l' ≠ [] → str_join " " l = str_join " " l' → l = l'.
Proof.
  induction l as [|x l IH]; intros [|x' l'] Hl Hl' Hn Hn' H; try done.
  apply Forall_cons in Hl as [Hx Hl], Hl' as [Hx' Hl'].
  destruct l as [|y l], l' as [|y' l'].
  - simpl in H. by subst.
  - rewrite str_join_cons in H. simpl in H. subst x.
    rewrite no_space_append in Hx. simpl in Hx.
    by rewrite andb_false_r in Hx.
  - rewrite str_join_cons in H. simpl in H. subst x'.
    rewrite no_space_append in Hx'. simpl in Hx'.
    by rewrite andb_false_r in Hx'.
  - rewrite !str_join_cons in H.
    apply (append_space_inj x x') in H as [-> H]; [|done..].
    f_equal. by apply IH.
Qed.

Lemma str_join_shown_body rhs :
  (if negb (length rhs =? 0) then str_join " " rhs else EPS)
  = str_join " " (shown_body rhs).
Proof. by destruct rhs. Qed.

Section Keys.
Context {py : PyStr}.

Lemma production_key_inj A rhs A' rhs' :
  no_space A = true → no_space A' = true →
  Forall (λ x, no_space x = true) rhs → Forall (λ x, no_space x = true) rhs' →
  production_key A rhs = production_key A' rhs' →
  A = A' ∧ shown_body rhs = shown_body rhs'.
Proof.
  intros HA HA' Hr Hr' H. unfold production_key in H.
  rewrite !str_join_shown_body in H.
  apply (append_space_inj A A') in H as [-> H]; [|done..].
  split; [done|]. injection H as H.
  apply str_join_space_inj; [| |by destruct rhs|by destruct rhs'|done].
  - destruct rhs; [by repeat constructor | done].
  - destruct rhs'; [by repeat constructor | done].
Qed.
End Keys.

(** ** [prediction_sets] *)

Lemma without_eps_difference (s : gset string) : without_eps s = s ∖ {[EPS]}.
Proof.
  apply set_eq. intros x. rewrite without_eps_spec. set_solver.
Qed.


Lemma flat_productions_cons A rhss items :
  flat_productions ((A, rhss) :: items) = (pair A <$> rhss) ++ flat_productions items.
Proof. done. Qed.

Section Prediction.
Context {py : PyStr}.
Variable g0 : Grammar.
Variable follow : gmap string (gset string).

Lemma pred_done_step done preds g A rhs F g1 fA :
  is_production g0 A rhs →
  first_ext g g1 → _first_rhs_cache g1 !! rhs = Some F →
  (EPS ∈ F → follow !! A = Some fA) →
  pred_done g0 follow done preds g →
  pred_done g0 follow (done ++ [(A, rhs)])
    (<[production_key A rhs :=
         if bool_decide (EPS ∈ F) then without_eps F ∪ fA else without_eps F]> preds) g1.
Proof.
  intros Hprod [(_ & _ & _ & Hrc) _] HF HfA Hdone A0 r0 Hin Huniq.
  assert (preds_new : (if bool_decide (EPS ∈ F) then without_eps F ∪ fA
                       else without_eps F) = predict_rule follow A F).
  { unfold predict_rule. rewrite without_eps_difference.
    case_bool_decide as He.
    - rewrite decide_True by done. by rewrite (HfA He).
    - rewrite decide_False by done. by rewrite union_empty_r_L. }
  rewrite preds_new.
  destruct (decide (production_key A rhs = production_key A0 r0)) as [Hk|Hk].
  - unfold key_unique in Huniq. rewrite Forall_forall in Huniq.
    specialize (Huniq (A, rhs) Hprod Hk). injection Huniq as -> ->.
    exists F. split; [done|]. apply lookup_insert_eq.
  - apply elem_of_app in Hin as [Hin|Hin].
    + destruct (Hdone A0 r0 Hin Huniq) as (F0 & HF0 & Hp).
      exists F0. split; [by eapply lookup_weaken|].
      by rewrite lookup_insert_ne.
    + apply list_elem_of_singleton in Hin as [= -> ->]. done.
Qed.

Lemma pred_done_ext done preds g g' :
  first_ext g g' → pred_done g0 follow done preds g →
  pred_done g0 follow done preds g'.
Proof.
  intros [(_ & _ & _ & Hrc) _] Hdone A rhs Hin Huniq.
  destruct (Hdone A rhs Hin Huniq) as (F & HF & Hp).
  exists F. split; [by eapply lookup_weaken | done].
Qed.

Lemma prediction_rhss_spec fuel A rhss : ∀ done preds g preds' g',
  (∀ rhs, rhs ∈ rhss → is_production g0 A rhs) →
  pred_done g0 follow done preds g →
  prediction_rhss fuel follow A rhss preds g = Ok (preds', g') →
  first_ext g g' ∧ pred_done g0 follow (done ++ (pair A <$> rhss)) preds' g'.
Proof.
  induction rhss as [|rhs rhss IH]; intros done preds g preds' g' Hprod Hdone H;
    simpl in H.
  - injection H as <- <-. rewrite app_nil_r. split; [apply first_ext_refl | done].
  - apply bind_Ok in H as ([F g1] & Hf & H).
    apply first_of_rhs_spec in Hf as [Hext HF].
    apply bind_Ok in H as (pred & Hpred & H).
    apply (IH (done ++ [(A, rhs)])) in H as [Hext' Hdone'].
    + split; [by eapply first_ext_trans|].
      by rewrite fmap_cons, cons_middle, app_assoc.
    + intros r Hr. apply Hprod. by right.
    + assert (is_production g0 A rhs) as HA by (apply Hprod; left).
      case_bool_decide as He.
      * destruct (follow !! A) as [fA|] eqn:EA; [|done]. injection Hpred as <-.
        pose proof (pred_done_step done preds g A rhs F g1 fA HA Hext HF) as Hs.
        rewrite bool_decide_eq_true_2 in Hs by done. by apply Hs.
      * injection Hpred as <-.
        pose proof (pred_done_step done preds g A rhs F g1 ∅ HA Hext HF) as Hs.
        rewrite bool_decide_eq_false_2 in Hs by done. by apply Hs.
Qed.

Lemma prediction_items_spec fuel items : ∀ done preds g preds' g',
  (∀ A rhs, (A, rhs) ∈ flat_productions items → is_production g0 A rhs) →
  pred_done g0 follow done preds g →
  prediction_items fuel follow items preds g = Ok (preds', g') →
  first_ext g g' ∧ pred_done g0 follow (done ++ flat_productions items) preds' g'.
Proof.
  induction items as [|[A rhss] items IH]; intros done preds g preds' g' Hprod Hdone H;
    simpl in H.
  - injection H as <- <-. rewrite app_nil_r. split; [apply first_ext_refl | done].
  - apply bind_Ok in H as ([preds1 g1] & Hr & H).
    rewrite flat_productions_cons in Hprod.
    apply (prediction_rhss_spec _ _ _ done) in Hr as [Hext Hdone1]; [| |done].
    2:{ intros rhs Hr'. apply Hprod, elem_of_app. left.
        apply list_elem_of_fmap. eauto. }
    apply (IH (done ++ (pair A <$> rhss))) in H as [Hext' Hdone']; [| |done].
    2:{ intros A' rhs' Hin. apply Hprod, elem_of_app. by right. }
    split; [by eapply first_ext_trans|].
    by rewrite flat_productions_cons, app_assoc.
Qed.

End Prediction.

Section PredictionSets.
Context {py : PyStr}.


Variable U : gset string.

Lemma prediction_rhss_total fuel follow A rhss : ∀ preds g,
  ready U fuel g → (∀ rhs sym, rhs ∈ rhss → sym ∈ rhs → sym ∈ U) →
  is_Some (follow !! A) →
  ∃ preds' g', prediction_rhss fuel follow A rhss preds g = Ok (preds', g') ∧
               ready U fuel g'.
Proof.
  induction rhss as [|rhs rhss IH]; intros preds g Hr HU [fA HA]; simpl; [eauto|].
  destruct (first_of_rhs_total U fuel rhs g) as (F & g1 & Hf); [|done|].
  { intros sym. apply HU. left. }
  rewrite Hf. simpl. apply first_of_rhs_spec in Hf as [[Hext _] _].
  rewrite HA. destruct (bool_decide (EPS ∈ F)); simpl.
  - apply IH; [by eapply ready_cache_ext| |by eexists].
    intros r sym Hin. apply HU. by right.
  - apply IH; [by eapply ready_cache_ext| |by eexists].
    intros r sym Hin. apply HU. by right.
Qed.

Lemma prediction_items_total fuel follow items : ∀ preds g,
  ready U fuel g →
  (∀ A rhss rhs sym, (A, rhss) ∈ items → rhs ∈ rhss → sym ∈ rhs → sym ∈ U) →
  (∀ A rhss, (A, rhss) ∈ items → is_Some (follow !! A)) →
  ∃ preds' g', prediction_items fuel follow items preds g = Ok (preds', g') ∧
               ready U fuel g'.
Proof.
  induction items as [|[A rhss] items IH]; intros preds g Hr HU HA; simpl; [eauto|].
  destruct (prediction_rhss_total fuel follow A rhss preds g)
    as (preds1 & g1 & Hrhss & Hr1); [done | | |].
  - intros rhs sym. apply (HU A rhss). left.
  - apply (HA A rhss). left.
  - rewrite Hrhss. simpl. apply IH; [done | |].
    + intros A' rhss' rhs sym Hin. apply (HU A' rhss'). by right.
    + intros A' rhss' Hin. apply (HA A' rhss'). by right.
Qed.

End PredictionSets.

(** With enough fuel [prediction_sets] returns on a structurally valid
    grammar, whatever the caches hold. *)
Lemma prediction_sets_total {py : PyStr} g :
  structurally_valid g = true →
  ∃ N, ∀ fuel, N ≤ fuel → ∃ preds g', prediction_sets fuel g = Ok (preds, g').
Proof.
  intros Hv. eexists. intros fuel Hfuel.
  destruct (follow_all_total g Hv fuel Hfuel) as (m & g1 & Hfo & (Hr & _ & Hk1 & _)).
  unfold prediction_sets. rewrite Hfo. simpl.
  apply follow_all_spec in Hfo as (-> & Hp & _).
  destruct (prediction_items_total (body_symbols (productions g)) fuel
              (_follow_cache g1) (productions g1) ∅ g1)
    as (preds & g' & H & _); [done | | | eauto].
  - rewrite Hp. intros A rhss rhs sym ???. by eapply elem_of_body_symbols.
  - intros A rhss Hin. apply elem_of_dom, Hk1.
    apply list_elem_of_fmap. by exists (A, rhss).
Qed.

(** ** [first_of_rhs] and the scan of the specification *)

Section Scan.
Context {py : PyStr}.

Section Bodies.
Variable first_rec : string → Grammar → res (gset string * Grammar).
Hypothesis first_rec_ext : ∀ X g r g',
  first_rec X g = Ok (r, g') → first_ext g g' ∧ _first_cache g' !! X = Some r.

Lemma first_of_rhs_scan_refines rhs : ∀ result g r g' gf,
  first_of_rhs_scan first_rec rhs result g = Ok (r, g') →
  _first_cache g' ⊆ _first_cache gf →
  r = result ∪ spec_scan (first_map gf) rhs.
Proof.
  induction rhs as [|sym rhs IH]; intros result g r g' gf H Hgf; simpl in H |- *.
  - by injection H as <- _.
  - destruct (is_nonterminal sym); simpl in H.
    2:{ by injection H as <- _. }
    apply bind_Ok in H as ([fs g1] & Hf & H).
    apply first_rec_ext in Hf as [_ Hfs].
    assert (_first_cache g1 ⊆ _first_cache g' → first_map gf sym = fs) as Hmap.
    { intros H1. unfold first_map.
      eapply lookup_weaken in Hfs; [|by etrans]. by rewrite Hfs. }
    destruct (decide (EPS ∈ fs)) as [He|He].
    + pose proof (first_of_rhs_scan_ext _ first_rec_ext _ _ _ _ _ H)
        as [(_ & _ & Hfc & _) _].
      rewrite (Hmap Hfc), decide_True by done.
      rewrite (IH _ _ _ _ gf H Hgf), without_eps_difference.
      by rewrite union_assoc_L.
    + injection H as <- <-.
      rewrite Hmap, decide_False, without_eps_difference by done.
      by rewrite union_empty_r_L.
Qed.
End Bodies.

(** A call that misses the per-sequence cache returns the scan of the
    specification over the FIRST sets the cache holds when it returns. *)
Lemma first_of_rhs_miss_scan fuel rhs g r g' :
  _first_rhs_cache g !! rhs = None →
  first_of_rhs fuel rhs g = Ok (r, g') →
  r = spec_scan (first_map g') rhs.
Proof.
  unfold first_of_rhs, first_of_rhs_body. intros -> H.
  destruct rhs as [|sym rhs]; simpl length in H; cbn [Nat.eqb] in H.
  - injection H as <- _. simpl. by rewrite union_empty_l_L.
  - apply bind_Ok in H as ([r1 g1] & Hs & H). injection H as <- <-.
    eapply (first_of_rhs_scan_refines _ (first_spec fuel)) in Hs; [|done].
    rewrite Hs, union_empty_l_L. done.
Qed.

(** A call that hits the per-sequence cache returns what the cache holds. *)
Lemma first_of_rhs_hit fuel rhs g s :
  _first_rhs_cache g !! rhs = Some s → first_of_rhs fuel rhs g = Ok (s, g).
Proof. unfold first_of_rhs, first_of_rhs_body. by intros ->. Qed.

Lemma first_hit fuel X g s :
  _first_cache g !! X = Some s → first fuel X g = Ok (s, g).
Proof. destruct fuel; simpl; by intros ->. Qed.

Lemma first_miss fuel X g :
  _first_cache g !! X = None →
  first (S fuel) X g =
    '(result, g) ← first_alternatives (first fuel) X
                     (dict_get X [] (productions g)) ∅ (set_first_cache X ∅ g);
    Ok (result, set_first_cache X result g).
Proof. simpl. by intros ->. Qed.

End Scan.

(** ** Invariants of the analyzer states *)

Lemma dict_lookup_None {V : Type} k (d : pydict V) :
  dict_lookup k d = None ↔ k ∉ dict_keys d.
Proof.
  unfold dict_keys. induction d as [|[k' v] d IH]; simpl.
  - split; [intros _ H; by apply elem_of_nil in H | done].
  - rewrite not_elem_of_cons. destruct (decide (k = k')) as [->|Hne].
    + split; [done | by intros [? _]].
    + rewrite IH. tauto.
Qed.

Section Lifting.
Context {py : PyStr}.
(** A property of the states that [first_of_rhs] and the updates of the
    FOLLOW cache preserve is preserved by [follow_all] and
    [prediction_sets]. *)
Variable P : Grammar → Prop.
Hypothesis P_first_of_rhs : ∀ fuel rhs g r g',
  first_of_rhs fuel rhs g = Ok (r, g') → P g → P g'.
Hypothesis P_set_follow_cache : ∀ X s g, P g → P (set_follow_cache X s g).

Lemma follow_step_preserves fuel A B rest c g c' g' :
  follow_step fuel A B rest c g = Ok (c', g') → P g → P g'.
Proof.
  unfold follow_step. intros H HP.
  apply bind_Ok in H as ([fr g1] & Hf & H). apply P_first_of_rhs in Hf; [|done].
  destruct (_follow_cache g1 !! B) as [before|]; [|done].
  apply bind_Ok in H as ([fB g2] & Hu & H). injection H as _ <-.
  destruct (bool_decide (EPS ∈ fr) || (length rest =? 0)).
  - destruct (_ !! A); [|done]. injection Hu as _ <-.
    by do 2 apply P_set_follow_cache.
  - injection Hu as _ <-. by apply P_set_follow_cache.
Qed.

Lemma follow_symbols_preserves fuel A symbols : ∀ c g c' g',
  follow_symbols fuel A symbols c g = Ok (c', g') → P g → P g'.
Proof.
  induction symbols as [|B rest IH]; intros c g c' g' H HP; simpl in H.
  - by injection H as _ <-.
  - destruct (negb (is_nonterminal B)); [by eapply IH|].
    apply bind_Ok in H as ([c1 g1] & Hs & H).
    eapply IH; [done|]. by eapply follow_step_preserves.
Qed.

Lemma follow_rhss_preserves fuel A rhss : ∀ c g c' g',
  follow_rhss fuel A rhss c g = Ok (c', g') → P g → P g'.
Proof.
  induction rhss as [|rhs rhss IH]; intros c g c' g' H HP; simpl in H.
  - by injection H as _ <-.
  - apply bind_Ok in H as ([c1 g1] & Hs & H).
    eapply IH; [done|]. by eapply follow_symbols_preserves.
Qed.

Lemma follow_items_preserves fuel items : ∀ c g c' g',
  follow_items fuel items c g = Ok (c', g') → P g → P g'.
Proof.
  induction items as [|[A rhss] items IH]; intros c g c' g' H HP; simpl in H.
  - by injection H as _ <-.
  - apply bind_Ok in H as ([c1 g1] & Hs & H).
    eapply IH; [done|]. by eapply follow_rhss_preserves.
Qed.

Lemma follow_while_preserves passes fuel : ∀ g g',
  follow_while passes fuel g = Ok g' → P g → P g'.
Proof.
  induction passes as [|passes IH]; intros g g' H HP; simpl in H; [done|].
  apply bind_Ok in H as ([c g1] & Hp & H).
  apply follow_items_preserves in Hp; [|done].
  destruct c; [by eapply IH | by injection H as <-].
Qed.

Lemma follow_all_preserves fuel g m g' :
  follow_all fuel g = Ok (m, g') → P g → P g'.
Proof.
  unfold follow_all. intros H HP.
  assert (∀ keys g, P g → P (foldl follow_setdefault g keys)) as Hkeys.
  { induction keys as [|k keys IH]; intros g1 H1; simpl; [done|].
    apply IH. unfold follow_setdefault.
    destruct (_follow_cache g1 !! k); [done | by apply P_set_follow_cache]. }
  specialize (Hkeys (dict_keys (productions g)) g HP).
  destruct (_follow_cache _ !! _); [|done].
  apply bind_Ok in H as (g3 & Hw & H). injection H as _ <-.
  eapply follow_while_preserves; [done|]. by apply P_set_follow_cache.
Qed.

Lemma prediction_rhss_preserves fuel follow A rhss : ∀ preds g preds' g',
  prediction_rhss fuel follow A rhss preds g = Ok (preds', g') → P g → P g'.
Proof.
  induction rhss as [|rhs rhss IH]; intros preds g preds' g' H HP; simpl in H.
  - by injection H as _ <-.
  - apply bind_Ok in H as ([F g1] & Hf & H).
    apply bind_Ok in H as (pred & _ & H).
    eapply IH; [done|]. by eapply P_first_of_rhs.
Qed.

Lemma prediction_items_preserves fuel follow items : ∀ preds g preds' g',
  prediction_items fuel follow items preds g = Ok (preds', g') → P g → P g'.
Proof.
  induction items as [|[A rhss] items IH]; intros preds g preds' g' H HP; simpl in H.
  - by injection H as _ <-.
  - apply bind_Ok in H as ([preds1 g1] & Hr & H).
    eapply IH; [done|]. by eapply prediction_rhss_preserves.
Qed.

Lemma prediction_sets_preserves fuel g preds g' :
  prediction_sets fuel g = Ok (preds, g') → P g → P g'.
Proof.
  unfold prediction_sets. intros H HP.
  apply bind_Ok in H as ([m g1] & Hfo & H).
  eapply prediction_items_preserves; [done|]. by eapply follow_all_preserves.
Qed.

End Lifting.

Section NoProductions.
Context {py : PyStr}.

Lemma no_productions_empty_set_key X s g :
  is_Some (dict_lookup X (productions g)) →
  no_productions_empty g → no_productions_empty (set_first_cache X s g).
Proof.
  intros [v Hv] Hg Y t. simpl. destruct (decide (X = Y)) as [->|Hne].
  - congruence.
  - rewrite lookup_insert_ne by done. apply Hg.
Qed.

Lemma no_productions_empty_set_empty X g :
  no_productions_empty g → no_productions_empty (set_first_cache X ∅ g).
Proof.
  intros Hg Y t. simpl. destruct (decide (X = Y)) as [->|Hne].
  - rewrite lookup_insert_eq. congruence.
  - rewrite lookup_insert_ne by done. apply Hg.
Qed.

Section Bodies.
Variable first_rec : string → Grammar → res (gset string * Grammar).
Hypothesis first_rec_ext : ∀ X g r g',
  first_rec X g = Ok (r, g') → first_ext g g' ∧ _first_cache g' !! X = Some r.
Hypothesis first_rec_inv : ∀ X g r g',
  first_rec X g = Ok (r, g') → no_productions_empty g → no_productions_empty g'.

Lemma first_of_rhs_scan_inv rhs : ∀ result g r g',
  first_of_rhs_scan first_rec rhs result g = Ok (r, g') →
  no_productions_empty g → no_productions_empty g'.
Proof.
  induction rhs as [|sym rhs IH]; intros result g r g' H Hg; simpl in H.
  - by injection H as _ <-.
  - destruct (negb (is_nonterminal sym)); [by injection H as _ <-|].
    apply bind_Ok in H as ([fs g1] & Hf & H).
    apply first_rec_inv in Hf; [|done].
    destruct (decide (EPS ∈ fs)); [by eapply IH | by injection H as _ <-].
Qed.

Lemma first_of_rhs_body_inv rhs g r g' :
  first_of_rhs_body first_rec rhs g = Ok (r, g') →
  no_productions_empty g → no_productions_empty g'.
Proof.
  unfold first_of_rhs_body. intros H Hg.
  destruct (_first_rhs_cache g !! rhs); [by injection H as _ <-|].
  destruct (length rhs =? 0); [by injection H as _ <-|].
  apply bind_Ok in H as ([r1 g1] & Hs & H). injection H as _ <-.
  by apply first_of_rhs_scan_inv in Hs.
Qed.

Lemma first_alternatives_inv X alphas : ∀ result g r g',
  is_Some (dict_lookup X (productions g)) →
  first_alternatives first_rec X alphas result g = Ok (r, g') →
  no_productions_empty g → no_productions_empty g'.
Proof.
  induction alphas as [|alpha alphas IH]; intros result g r g' HX H Hg; simpl in H.
  - by injection H as _ <-.
  - apply bind_Ok in H as ([fa g1] & Hb & H).
    pose proof (first_of_rhs_body_ext _ first_rec_ext _ _ _ _ Hb)
      as [[(Hp & _) _] _].
    apply first_of_rhs_body_inv in Hb; [|done].
    eapply IH in H; [done | simpl; by rewrite Hp|].
    apply no_productions_empty_set_key; [by rewrite Hp | done].
Qed.
End Bodies.

Lemma first_inv fuel : ∀ X g r g',
  first fuel X g = Ok (r, g') → no_productions_empty g → no_productions_empty g'.
Proof.
  induction fuel as [|fuel IH]; intros X g r g' H Hg; simpl in H.
  - destruct (_first_cache g !! X); [by injection H as _ <- | done].
  - destruct (_first_cache g !! X) eqn:Hc; [by injection H as _ <-|].
    apply bind_Ok in H as ([r1 g1] & Ha & H). injection H as _ <-.
    unfold dict_get in Ha. simpl in Ha.
    destruct (dict_lookup X (productions g)) as [alphas|] eqn:HX.
    + pose proof (first_alternatives_ext _ (first_spec fuel) X g _ _ _ _ _ Hc
        (first_ext_set_first_cache g g X ∅ Hc (first_ext_refl g))
        (lookup_insert_eq _ _ _) Ha) as [[(Hp & _) _] _].
      apply first_alternatives_inv in Ha; [| apply first_spec | exact IH | |].
      * apply no_productions_empty_set_key; [by rewrite Hp, HX | done].
      * simpl. by rewrite HX.
      * by apply no_productions_empty_set_empty.
    + simpl in Ha. injection Ha as <- <-.
      by do 2 apply no_productions_empty_set_empty.
Qed.

Lemma first_of_rhs_inv fuel rhs g r g' :
  first_of_rhs fuel rhs g = Ok (r, g') →
  no_productions_empty g → no_productions_empty g'.
Proof. apply first_of_rhs_body_inv, first_inv. Qed.

(** Every state of an analyzer satisfies the invariant. *)
Lemma reachable_no_productions_empty g : reachable g → no_productions_empty g.
Proof.
  induction 1 as [prods st g Hi|fuel X g r g' _ IH H|fuel rhs g r g' _ IH H
                 |fuel g m g' _ IH H|fuel g preds g' _ IH H].
  - injection Hi as <-. intros X s. simpl. by rewrite lookup_empty.
  - by eapply first_inv.
  - by eapply first_of_rhs_inv.
  - eapply (follow_all_preserves no_productions_empty); [| |done..].
    + apply @first_of_rhs_inv.
    + done.
  - eapply (prediction_sets_preserves no_productions_empty); [| |done..].
    + apply @first_of_rhs_inv.
    + done.
Qed.

End NoProductions.

(** ** More fuel changes no result *)

Lemma bind_Ok_intro {A B : Type} (m : res A) (f : A → res B) a :
  m = Ok a → m ≫= f = f a.
Proof. by intros ->. Qed.

Section FuelMono.
Context {py : PyStr}.

Section Bodies.
Variables first1 first2 : string → Grammar → res (gset string * Grammar).
Hypothesis first12 : ∀ X g r, first1 X g = Ok r → first2 X g = Ok r.

Lemma first_of_rhs_scan_mono rhs : ∀ result g r,
  first_of_rhs_scan first1 rhs result g = Ok r →
  first_of_rhs_scan first2 rhs result g = Ok r.
Proof.
  induction rhs as [|sym rhs IH]; intros result g r H; simpl in *; [done|].
  destruct (negb (is_nonterminal sym)); [done|].
  apply bind_Ok in H as ([fs g1] & Hf & H).
  rewrite (bind_Ok_intro _ _ _ (first12 _ _ _ Hf)).
  destruct (decide (EPS ∈ fs)); [by apply IH | done].
Qed.

Lemma first_of_rhs_body_mono rhs g r :
  first_of_rhs_body first1 rhs g = Ok r → first_of_rhs_body first2 rhs g = Ok r.
Proof.
  unfold first_of_rhs_body. intros H.
  destruct (_first_rhs_cache g !! rhs); [done|].
  destruct (length rhs =? 0); [done|].
  apply bind_Ok in H as ([r1 g1] & Hs & H).
  by rewrite (bind_Ok_intro _ _ _ (first_of_rhs_scan_mono _ _ _ _ Hs)).
Qed.

Lemma first_alternatives_mono X alphas : ∀ result g r,
  first_alternatives first1 X alphas result g = Ok r →
  first_alternatives first2 X alphas result g = Ok r.
Proof.
  induction alphas as [|alpha alphas IH]; intros result g r H; simpl in *; [done|].
  apply bind_Ok in H as ([fa g1] & Hb & H).
  rewrite (bind_Ok_intro _ _ _ (first_of_rhs_body_mono _ _ _ Hb)).
  by apply IH.
Qed.
End Bodies.

Lemma first_fuel_mono n : ∀ m X g r,
  n ≤ m → first n X g = Ok r → first m X g = Ok r.
Proof.
  induction n as [|n IH]; intros m X g r Hnm H.
  - simpl in H. destruct (_first_cache g !! X) eqn:Hc; [|done].
    injection H as <-. by apply first_hit.
  - destruct m as [|m]; [lia|]. simpl in *.
    destruct (_first_cache g !! X); [done|].
    apply bind_Ok in H as ([r1 g1] & Ha & H).
    rewrite (bind_Ok_intro _ _ (r1, g1)); [done|].
    eapply first_alternatives_mono; [|exact Ha].
    intros Y g2 r2. apply IH. lia.
Qed.

Lemma first_of_rhs_fuel_mono n m rhs g r :
  n ≤ m → first_of_rhs n rhs g = Ok r → first_of_rhs m rhs g = Ok r.
Proof.
  intros Hnm. apply first_of_rhs_body_mono. intros X g1 r1.
  by apply first_fuel_mono.
Qed.

Lemma follow_step_fuel_mono n m A B rest c g r :
  n ≤ m → follow_step n A B rest c g = Ok r → follow_step m A B rest c g = Ok r.
Proof.
  unfold follow_step. intros Hnm H.
  apply bind_Ok in H as ([fr g1] & Hf & H).
  by rewrite (bind_Ok_intro _ _ _ (first_of_rhs_fuel_mono _ _ _ _ _ Hnm Hf)).
Qed.

Lemma follow_symbols_fuel_mono n m A symbols : ∀ c g r,
  n ≤ m → follow_symbols n A symbols c g = Ok r →
  follow_symbols m A symbols c g = Ok r.
Proof.
  induction symbols as [|B rest IH]; intros c g r Hnm H; simpl in *; [done|].
  destruct (negb (is_nonterminal B)); [by apply IH|].
  apply bind_Ok in H as ([c1 g1] & Hs & H).
  rewrite (bind_Ok_intro _ _ _ (follow_step_fuel_mono _ _ _ _ _ _ _ _ Hnm Hs)).
  by apply IH.
Qed.

Lemma follow_rhss_fuel_mono n m A rhss : ∀ c g r,
  n ≤ m → follow_rhss n A rhss c g = Ok r → follow_rhss m A rhss c g = Ok r.
Proof.
  induction rhss as [|rhs rhss IH]; intros c g r Hnm H; simpl in *; [done|].
  apply bind_Ok in H as ([c1 g1] & Hs & H).
  rewrite (bind_Ok_intro _ _ _ (follow_symbols_fuel_mono _ _ _ _ _ _ _ Hnm Hs)).
  by apply IH.
Qed.

Lemma follow_items_fuel_mono n m items : ∀ c g r,
  n ≤ m → follow_items n items c g = Ok r → follow_items m items c g = Ok r.
Proof.
  induction items as [|[A rhss] items IH]; intros c g r Hnm H; simpl in *; [done|].
  apply bind_Ok in H as ([c1 g1] & Hs & H).
  rewrite (bind_Ok_intro _ _ _ (follow_rhss_fuel_mono _ _ _ _ _ _ _ Hnm Hs)).
  by apply IH.
Qed.

Lemma follow_while_fuel_mono passes : ∀ passes' n m g r,
  passes ≤ passes' → n ≤ m →
  follow_while passes n g = Ok r → follow_while passes' m g = Ok r.
Proof.
  induction passes as [|passes IH]; intros passes' n m g r Hp Hnm H; [done|].
  destruct passes' as [|passes']; [lia|]. simpl in *.
  apply bind_Ok in H as ([c g1] & Hs & H). unfold follow_pass in *.
  rewrite (bind_Ok_intro _ _ _ (follow_items_fuel_mono _ _ _ _ _ _ Hnm Hs)).
  destruct c; [|done]. eapply IH; [| |done]; lia.
Qed.

Lemma follow_all_fuel_mono n m g r :
  n ≤ m → follow_all n g = Ok r → follow_all m g = Ok r.
Proof.
  unfold follow_all. intros Hnm H.
  destruct (_follow_cache _ !! _); [|done].
  apply bind_Ok in H as (g3 & Hw & H).
  by rewrite (bind_Ok_intro _ _ _ (follow_while_fuel_mono _ _ _ _ _ _ Hnm Hnm Hw)).
Qed.

Lemma prediction_rhss_fuel_mono n m follow A rhss : ∀ preds g r,
  n ≤ m → prediction_rhss n follow A rhss preds g = Ok r →
  prediction_rhss m follow A rhss preds g = Ok r.
Proof.
  induction rhss as [|rhs rhss IH]; intros preds g r Hnm H; simpl in *; [done|].
  apply bind_Ok in H as ([F g1] & Hf & H).
  rewrite (bind_Ok_intro _ _ _ (first_of_rhs_fuel_mono _ _ _ _ _ Hnm Hf)).
  apply bind_Ok in H as (pred & Hpred & H). rewrite Hpred. simpl.
  by apply IH.
Qed.

Lemma prediction_items_fuel_mono n m follow items : ∀ preds g r,
  n ≤ m → prediction_items n follow items preds g = Ok r →
  prediction_items m follow items preds g = Ok r.
Proof.
  induction items as [|[A rhss] items IH]; intros preds g r Hnm H; simpl in *; [done|].
  apply bind_Ok in H as ([preds1 g1] & Hs & H).
  rewrite (bind_Ok_intro _ _ _ (prediction_rhss_fuel_mono _ _ _ _ _ _ _ _ Hnm Hs)).
  by apply IH.
Qed.

Lemma prediction_sets_fuel_mono n m g r :
  n ≤ m → prediction_sets n g = Ok r → prediction_sets m g = Ok r.
Proof.
  unfold prediction_sets. intros Hnm H.
  apply bind_Ok in H as ([fo g1] & Hf & H).
  rewrite (bind_Ok_intro _ _ _ (follow_all_fuel_mono _ _ _ _ Hnm Hf)).
  by apply prediction_items_fuel_mono with n.
Qed.

End FuelMono.

(** ** The classifier matters on the symbols of the bodies only *)

Section ClassifierAgree.
Variables py1 py2 : PyStr.
Variable U : gset string.
Hypothesis agree : ∀ sym, sym ∈ U →
  @is_nonterminal py1 sym = @is_nonterminal py2 sym.

Section Bodies.
Variables first1 first2 : string → Grammar → res (gset string * Grammar).
Hypothesis first12 : ∀ X g,
  body_symbols (productions g) ⊆ U → first1 X g = first2 X g.
Hypothesis first1_ext : ∀ X g r g',
  first1 X g = Ok (r, g') → first_ext g g' ∧ _first_cache g' !! X = Some r.

Lemma first_of_rhs_scan_agree rhs : ∀ result g,
  (∀ sym, sym ∈ rhs → sym ∈ U) → body_symbols (productions g) ⊆ U →
  @first_of_rhs_scan py1 first1 rhs result g
  = @first_of_rhs_scan py2 first2 rhs result g.
Proof.
  induction rhs as [|sym rhs IH]; intros result g HU Hg; simpl; [done|].
  rewrite (agree sym) by (apply HU; left).
  destruct (negb (is_nonterminal sym)); [done|].
  rewrite <- (first12 sym g Hg).
  destruct (first1 sym g) as [[fs g1]| | |] eqn:Hf; simpl; [|done..].
  destruct (decide (EPS ∈ fs)); [|done].
  apply IH; [intros s Hs; apply HU; by right|].
  apply first1_ext in Hf as [[(-> & _) _] _]. done.
Qed.

Lemma first_of_rhs_body_agree rhs g :
  (∀ sym, sym ∈ rhs → sym ∈ U) → body_symbols (productions g) ⊆ U →
  @first_of_rhs_body py1 first1 rhs g = @first_of_rhs_body py2 first2 rhs g.
Proof.
  intros HU Hg. unfold first_of_rhs_body.
  by rewrite (first_of_rhs_scan_agree rhs ∅ g HU Hg).
Qed.

Lemma first_alternatives_agree X alphas : ∀ result g,
  (∀ alpha sym, alpha ∈ alphas → sym ∈ alpha → sym ∈ U) →
  body_symbols (productions g) ⊆ U →
  @first_alternatives py1 first1 X alphas result g
  = @first_alternatives py2 first2 X alphas result g.
Proof.
  induction alphas as [|alpha alphas IH]; intros result g HU Hg; simpl; [done|].
  rewrite <- (first_of_rhs_body_agree alpha g);
    [|intros sym; apply HU; left|done].
  destruct (first_of_rhs_body first1 alpha g) as [[fa g1]| | |] eqn:Hb; simpl; [|done..].
  apply IH; [intros a s Ha; apply HU; by right|].
  apply (@first_of_rhs_body_ext py1 _ first1_ext) in Hb as [[(Hp & _) _] _].
  simpl. by rewrite Hp.
Qed.
End Bodies.

Lemma first_agree fuel : ∀ X g,
  body_symbols (productions g) ⊆ U → @first py1 fuel X g = @first py2 fuel X g.
Proof.
  induction fuel as [|fuel IH]; intros X g Hg; simpl; [done|].
  destruct (_first_cache g !! X); [done|].
  rewrite (first_alternatives_agree (@first py1 fuel) (@first py2 fuel) IH
             (@first_spec py1 fuel)); [done| |done].
  intros alpha sym Ha Hs. apply Hg. by eapply dict_get_symbols.
Qed.

Lemma first_of_rhs_agree fuel rhs g :
  (∀ sym, sym ∈ rhs → sym ∈ U) → body_symbols (productions g) ⊆ U →
  @first_of_rhs py1 fuel rhs g = @first_of_rhs py2 fuel rhs g.
Proof.
  apply first_of_rhs_body_agree; [apply first_agree | apply first_spec].
Qed.

End ClassifierAgree.

(** ** The cached FIRST sets that do not depend on the grammar *)

Section RhsCache.
Context {py : PyStr}.

Lemma rhs_cache_ok_set_first_cache X s g :
  rhs_cache_ok g → rhs_cache_ok (set_first_cache X s g).
Proof. done. Qed.

Lemma rhs_cache_ok_set_follow_cache X s g :
  rhs_cache_ok g → rhs_cache_ok (set_follow_cache X s g).
Proof. done. Qed.

Section Bodies.
Variable first_rec : string → Grammar → res (gset string * Grammar).
Hypothesis first_rec_ok : ∀ X g r g',
  first_rec X g = Ok (r, g') → rhs_cache_ok g → rhs_cache_ok g'.

Lemma first_of_rhs_scan_rhs_cache rhs : ∀ result g r g',
  first_of_rhs_scan first_rec rhs result g = Ok (r, g') →
  rhs_cache_ok g → rhs_cache_ok g'.
Proof.
  induction rhs as [|sym rhs IH]; intros result g r g' H Hg; simpl in H.
  - by injection H as _ <-.
  - destruct (negb (is_nonterminal sym)); [by injection H as _ <-|].
    apply bind_Ok in H as ([fs g1] & Hf & H).
    apply first_rec_ok in Hf; [|done].
    destruct (decide (EPS ∈ fs)); [by eapply IH | by injection H as _ <-].
Qed.

Lemma first_of_rhs_body_rhs_cache rhs g r g' :
  first_of_rhs_body first_rec rhs g = Ok (r, g') →
  rhs_cache_ok g → rhs_cache_ok g'.
Proof.
  unfold first_of_rhs_body. intros H Hg.
  destruct (_first_rhs_cache g !! rhs) eqn:Hc; [by injection H as _ <-|].
  assert (∀ r1 g1, rhs_cache_ok g1 →
            match rhs with
            | [] => r1 = {[EPS]}
            | sym :: _ => is_nonterminal sym = false → r1 = {[sym]}
            end → rhs_cache_ok (set_first_rhs_cache rhs r1 g1)) as Hset.
  { intros r1 g1 Hg1 Hr1 rhs' s. simpl.
    destruct (decide (rhs = rhs')) as [<-|Hne].
    - rewrite lookup_insert_eq. by intros [= <-].
    - rewrite lookup_insert_ne by done. apply Hg1. }
  destruct rhs as [|sym rhs]; simpl in H.
  - injection H as <- <-. apply Hset; [done|]. by rewrite union_empty_l_L.
  - destruct (negb (is_nonterminal sym)) eqn:Hnt; simpl in H.
    + injection H as <- <-. apply Hset; [done|]. intros _.
      by rewrite union_empty_l_L.
    + apply bind_Ok in H as ([r1 g1] & Hs & H). injection H as <- <-.
      apply bind_Ok in Hs as ([fs g2] & Hf & Hs).
      apply first_rec_ok in Hf; [|done].
      apply Hset.
      * destruct (decide (EPS ∈ fs)); [|by injection Hs as _ <-].
        by eapply first_of_rhs_scan_rhs_cache.
      * intros Hsym. by rewrite Hsym in Hnt.
Qed.

Lemma first_alternatives_rhs_cache X alphas : ∀ result g r g',
  first_alternatives first_rec X alphas result g = Ok (r, g') →
  rhs_cache_ok g → rhs_cache_ok g'.
Proof.
  induction alphas as [|alpha alphas IH]; intros result g r g' H Hg; simpl in H.
  - by injection H as _ <-.
  - apply bind_Ok in H as ([fa g1] & Hb & H).
    apply first_of_rhs_body_rhs_cache in Hb; [|done]. by eapply IH.
Qed.
End Bodies.

Lemma first_rhs_cache fuel : ∀ X g r g',
  first fuel X g = Ok (r, g') → rhs_cache_ok g → rhs_cache_ok g'.
Proof.
  induction fuel as [|fuel IH]; intros X g r g' H Hg; simpl in H.
  - destruct (_first_cache g !! X); [by injection H as _ <- | done].
  - destruct (_first_cache g !! X); [by injection H as _ <-|].
    apply bind_Ok in H as ([r1 g1] & Ha & H). injection H as _ <-.
    by apply (first_alternatives_rhs_cache _ IH) in Ha.
Qed.

Lemma first_of_rhs_rhs_cache fuel rhs g r g' :
  first_of_rhs fuel rhs g = Ok (r, g') → rhs_cache_ok g → rhs_cache_ok g'.
Proof. apply first_of_rhs_body_rhs_cache, first_rhs_cache. Qed.

Lemma reachable_rhs_cache_ok g : reachable g → rhs_cache_ok g.
Proof.
  induction 1 as [prods st g Hi|fuel X g r g' _ IH H|fuel rhs g r g' _ IH H
                 |fuel g m g' _ IH H|fuel g preds g' _ IH H].
  - injection Hi as <-. intros rhs s. simpl. by rewrite lookup_empty.
  - by eapply first_rhs_cache.
  - by eapply first_of_rhs_rhs_cache.
  - eapply (follow_all_preserves rhs_cache_ok); [| |done..].
    + apply @first_of_rhs_rhs_cache.
    + done.
  - eapply (prediction_sets_preserves rhs_cache_ok); [| |done..].
    + apply @first_of_rhs_rhs_cache.
    + done.
Qed.

(** What [first_of_rhs] returns for the empty sequence and for a sequence
    that begins with a terminal, in a state that satisfies the invariant. *)
Lemma first_of_rhs_fixed fuel rhs g :
  rhs_cache_ok g →
  match rhs with
  | [] => ∃ g', first_of_rhs fuel rhs g = Ok ({[EPS]}, g')
  | sym :: _ => is_nonterminal sym = false →
                ∃ g', first_of_rhs fuel rhs g = Ok ({[sym]}, g')
  end.
Proof.
  intros Hg. unfold first_of_rhs, first_of_rhs_body.
  destruct (_first_rhs_cache g !! rhs) as [s|] eqn:Hc.
  - specialize (Hg rhs s Hc). destruct rhs as [|sym rhs].
    + subst s. eauto.
    + intros Hsym. rewrite (Hg Hsym). eauto.
  - destruct rhs as [|sym rhs]; simpl.
    + rewrite union_empty_l_L. eauto.
    + intros ->. simpl. rewrite union_empty_l_L. eauto.
Qed.

End RhsCache.

(** ** The entries of [prediction_sets] by key *)

Section PredictionEntries.
Context {py : PyStr}.
Variable follow : gmap string (gset string).




End PredictionEntries.




(** On a grammar whose heads and symbols hold no space, every key stands
    for its production as the key shows it. *)
Lemma space_free_key_faithful g A rhs :
  space_free g → is_production g A rhs → key_faithful g A rhs.
Proof.
  unfold space_free, key_faithful, is_production. rewrite !Forall_forall.
  intros Hfree Hprod [A' rhs'] Hin Hk. simpl in *.
  destruct (Hfree _ Hprod) as [HA Hrhs]. destruct (Hfree _ Hin) as [HA' Hrhs'].
  simpl in *. by apply production_key_inj.
Qed.

(** ** The methods under a recursion limit *)

(** A result returned under a recursion limit is the result on a stack
    without limit. *)
Section LimitedSound.
Context {py : PyStr}.

Lemma is_nonterminal_limited_Ok limit sym nt :
  is_nonterminal_limited limit sym = Ok nt → 1 ≤ limit ∧ nt = is_nonterminal sym.
Proof. destruct limit; [done|]. simpl. intros [= <-]. split; [lia | done]. Qed.

Lemma is_nonterminal_limited_S limit sym :
  is_nonterminal_limited (S limit) sym = Ok (is_nonterminal sym).
Proof. done. Qed.

Section Bodies.
Variables first1 first2 : string → Grammar → res (gset string * Grammar).
Variable limit : nat.
Hypothesis first12 : ∀ X g r, first1 X g = Ok r → first2 X g = Ok r.

Lemma first_of_rhs_scan_limited_sound rhs : ∀ result g r,
  first_of_rhs_scan_limited first1 limit rhs result g = Ok r →
  first_of_rhs_scan first2 rhs result g = Ok r.
Proof.
  induction rhs as [|sym rhs IH]; intros result g r H; simpl in *; [done|].
  apply bind_Ok in H as (nt & [_ ->]%is_nonterminal_limited_Ok & H).
  destruct (negb (is_nonterminal sym)); [done|].
  apply bind_Ok in H as ([fs g1] & Hf & H).
  rewrite (bind_Ok_intro _ _ _ (first12 _ _ _ Hf)).
  destruct (decide (EPS ∈ fs)); [by apply IH | done].
Qed.

Lemma first_of_rhs_body_limited_sound rhs g r :
  first_of_rhs_body_limited first1 limit rhs g = Ok r →
  first_of_rhs_body first2 rhs g = Ok r.
Proof.
  unfold first_of_rhs_body_limited, first_of_rhs_body. intros H.
  destruct (_first_rhs_cache g !! rhs); [done|].
  destruct (length rhs =? 0); [done|].
  apply bind_Ok in H as ([r1 g1] & Hs & H).
  by rewrite (bind_Ok_intro _ _ _ (first_of_rhs_scan_limited_sound _ _ _ _ Hs)).
Qed.
End Bodies.

Lemma first_alternatives_limited_sound first_of_rhs_rec first2 X alphas :
  (∀ alpha g r, first_of_rhs_rec alpha g = Ok r →
                first_of_rhs_body first2 alpha g = Ok r) →
  ∀ result g r,
  first_alternatives_limited first_of_rhs_rec X alphas result g = Ok r →
  first_alternatives first2 X alphas result g = Ok r.
Proof.
  intros Hrec.
  induction alphas as [|alpha alphas IH]; intros result g r H; simpl in *; [done|].
  apply bind_Ok in H as ([fa g1] & Hb & H).
  rewrite (bind_Ok_intro _ _ _ (Hrec _ _ _ Hb)).
  by apply IH.
Qed.

Lemma first_limited_sound limit : ∀ fuel X g r,
  limit ≤ fuel → first_limited limit X g = Ok r → first fuel X g = Ok r.
Proof.
  induction limit as [limit IH] using lt_wf_ind. intros fuel X g r Hle H.
  destruct limit as [|limit1]; [done|]. simpl in H.
  destruct (_first_cache g !! X) as [c|] eqn:Hc.
  - injection H as <-. by apply first_hit.
  - destruct fuel as [|fuel]; [lia|]. rewrite first_miss by done.
    apply bind_Ok in H as ([r1 g1] & Ha & H).
    rewrite (bind_Ok_intro _ _ (r1, g1)); [done|].
    eapply first_alternatives_limited_sound; [|exact Ha].
    intros alpha g2 r2 Hb. destruct limit1 as [|limit2]; [done|].
    eapply first_of_rhs_body_limited_sound; [|exact Hb].
    intros Y g3 r3. apply IH; lia.
Qed.

Lemma first_of_rhs_limited_sound limit fuel rhs g r :
  limit ≤ fuel → first_of_rhs_limited limit rhs g = Ok r →
  first_of_rhs fuel rhs g = Ok r.
Proof.
  intros Hle H. destruct limit as [|limit1]; [done|].
  eapply first_of_rhs_body_limited_sound; [|exact H].
  intros X g1 r1. apply first_limited_sound. lia.
Qed.

Lemma derives_epsilon_limited_sound limit fuel rhs g r :
  limit ≤ fuel → derives_epsilon_limited limit rhs g = Ok r →
  derives_epsilon fuel rhs g = Ok r.
Proof.
  intros Hle H. destruct limit as [|limit1]; [done|]. simpl in H.
  apply bind_Ok in H as ([s g1] & Hf & H). unfold derives_epsilon.
  rewrite (bind_Ok_intro _ _ (s, g1)); [done|].
  eapply first_of_rhs_limited_sound; [|exact Hf]. lia.
Qed.

Lemma follow_step_limited_sound limit fuel A B rest c g r :
  limit ≤ fuel → follow_step_limited limit A B rest c g = Ok r →
  follow_step fuel A B rest c g = Ok r.
Proof.
  unfold follow_step_limited, follow_step. intros Hle H.
  apply bind_Ok in H as ([fr g1] & Hf & H).
  by rewrite (bind_Ok_intro _ _ _ (first_of_rhs_limited_sound _ _ _ _ _ Hle Hf)).
Qed.

Lemma follow_symbols_limited_sound limit fuel A symbols : ∀ c g r,
  limit ≤ fuel → follow_symbols_limited limit A symbols c g = Ok r →
  follow_symbols fuel A symbols c g = Ok r.
Proof.
  induction symbols as [|B rest IH]; intros c g r Hle H; simpl in *; [done|].
  apply bind_Ok in H as (nt & [_ ->]%is_nonterminal_limited_Ok & H).
  destruct (negb (is_nonterminal B)); [by apply IH|].
  apply bind_Ok in H as ([c1 g1] & Hs & H).
  rewrite (bind_Ok_intro _ _ _ (follow_step_limited_sound _ _ _ _ _ _ _ _ Hle Hs)).
  by apply IH.
Qed.

Lemma follow_rhss_limited_sound limit fuel A rhss : ∀ c g r,
  limit ≤ fuel → follow_rhss_limited limit A rhss c g = Ok r →
  follow_rhss fuel A rhss c g = Ok r.
Proof.
  induction rhss as [|rhs rhss IH]; intros c g r Hle H; simpl in *; [done|].
  apply bind_Ok in H as ([c1 g1] & Hs & H).
  rewrite (bind_Ok_intro _ _ _ (follow_symbols_limited_sound _ _ _ _ _ _ _ Hle Hs)).
  by apply IH.
Qed.

Lemma follow_items_limited_sound limit fuel items : ∀ c g r,
  limit ≤ fuel → follow_items_limited limit items c g = Ok r →
  follow_items fuel items c g = Ok r.
Proof.
  induction items as [|[A rhss] items IH]; intros c g r Hle H; simpl in *; [done|].
  apply bind_Ok in H as ([c1 g1] & Hs & H).
  rewrite (bind_Ok_intro _ _ _ (follow_rhss_limited_sound _ _ _ _ _ _ _ Hle Hs)).
  by apply IH.
Qed.

Lemma follow_while_limited_sound passes : ∀ passes' limit fuel g r,
  passes ≤ passes' → limit ≤ fuel →
  follow_while_limited passes limit g = Ok r → follow_while passes' fuel g = Ok r.
Proof.
  induction passes as [|passes IH]; intros passes' limit fuel g r Hp Hle H; [done|].
  destruct passes' as [|passes']; [lia|]. simpl in *.
  apply bind_Ok in H as ([c g1] & Hs & H). unfold follow_pass_limited, follow_pass in *.
  rewrite (bind_Ok_intro _ _ _ (follow_items_limited_sound _ _ _ _ _ _ Hle Hs)).
  destruct c; [|done]. eapply IH; [| |done]; lia.
Qed.

Lemma follow_all_limited_sound passes limit fuel g r :
  passes ≤ fuel → limit ≤ fuel →
  follow_all_limited passes limit g = Ok r → follow_all fuel g = Ok r.
Proof.
  unfold follow_all_limited, follow_all. intros Hp Hle H.
  destruct limit as [|limit1]; [done|].
  destruct (_follow_cache _ !! _); [|done].
  apply bind_Ok in H as (g3 & Hw & H).
  rewrite (bind_Ok_intro _ _ g3); [done|].
  eapply follow_while_limited_sound; [| |exact Hw]; lia.
Qed.

Lemma prediction_rhss_limited_sound limit fuel follow A rhss : ∀ preds g r,
  limit ≤ fuel → prediction_rhss_limited limit follow A rhss preds g = Ok r →
  prediction_rhss fuel follow A rhss preds g = Ok r.
Proof.
  induction rhss as [|rhs rhss IH]; intros preds g r Hle H; simpl in *; [done|].
  apply bind_Ok in H as ([F g1] & Hf & H).
  rewrite (bind_Ok_intro _ _ _ (first_of_rhs_limited_sound _ _ _ _ _ Hle Hf)).
  apply bind_Ok in H as (pred & Hpred & H). rewrite Hpred. simpl.
  by apply IH.
Qed.

Lemma prediction_items_limited_sound limit fuel follow items : ∀ preds g r,
  limit ≤ fuel → prediction_items_limited limit follow items preds g = Ok r →
  prediction_items fuel follow items preds g = Ok r.
Proof.
  induction items as [|[A rhss] items IH]; intros preds g r Hle H; simpl in *; [done|].
  apply bind_Ok in H as ([preds1 g1] & Hs & H).
  rewrite (bind_Ok_intro _ _ _ (prediction_rhss_limited_sound _ _ _ _ _ _ _ _ Hle Hs)).
  by apply IH.
Qed.

Lemma prediction_sets_limited_sound passes limit fuel g r :
  passes ≤ fuel → limit ≤ fuel →
  prediction_sets_limited passes limit g = Ok r → prediction_sets fuel g = Ok r.
Proof.
  unfold prediction_sets_limited, prediction_sets. intros Hp Hle H.
  destruct limit as [|limit1]; [done|].
  apply bind_Ok in H as ([fo g1] & Hf & H).
  rewrite (bind_Ok_intro _ _ (fo, g1)).
  - eapply prediction_items_limited_sound; [|exact H]. lia.
  - eapply follow_all_limited_sound; [| |exact Hf]; lia.
Qed.

End LimitedSound.

(** With frames enough for the depth the call reaches, the outcome under
    the limit is the outcome without: [fuel] bounds the nesting of the
    calls of [first] that miss the cache, and each of them takes two
    frames, one for [first] and one for [first_of_rhs]. *)
Section LimitedComplete.
Context {py : PyStr}.

#[local] Abbreviation agrees u l := (u = OutOfFuel ∨ l = u).

Lemma agrees_bind {A B : Type} (u l : res A) (f f' : A → res B) :
  agrees u l → (∀ a, agrees (f a) (f' a)) → agrees (u ≫= f) (l ≫= f').
Proof.
  intros [->| ->] Hf; [by left|].
  destruct u as [a| | |]; simpl; [apply Hf | by right | by right | by left].
Qed.

Lemma agrees_Ok {A : Type} (u l : res A) a : agrees u l → u = Ok a → l = Ok a.
Proof. intros [->| ->]; [done | done]. Qed.

Lemma agrees_KeyError {A : Type} (u l : res A) k :
  agrees u l → u = KeyError k → l = KeyError k.
Proof. intros [->| ->]; [done | done]. Qed.

Section Bodies.
Variables first1 first2 : string → Grammar → res (gset string * Grammar).
Variable limit : nat.
Hypothesis limit_pos : 1 ≤ limit.
Hypothesis first12 : ∀ X g, agrees (first1 X g) (first2 X g).

Lemma first_of_rhs_scan_limited_complete rhs : ∀ result g,
  agrees (first_of_rhs_scan first1 rhs result g)
         (first_of_rhs_scan_limited first2 limit rhs result g).
Proof.
  induction rhs as [|sym rhs IH]; intros result g; simpl; [by right|].
  destruct limit as [|limit1]; [lia|]. rewrite is_nonterminal_limited_S. simpl.
  destruct (negb (is_nonterminal sym)); [by right|].
  apply agrees_bind; [done|]. intros [fs g1].
  destruct (decide (EPS ∈ fs)); [apply IH | by right].
Qed.

Lemma first_of_rhs_body_limited_complete rhs g :
  agrees (first_of_rhs_body first1 rhs g)
         (first_of_rhs_body_limited first2 limit rhs g).
Proof.
  unfold first_of_rhs_body_limited, first_of_rhs_body.
  destruct (_first_rhs_cache g !! rhs); [by right|].
  destruct (length rhs =? 0); [by right|].
  apply agrees_bind; [apply first_of_rhs_scan_limited_complete|].
  intros [r1 g1]. by right.
Qed.
End Bodies.

Lemma first_alternatives_limited_complete first1 first_of_rhs_rec X alphas :
  (∀ alpha g, agrees (first_of_rhs_body first1 alpha g) (first_of_rhs_rec alpha g)) →
  ∀ result g,
  agrees (first_alternatives first1 X alphas result g)
         (first_alternatives_limited first_of_rhs_rec X alphas result g).
Proof.
  intros Hrec.
  induction alphas as [|alpha alphas IH]; intros result g; simpl; [by right|].
  apply agrees_bind; [done|]. intros [fa g1]. apply IH.
Qed.

Lemma first_limited_complete fuel : ∀ limit X g,
  2 * fuel + 1 ≤ limit → agrees (first fuel X g) (first_limited limit X g).
Proof.
  induction fuel as [|fuel IH]; intros limit X g Hle.
  - destruct limit as [|limit1]; [lia|]. simpl.
    destruct (_first_cache g !! X); [by right | by left].
  - destruct limit as [|[|limit2]]; [lia..|]. simpl.
    destruct (_first_cache g !! X); [by right|].
    apply agrees_bind; [|intros [r1 g1]; by right].
    apply first_alternatives_limited_complete. intros alpha g1.
    apply first_of_rhs_body_limited_complete; [lia|].
    intros Y g2. apply IH. lia.
Qed.

Lemma first_of_rhs_limited_complete fuel limit rhs g :
  2 * fuel + 2 ≤ limit →
  agrees (first_of_rhs fuel rhs g) (first_of_rhs_limited limit rhs g).
Proof.
  intros Hle. destruct limit as [|limit1]; [lia|].
  apply first_of_rhs_body_limited_complete; [lia|].
  intros X g1. apply first_limited_complete. lia.
Qed.


Lemma follow_step_limited_complete fuel limit A B rest c g :
  2 * fuel + 2 ≤ limit →
  agrees (follow_step fuel A B rest c g) (follow_step_limited limit A B rest c g).
Proof.
  intros Hle. apply agrees_bind; [by apply first_of_rhs_limited_complete|].
  intros [fr g1]. by right.
Qed.

Lemma follow_symbols_limited_complete fuel limit A symbols : ∀ c g,
  2 * fuel + 2 ≤ limit →
  agrees (follow_symbols fuel A symbols c g)
         (follow_symbols_limited limit A symbols c g).
Proof.
  induction symbols as [|B rest IH]; intros c g Hle; simpl; [by right|].
  destruct limit as [|limit1] eqn:El; [lia|]. rewrite is_nonterminal_limited_S. simpl.
  rewrite <- El in *.
  destruct (negb (is_nonterminal B)); [by apply IH|].
  apply agrees_bind; [by apply follow_step_limited_complete|].
  intros [c1 g1]. by apply IH.
Qed.

Lemma follow_rhss_limited_complete fuel limit A rhss : ∀ c g,
  2 * fuel + 2 ≤ limit →
  agrees (follow_rhss fuel A rhss c g) (follow_rhss_limited limit A rhss c g).
Proof.
  induction rhss as [|rhs rhss IH]; intros c g Hle; simpl; [by right|].
  apply agrees_bind; [by apply follow_symbols_limited_complete|].
  intros [c1 g1]. by apply IH.
Qed.

Lemma follow_items_limited_complete fuel limit items : ∀ c g,
  2 * fuel + 2 ≤ limit →
  agrees (follow_items fuel items c g) (follow_items_limited limit items c g).
Proof.
  induction items as [|[A rhss] items IH]; intros c g Hle; simpl; [by right|].
  apply agrees_bind; [by apply follow_rhss_limited_complete|].
  intros [c1 g1]. by apply IH.
Qed.

Lemma follow_pass_limited_complete fuel limit g :
  2 * fuel + 2 ≤ limit →
  agrees (follow_pass fuel g) (follow_pass_limited limit g).
Proof. apply follow_items_limited_complete. Qed.

Lemma follow_while_limited_complete passes fuel limit : ∀ g,
  2 * fuel + 2 ≤ limit →
  agrees (follow_while passes fuel g) (follow_while_limited passes limit g).
Proof.
  induction passes as [|passes IH]; intros g Hle; simpl; [by left|].
  apply agrees_bind; [by apply follow_pass_limited_complete|].
  intros [[] g1]; [by apply IH | by right].
Qed.



End LimitedComplete.

(** More frames change no outcome other than [RecursionError]. *)
Section LimitedMono.
Context {py : PyStr}.

#[local] Abbreviation stable u l := (u = RecursionError ∨ l = u).

Lemma stable_bind {A B : Type} (u l : res A) (f f' : A → res B) :
  stable u l → (∀ a, stable (f a) (f' a)) → stable (u ≫= f) (l ≫= f').
Proof.
  intros [->| ->] Hf; [by left|].
  destruct u as [a| | |]; simpl; [apply Hf | by right | by left | by right].
Qed.

Lemma is_nonterminal_limited_mono limit limit' sym :
  limit ≤ limit' →
  stable (is_nonterminal_limited limit sym) (is_nonterminal_limited limit' sym).
Proof.
  intros Hle. destruct limit as [|limit1]; [by left|].
  destruct limit' as [|limit1']; [lia | by right].
Qed.

Section Bodies.
Variables first1 first2 : string → Grammar → res (gset string * Grammar).
Variables limit limit' : nat.
Hypothesis limit_le : limit ≤ limit'.
Hypothesis first12 : ∀ X g, stable (first1 X g) (first2 X g).

Lemma first_of_rhs_scan_limited_mono rhs : ∀ result g,
  stable (first_of_rhs_scan_limited first1 limit rhs result g)
         (first_of_rhs_scan_limited first2 limit' rhs result g).
Proof.
  induction rhs as [|sym rhs IH]; intros result g; simpl; [by right|].
  apply stable_bind; [by apply is_nonterminal_limited_mono|]. intros nt.
  destruct (negb nt); [by right|].
  apply stable_bind; [done|]. intros [fs g1].
  destruct (decide (EPS ∈ fs)); [apply IH | by right].
Qed.

Lemma first_of_rhs_body_limited_mono rhs g :
  stable (first_of_rhs_body_limited first1 limit rhs g)
         (first_of_rhs_body_limited first2 limit' rhs g).
Proof.
  unfold first_of_rhs_body_limited.
  destruct (_first_rhs_cache g !! rhs); [by right|].
  destruct (length rhs =? 0); [by right|].
  apply stable_bind; [apply first_of_rhs_scan_limited_mono|].
  intros [r1 g1]. by right.
Qed.
End Bodies.

Lemma first_alternatives_limited_mono rec1 rec2 X alphas :
  (∀ alpha g, stable (rec1 alpha g) (rec2 alpha g)) →
  ∀ result g,
  stable (first_alternatives_limited rec1 X alphas result g)
         (first_alternatives_limited rec2 X alphas result g).
Proof.
  intros Hrec.
  induction alphas as [|alpha alphas IH]; intros result g; simpl; [by right|].
  apply stable_bind; [done|]. intros [fa g1]. apply IH.
Qed.

Lemma first_limited_mono limit : ∀ limit' X g,
  limit ≤ limit' → stable (first_limited limit X g) (first_limited limit' X g).
Proof.
  induction limit as [limit IH] using lt_wf_ind. intros limit' X g Hle.
  destruct limit as [|limit1]; [by left|].
  destruct limit' as [|limit1']; [lia|]. simpl.
  destruct (_first_cache g !! X); [by right|].
  apply stable_bind; [|intros [r1 g1]; by right].
  apply first_alternatives_limited_mono. intros alpha g1.
  destruct limit1 as [|limit2]; [by left|].
  destruct limit1' as [|limit2']; [lia|].
  apply first_of_rhs_body_limited_mono; [lia|].
  intros Y g2. apply IH; lia.
Qed.

Lemma first_of_rhs_limited_mono limit limit' rhs g :
  limit ≤ limit' →
  stable (first_of_rhs_limited limit rhs g) (first_of_rhs_limited limit' rhs g).
Proof.
  intros Hle. destruct limit as [|limit1]; [by left|].
  destruct limit' as [|limit1']; [lia|].
  apply first_of_rhs_body_limited_mono; [lia|].
  intros X g1. apply first_limited_mono. lia.
Qed.

Lemma derives_epsilon_limited_mono limit limit' rhs g :
  limit ≤ limit' →
  stable (derives_epsilon_limited limit rhs g)
         (derives_epsilon_limited limit' rhs g).
Proof.
  intros Hle. destruct limit as [|limit1]; [by left|].
  destruct limit' as [|limit1']; [lia|].
  apply stable_bind; [apply first_of_rhs_limited_mono; lia|].
  intros [s g1]. by right.
Qed.

Lemma follow_step_limited_mono limit limit' A B rest c g :
  limit ≤ limit' →
  stable (follow_step_limited limit A B rest c g)
         (follow_step_limited limit' A B rest c g).
Proof.
  intros Hle. apply stable_bind; [by apply first_of_rhs_limited_mono|].
  intros [fr g1]. by right.
Qed.

Lemma follow_symbols_limited_mono limit limit' A symbols : ∀ c g,
  limit ≤ limit' →
  stable (follow_symbols_limited limit A symbols c g)
         (follow_symbols_limited limit' A symbols c g).
Proof.
  induction symbols as [|B rest IH]; intros c g Hle; simpl; [by right|].
  apply stable_bind; [by apply is_nonterminal_limited_mono|]. intros nt.
  destruct (negb nt); [by apply IH|].
  apply stable_bind; [by apply follow_step_limited_mono|].
  intros [c1 g1]. by apply IH.
Qed.

Lemma follow_rhss_limited_mono limit limit' A rhss : ∀ c g,
  limit ≤ limit' →
  stable (follow_rhss_limited limit A rhss c g)
         (follow_rhss_limited limit' A rhss c g).
Proof.
  induction rhss as [|rhs rhss IH]; intros c g Hle; simpl; [by right|].
  apply stable_bind; [by apply follow_symbols_limited_mono|].
  intros [c1 g1]. by apply IH.
Qed.

Lemma follow_items_limited_mono limit limit' items : ∀ c g,
  limit ≤ limit' →
  stable (follow_items_limited limit items c g)
         (follow_items_limited limit' items c g).
Proof.
  induction items as [|[A rhss] items IH]; intros c g Hle; simpl; [by right|].
  apply stable_bind; [by apply follow_rhss_limited_mono|].
  intros [c1 g1]. by apply IH.
Qed.

Lemma follow_while_limited_mono passes limit limit' : ∀ g,
  limit ≤ limit' →
  stable (follow_while_limited passes limit g)
         (follow_while_limited passes limit' g).
Proof.
  induction passes as [|passes IH]; intros g Hle; simpl; [by right|].
  apply stable_bind; [by apply follow_items_limited_mono|].
  intros [[] g1]; [by apply IH | by right].
Qed.

Lemma follow_all_limited_mono passes limit limit' g :
  limit ≤ limit' →
  stable (follow_all_limited passes limit g) (follow_all_limited passes limit' g).
Proof.
  intros Hle. destruct limit as [|limit1]; [by left|].
  destruct limit' as [|limit1']; [lia|]. unfold follow_all_limited.
  destruct (_follow_cache _ !! _); [|by right].
  apply stable_bind; [apply follow_while_limited_mono; lia|].
  intros g3. by right.
Qed.

Lemma prediction_rhss_limited_mono limit limit' follow A rhss : ∀ preds g,
  limit ≤ limit' →
  stable (prediction_rhss_limited limit follow A rhss preds g)
         (prediction_rhss_limited limit' follow A rhss preds g).
Proof.
  induction rhss as [|rhs rhss IH]; intros preds g Hle; simpl; [by right|].
  apply stable_bind; [by apply first_of_rhs_limited_mono|].
  intros [F g1]. apply stable_bind; [by right|]. intros pred. by apply IH.
Qed.

Lemma prediction_items_limited_mono limit limit' follow items : ∀ preds g,
  limit ≤ limit' →
  stable (prediction_items_limited limit follow items preds g)
         (prediction_items_limited limit' follow items preds g).
Proof.
  induction items as [|[A rhss] items IH]; intros preds g Hle; simpl; [by right|].
  apply stable_bind; [by apply prediction_rhss_limited_mono|].
  intros [preds1 g1]. by apply IH.
Qed.

Lemma prediction_sets_limited_mono passes limit limit' g :
  limit ≤ limit' →
  stable (prediction_sets_limited passes limit g)
         (prediction_sets_limited passes limit' g).
Proof.
  intros Hle. destruct limit as [|limit1]; [by left|].
  destruct limit' as [|limit1']; [lia|].
  apply stable_bind; [apply follow_all_limited_mono; lia|].
  intros [fo g1]. apply prediction_items_limited_mono. lia.
Qed.


End LimitedMono.

(** ** Termination under a recursion limit *)

Section LimitedTotal.
Context {py : PyStr}.

(** The state in which the passes of [follow_all] begin. *)
Lemma follow_seed_ready g s fuel :
  let g1 := foldl follow_setdefault g (dict_keys (productions g)) in
  let g2 := set_follow_cache (start g1) (s ∪ {[EOI]}) g1 in
  _follow_cache g1 !! start g1 = Some s →
  size (body_symbols (productions g)) ≤ fuel →
  productions g2 = productions g ∧
  ready (body_symbols (productions g)) fuel g2 ∧ bounded (universe g) g2 ∧
  dom (_follow_cache g2)
  = dom (_follow_cache g) ∪ list_to_set (dict_keys (productions g)).
Proof.
  intros g1 g2 Hs Hfuel.
  pose proof (follow_setdefault_keys (dict_keys (productions g)) g)
    as (Hp & Hst & Hf & Hr & Hm & Hd & Hn).
  simpl in *. fold g1 in Hp, Hst, Hf, Hr, Hm, Hd, Hn.
  pose proof (bounded_universe g) as (Hb0 & Hb1 & Hb2 & Hb3 & Hb4).
  assert (EOI ∈ universe g) as Heoi by (unfold universe; set_solver).
  assert (s ⊆ universe g) as HsV.
  { apply Hn in Hs as [Hs| ->]; [by apply (Hb4 (start g1)) | set_solver]. }
  split; [done|]. split; [|split].
  - split; simpl; [by rewrite Hp|].
    assert (slack (body_symbols (productions g)) g2
            ≤ size (body_symbols (productions g))); [|lia].
    unfold slack. apply subseteq_size. set_solver.
  - repeat split; simpl; try done.
    + by rewrite Hp.
    + by rewrite Hf.
    + by rewrite Hr.
    + apply map_Forall_insert_2; [set_solver|].
      intros X t [Ht| ->]%Hn; [by apply (Hb4 X) | set_solver].
  - simpl. rewrite dom_insert_L, Hd. apply elem_of_dom_2 in Hs.
    rewrite Hd in Hs. set_solver.
Qed.






Lemma first_of_rhs_limited_total g rhs limit :
  2 * size (body_symbols (productions g) ∪ list_to_set rhs) + 2 ≤ limit →
  ∃ r g', first_of_rhs_limited limit rhs g = Ok (r, g').
Proof.
  intros Hlimit.
  destruct (first_of_rhs_total (body_symbols (productions g) ∪ list_to_set rhs)
              (size (body_symbols (productions g) ∪ list_to_set rhs)) rhs g)
    as (r & g' & H).
  - intros sym Hsym. set_solver.
  - split; [set_solver|]. unfold slack. apply subseteq_size. set_solver.
  - exists r, g'.
    by apply (agrees_Ok _ _ _ (first_of_rhs_limited_complete _ _ _ _ Hlimit)).
Qed.

End LimitedTotal.


(** * The claims *)

(** ** Construction *)

(** C7, as the code has it: [Grammar.__init__] validates nothing and never
    fails. For every productions mapping and every start symbol, a key or
    not, with dangling nonterminals or not, construction succeeds and
    yields the analyzer holding the two arguments and four empty caches. *)
Theorem construction_always_succeeds productions start :
  Grammar_init productions start = Ok (fresh productions start) ∧
  is_Ok (Grammar_init productions start) = true.
Proof. done. Qed.

(** C7 fails as stated: with the start symbol [T] absent from the keys and
    the nonterminal-shaped [Z] of the body of [S] absent too, construction
    succeeds. *)
Lemma construction_counterexample :
  is_Ok (Grammar_init dangling "T") = true ∧
  "T" ∉ dict_keys dangling ∧
  "Z" ∈ body_symbols dangling ∧ @is_nonterminal ascii_str "Z" = true ∧
  "Z" ∉ dict_keys dangling.
Proof. repeat split; by compute_done. Qed.

(** ** [first] *)

(** C3: on [S → S a | b], for every classifier that takes [S] for a
    nonterminal and [a], [b] for terminals, [first('S')] returns exactly
    [{b}]; one level of recursion is enough, since the nested call of
    [first('S')] finds the placeholder in the cache. *)
Theorem first_left_recursion {py : PyStr} (fuel : nat) :
  is_nonterminal "S" = true → is_nonterminal "a" = false →
  is_nonterminal "b" = false → 1 ≤ fuel →
  ∃ g', first fuel "S" (fresh left_recursive "S") = Ok ({["b"]}, g').
Proof.
  intros HS Ha Hb Hfuel.
  rewrite (first_agree py ascii_str {["S"; "a"; "b"]}).
  - eexists. apply (first_fuel_mono 1); [done|]. vm_compute. reflexivity.
  - intros sym Hsym.
    assert (sym = "S" ∨ sym = "a" ∨ sym = "b") as [->|[->| ->]] by set_solver.
    + by rewrite HS.
    + by rewrite Ha.
    + by rewrite Hb.
  - compute_done.
Qed.

Lemma first_left_recursion_witness :
  ∃ g', @first ascii_str 1 "S" (fresh left_recursive "S") = Ok ({["b"]}, g').
Proof. apply (@first_left_recursion ascii_str 1); [reflexivity.. | lia]. Defined.

(** C8, as the code has it: [first(X)] for a symbol [X] that is not a key
    of the productions mapping does not fail, in any state of the caches:
    it returns a set. *)
Theorem first_unknown_symbol_no_error {py : PyStr} fuel X g :
  X ∉ dict_keys (productions g) → 1 ≤ fuel →
  ∃ r g', first fuel X g = Ok (r, g').
Proof.
  intros HX%dict_lookup_None Hfuel.
  destruct (_first_cache g !! X) as [s|] eqn:Hc.
  - exists s, g. by apply first_hit.
  - destruct fuel as [|fuel]; [lia|]. rewrite first_miss by done.
    unfold dict_get. rewrite HX. simpl. eauto.
Qed.

Lemma first_unknown_symbol_no_error_witness :
  ∃ r g', @first ascii_str 1 "Z" (fresh left_recursive "S") = Ok (r, g').
Proof.
  apply (@first_unknown_symbol_no_error ascii_str 1 "Z" (fresh left_recursive "S"));
    [compute_done | lia].
Defined.

(** C8 fails as stated: [Z] is not a key of [S → S a | b], and [first('Z')]
    returns the empty set. *)
Lemma first_unknown_symbol_counterexample :
  "Z" ∉ dict_keys left_recursive ∧
  @first ascii_str 1 "Z" (fresh left_recursive "S")
  = Ok (∅, set_first_cache "Z" ∅ (set_first_cache "Z" ∅ (fresh left_recursive "S"))).
Proof. split; [compute_done | reflexivity]. Qed.

(** C10: in every state of an analyzer, [first(X)] for a symbol [X] that
    is not a key of the productions mapping returns the empty set, and the
    cache then holds the empty set for [X]. *)
Theorem first_unknown_symbol_empty {py : PyStr} fuel X g :
  reachable g → X ∉ dict_keys (productions g) → 1 ≤ fuel →
  ∃ g', first fuel X g = Ok (∅, g') ∧ _first_cache g' !! X = Some ∅.
Proof.
  intros Hg%reachable_no_productions_empty HX%dict_lookup_None Hfuel.
  destruct (_first_cache g !! X) as [s|] eqn:Hc.
  - assert (s = ∅) as -> by by eapply Hg.
    exists g. split; [by apply first_hit | done].
  - destruct fuel as [|fuel]; [lia|]. rewrite first_miss by done.
    unfold dict_get. rewrite HX. simpl. eexists. split; [done|].
    simpl. apply lookup_insert_eq.
Qed.

Lemma first_unknown_symbol_empty_witness :
  ∃ g', @first ascii_str 1 "Z" (fresh left_recursive "S") = Ok (∅, g') ∧
        _first_cache g' !! "Z" = Some ∅.
Proof.
  apply (@first_unknown_symbol_empty ascii_str 1 "Z" (fresh left_recursive "S")).
  - by apply (reach_init left_recursive "S").
  - compute_done.
  - lia.
Defined.

(** ** [first_of_rhs] *)

(** C2 at its failing input, [S → S a | b]. After [first('S')] has returned
    [{b}], [first_of_rhs(('S', 'a'))] returns the empty set, stored while
    [first('S')] was in progress, whereas the scan of the specification
    over the FIRST sets gives [{b}]; on a fresh analyzer the same call
    returns [{b}]. *)
Theorem first_of_rhs_stale_entry :
  match @first ascii_str 1 "S" (fresh left_recursive "S") with
  | Ok (first_S, g1) =>
      first_S = {["b"]} ∧
      match @first_of_rhs ascii_str 1 ["S"; "a"] g1 with
      | Ok (r, g2) =>
          r = ∅ ∧ @spec_scan ascii_str (first_map g2) ["S"; "a"] = {["b"]}
      | _ => False
      end
  | _ => False
  end ∧
  match @first_of_rhs ascii_str 1 ["S"; "a"] (fresh left_recursive "S") with
  | Ok (r, g2) => r = {["b"]}
  | _ => False
  end.
Proof. split; compute_done. Qed.

(** ** [follow_all] *)




(** C5: the mapping a call of [follow_all] returns has [$] in the entry of
    the start symbol. *)
Theorem follow_all_start_has_eoi {py : PyStr} fuel g m g' :
  follow_all fuel g = Ok (m, g') → ∃ s, m !! start g = Some s ∧ EOI ∈ s.
Proof. by intros (_ & _ & _ & H & _)%follow_all_spec. Qed.

Lemma follow_all_start_has_eoi_witness :
  ∃ m g', @follow_all ascii_str 3 (fresh scenario "S") = Ok (m, g') ∧
          ∃ s, m !! "S" = Some s ∧ EOI ∈ s.
Proof.
  destruct (is_Ok_inv (@follow_all ascii_str 3 (fresh scenario "S")))
    as [[m g'] H]; [vm_compute; reflexivity|].
  exists m, g'. split; [exact H|].
  exact (@follow_all_start_has_eoi ascii_str 3 (fresh scenario "S") m g' H).
Defined.

(** C6: a propagation step removes nothing: every FOLLOW set of the cache
    is, after the step, a superset of what it was before. *)
Theorem follow_step_monotone {py : PyStr} fuel A B rest changed g changed' g' :
  follow_step fuel A B rest changed g = Ok (changed', g') →
  ∀ X s, _follow_cache g !! X = Some s →
         ∃ s', _follow_cache g' !! X = Some s' ∧ s ⊆ s'.
Proof. by intros [(_ & _ & H) _]%follow_step_spec. Qed.

Lemma follow_step_monotone_witness :
  ∃ changed' g',
    @follow_step ascii_str 3 "S" "A" ["b"] false scenario_seeded = Ok (changed', g') ∧
    ∀ X s, _follow_cache scenario_seeded !! X = Some s →
           ∃ s', _follow_cache g' !! X = Some s' ∧ s ⊆ s'.
Proof.
  destruct (is_Ok_inv (@follow_step ascii_str 3 "S" "A" ["b"] false scenario_seeded))
    as [[changed' g'] H]; [vm_compute; reflexivity|].
  exists changed', g'. split; [exact H|].
  exact (@follow_step_monotone ascii_str 3 "S" "A" ["b"] false scenario_seeded
           changed' g' H).
Defined.

(** ** [prediction_sets] *)

(** C9, as the code has it: for heads and symbols without a space, two
    productions get the same key exactly when they have the same head and
    the same body, the empty body being the same as the body [['ε']]. *)
Theorem production_key_collision A rhs A' rhs' :
  no_space A = true → no_space A' = true →
  Forall (λ x, no_space x = true) rhs → Forall (λ x, no_space x = true) rhs' →
  production_key A rhs = production_key A' rhs' ↔
  A = A' ∧ shown_body rhs = shown_body rhs'.
Proof.
  intros HA HA' Hr Hr'. split; [by apply production_key_inj|].
  intros [-> Hs]. unfold production_key. by rewrite !str_join_shown_body, Hs.
Qed.

Lemma production_key_collision_witness :
  production_key "S" ["A"; "b"] = production_key "S" ["c"] ↔
  "S" = "S" ∧ shown_body ["A"; "b"] = shown_body ["c"].
Proof.
  apply production_key_collision; [reflexivity | reflexivity | |];
    repeat constructor.
Defined.

(** C9 fails as stated: the productions [A → []] and [A → ['ε']] differ
    and have the same key. *)
Lemma production_key_counterexample :
  ([] : list string) ≠ ["ε"] ∧ production_key "A" [] = production_key "A" ["ε"].
Proof. split; [discriminate | reflexivity]. Qed.





(** * Further properties of the analyzer *)

(** ** Memoised results are final *)

Lemma derives_epsilon_spec {py : PyStr} fuel rhs g b g' :
  derives_epsilon fuel rhs g = Ok (b, g') →
  ∃ s, first_of_rhs fuel rhs g = Ok (s, g') ∧ b = bool_decide (EPS ∈ s).
Proof.
  unfold derives_epsilon. intros ([s g1] & Hf & H)%bind_Ok.
  injection H as <- <-. eauto.
Qed.

Lemma set_follow_cache_id B s h :
  _follow_cache h !! B = Some s → set_follow_cache B s h = h.
Proof.
  intros H. destruct h as [p st fc rc nc fo]. unfold set_follow_cache. simpl in *.
  by rewrite insert_id.
Qed.

Lemma set_follow_cache_twice B s t h :
  set_follow_cache B s (set_follow_cache B t h) = set_follow_cache B s h.
Proof. unfold set_follow_cache. simpl. by rewrite insert_insert_eq. Qed.

Section Replay.
Context {py : PyStr}.

(** A step that reports no change has changed nothing in the FOLLOW
    cache, and runs again, with the same outcome, on every state that
    has its FIRST entries and its FOLLOW cache. *)
Lemma follow_step_replay fuel A B rest c g g' :
  follow_step fuel A B rest c g = Ok (false, g') →
  c = false ∧ _follow_cache g' = _follow_cache g ∧
  ∀ fuel2 c2 h, cache_ext g' h → _follow_cache h = _follow_cache g →
                follow_step fuel2 A B rest c2 h = Ok (c2, h).
Proof.
  unfold follow_step. intros H.
  apply bind_Ok in H as ([F g1] & Hf & H).
  apply first_of_rhs_spec in Hf as [[Hext Hfo] HF].
  destruct (_follow_cache g1 !! B) as [before|] eqn:HB; [|done].
  apply bind_Ok in H as ([fB g2] & Hu & H).
  injection H as Hflag <-.
  case_bool_decide as Hne; [done|]. subst fB c.
  assert (_first_rhs_cache g2 = _first_rhs_cache g1 ∧
          _follow_cache g2 = _follow_cache g1 ∧
          ∀ h, _follow_cache h = _follow_cache g1 →
               (if bool_decide (EPS ∈ F) || (length rest =? 0)
                then match <[B:=before ∪ without_eps F]> (_follow_cache g1) !! A with
                     | Some fA =>
                         Ok (before ∪ without_eps F ∪ fA,
                             set_follow_cache B (before ∪ without_eps F ∪ fA)
                               (set_follow_cache B (before ∪ without_eps F) h))
                     | None => KeyError A
                     end
                else Ok (before ∪ without_eps F,
                         set_follow_cache B (before ∪ without_eps F) h))
               = Ok (before, h)) as (Hrc & Hfo2 & Hh).
  { destruct (bool_decide (EPS ∈ F) || (length rest =? 0)).
    - simpl in Hu.
      destruct (<[B:=before ∪ without_eps F]> (_follow_cache g1) !! A)
        as [fA|] eqn:EA; [|done].
      injection Hu as Hb <-. split; [done|]. split.
      + simpl. rewrite insert_insert_eq, Hb. by apply insert_id.
      + intros h Hh. rewrite Hb. f_equal. f_equal.
        rewrite set_follow_cache_twice. apply set_follow_cache_id. by rewrite Hh.
    - injection Hu as Hb <-. split; [done|]. split.
      + simpl. rewrite Hb. by apply insert_id.
      + intros h Hh. rewrite Hb. f_equal. f_equal.
        apply set_follow_cache_id. by rewrite Hh. }
  split; [done|]. split; [congruence|].
  intros fuel2 c2 h (_ & _ & _ & Hrch) Hfoh.
  rewrite (first_of_rhs_hit fuel2 rest h F).
  2:{ eapply lookup_weaken; [|exact Hrch]. by rewrite Hrc. }
  simpl. rewrite Hfoh, <- Hfo, HB.
  rewrite Hh by congruence. simpl.
  by rewrite bool_decide_eq_false_2 by (intros Hx; by apply Hx).
Qed.

Lemma follow_symbols_replay fuel A symbols : ∀ c g g',
  follow_symbols fuel A symbols c g = Ok (false, g') →
  c = false ∧ _follow_cache g' = _follow_cache g ∧
  ∀ fuel2 c2 h, cache_ext g' h → _follow_cache h = _follow_cache g →
                follow_symbols fuel2 A symbols c2 h = Ok (c2, h).
Proof.
  induction symbols as [|B rest IH]; intros c g g' H; simpl in H.
  - by injection H as <- <-.
  - simpl. destruct (negb (is_nonterminal B)); [by apply IH|].
    apply bind_Ok in H as ([c1 g1] & Hs & H).
    pose proof (follow_symbols_spec _ _ _ _ _ _ _ H) as [(Hce & _) _].
    apply IH in H as (-> & Hfo1 & Hrep1).
    apply follow_step_replay in Hs as (-> & Hfo & Hrep).
    split; [done|]. split; [congruence|].
    intros fuel2 c2 h Hh Hfoh.
    rewrite (Hrep fuel2 c2 h); [|by eapply cache_ext_trans|done]. simpl.
    apply Hrep1; [done | congruence].
Qed.

Lemma follow_rhss_replay fuel A rhss : ∀ c g g',
  follow_rhss fuel A rhss c g = Ok (false, g') →
  c = false ∧ _follow_cache g' = _follow_cache g ∧
  ∀ fuel2 c2 h, cache_ext g' h → _follow_cache h = _follow_cache g →
                follow_rhss fuel2 A rhss c2 h = Ok (c2, h).
Proof.
  induction rhss as [|rhs rhss IH]; intros c g g' H; simpl in H.
  - by injection H as <- <-.
  - simpl. apply bind_Ok in H as ([c1 g1] & Hs & H).
    pose proof (follow_rhss_spec _ _ _ _ _ _ _ H) as [(Hce & _) _].
    apply IH in H as (-> & Hfo1 & Hrep1).
    apply follow_symbols_replay in Hs as (-> & Hfo & Hrep).
    split; [done|]. split; [congruence|].
    intros fuel2 c2 h Hh Hfoh.
    rewrite (Hrep fuel2 c2 h); [|by eapply cache_ext_trans|done]. simpl.
    apply Hrep1; [done | congruence].
Qed.

Lemma follow_items_replay fuel items : ∀ c g g',
  follow_items fuel items c g = Ok (false, g') →
  c = false ∧ _follow_cache g' = _follow_cache g ∧
  ∀ fuel2 c2 h, cache_ext g' h → _follow_cache h = _follow_cache g →
                follow_items fuel2 items c2 h = Ok (c2, h).
Proof.
  induction items as [|[A rhss] items IH]; intros c g g' H; simpl in H.
  - by injection H as <- <-.
  - simpl. apply bind_Ok in H as ([c1 g1] & Hs & H).
    pose proof (follow_items_spec _ _ _ _ _ _ H) as [(Hce & _) _].
    apply IH in H as (-> & Hfo1 & Hrep1).
    apply follow_rhss_replay in Hs as (-> & Hfo & Hrep).
    split; [done|]. split; [congruence|].
    intros fuel2 c2 h Hh Hfoh.
    rewrite (Hrep fuel2 c2 h); [|by eapply cache_ext_trans|done]. simpl.
    apply Hrep1; [done | congruence].
Qed.

Lemma foldl_follow_setdefault_id keys : ∀ h,
  (∀ k, k ∈ keys → k ∈ dom (_follow_cache h)) →
  foldl follow_setdefault h keys = h.
Proof.
  induction keys as [|k keys IH]; intros h Hk; simpl; [done|].
  assert (follow_setdefault h k = h) as ->.
  { unfold follow_setdefault.
    destruct (_follow_cache h !! k) eqn:E; [done|].
    apply not_elem_of_dom in E. destruct E. apply Hk. left. }
  apply IH. intros k' Hk'. apply Hk. by right.
Qed.

(** Once [follow_all] has returned, it returns the same mapping, and
    changes nothing, on every state that has the FOLLOW cache and the
    FIRST entries it left. *)
Lemma follow_all_settled fuel g m g1 fuel2 h :
  follow_all fuel g = Ok (m, g1) → settled g1 h → 1 ≤ fuel2 →
  follow_all fuel2 h = Ok (m, h).
Proof.
  intros (-> & Hp & Hst & (s & Hs & Heoi) & Hk & _ & g0 & Hpass & Hfo0)%follow_all_spec
    [Hce Hfoh] Hfuel.
  pose proof Hce as (Hph & Hsth & _).
  unfold follow_all.
  rewrite foldl_follow_setdefault_id.
  2:{ intros k Hkk. rewrite Hfoh. apply Hk. by rewrite <- Hp, <- Hph. }
  rewrite Hsth, Hst, Hfoh, Hs.
  assert (s ∪ {[EOI]} = s) as -> by set_solver.
  rewrite set_follow_cache_id by (by rewrite Hfoh).
  destruct fuel2 as [|fuel2]; [lia|]. simpl.
  apply follow_pass_spec in Hpass as Hg0. destruct Hg0 as [Hg0 _].
  unfold follow_pass in *.
  apply follow_items_replay in Hpass as (_ & _ & Hrep).
  rewrite Hph, (follow_grows_productions _ _ Hg0).
  rewrite (Hrep (S fuel2) false h); [|done|congruence].
  simpl. by rewrite Hfoh.
Qed.

Lemma prediction_rhss_replay fuel follow A rhss : ∀ preds g preds' g',
  prediction_rhss fuel follow A rhss preds g = Ok (preds', g') →
  cache_ext g g' ∧
  ∀ fuel2 h, cache_ext g' h →
             prediction_rhss fuel2 follow A rhss preds h = Ok (preds', h).
Proof.
  induction rhss as [|rhs rhss IH]; intros preds g preds' g' H; simpl in H.
  - injection H as <- <-. split; [apply cache_ext_refl | done].
  - apply bind_Ok in H as ([F g1] & Hf & H).
    apply first_of_rhs_spec in Hf as [[Hext _] HF].
    apply bind_Ok in H as (pred & Hpred & H).
    apply IH in H as [Hce Hrep].
    split; [by eapply cache_ext_trans|].
    intros fuel2 h Hh. simpl.
    rewrite (first_of_rhs_hit fuel2 rhs h F).
    2:{ eapply lookup_weaken; [exact HF|].
        by destruct (cache_ext_trans _ _ _ Hce Hh) as (_ & _ & _ & ?). }
    simpl. rewrite Hpred. simpl. by apply Hrep.
Qed.

Lemma prediction_items_replay fuel follow items : ∀ preds g preds' g',
  prediction_items fuel follow items preds g = Ok (preds', g') →
  cache_ext g g' ∧
  ∀ fuel2 h, cache_ext g' h →
             prediction_items fuel2 follow items preds h = Ok (preds', h).
Proof.
  induction items as [|[A rhss] items IH]; intros preds g preds' g' H; simpl in H.
  - injection H as <- <-. split; [apply cache_ext_refl | done].
  - apply bind_Ok in H as ([preds1 g1] & Hr & H).
    apply prediction_rhss_replay in Hr as [Hce1 Hrep1].
    apply IH in H as [Hce Hrep].
    split; [by eapply cache_ext_trans|].
    intros fuel2 h Hh. simpl.
    rewrite (Hrep1 fuel2 h) by (by eapply cache_ext_trans). simpl.
    by apply Hrep.
Qed.

(** The state [prediction_sets] leaves is settled with respect to the
    state its call of [follow_all] left. *)
Lemma prediction_sets_inv fuel g preds g' :
  prediction_sets fuel g = Ok (preds, g') →
  ∃ m g1, follow_all fuel g = Ok (m, g1) ∧ settled g1 g' ∧
          ∀ fuel2 h, cache_ext g' h →
                     prediction_items fuel2 m (productions g1) ∅ h = Ok (preds, h).
Proof.
  unfold prediction_sets. intros ([m g1] & Hfo & H)%bind_Ok.
  exists m, g1. split; [done|].
  pose proof (prediction_items_spec g1 m _ _ [] _ _ _ _
                (λ A rhs Hin, Hin) (λ A rhs Hin, False_ind _ (not_elem_of_nil _ Hin)) H)
    as [[Hce Hfo'] _].
  apply prediction_items_replay in H as [_ Hrep]. done.
Qed.

Lemma calls_settled g0 g1 g2 :
  (∃ fuel g m, follow_all fuel g = Ok (m, g0)) →
  settled g0 g1 → calls g1 g2 → settled g0 g2.
Proof.
  intros (fuel0 & g & m & H0) Hs Hc.
  induction Hc as [g1|fuel X g1 ga r gb _ IH H|fuel rhs g1 ga r gb _ IH H
                  |fuel rhs g1 ga b gb _ IH H|fuel g1 ga m' gb _ IH H
                  |fuel g1 ga preds gb _ IH H]; [done|..]; specialize (IH Hs).
  - apply first_spec in H as [[Hce Hfo] _].
    destruct IH as [Hce0 Hfo0]. split; [by eapply cache_ext_trans | congruence].
  - apply first_of_rhs_spec in H as [[Hce Hfo] _].
    destruct IH as [Hce0 Hfo0]. split; [by eapply cache_ext_trans | congruence].
  - apply derives_epsilon_spec in H as (s & H & _).
    apply first_of_rhs_spec in H as [[Hce Hfo] _].
    destruct IH as [Hce0 Hfo0]. split; [by eapply cache_ext_trans | congruence].
  - assert (1 ≤ fuel) as Hfuel.
    { destruct fuel; [|lia]. unfold follow_all in H.
      destruct (_ !! _); [|done]. by simpl in H. }
    rewrite (follow_all_settled _ _ _ _ fuel ga H0 IH Hfuel) in H.
    by injection H as _ <-.
  - apply prediction_sets_inv in H as (m' & gm & Hfo & [Hce Hfo'] & _).
    assert (1 ≤ fuel) as Hfuel.
    { destruct fuel; [|lia]. unfold follow_all in Hfo.
      destruct (_ !! _); [|done]. by simpl in Hfo. }
    rewrite (follow_all_settled _ _ _ _ fuel ga H0 IH Hfuel) in Hfo.
    injection Hfo as _ <-. destruct IH as [Hce0 Hfo0].
    split; [by eapply cache_ext_trans | congruence].
Qed.

Lemma calls_cache_ext g1 g2 : calls g1 g2 → cache_ext g1 g2.
Proof.
  induction 1 as [g1|fuel X g1 ga r gb _ IH H|fuel rhs g1 ga r gb _ IH H
                 |fuel rhs g1 ga b gb _ IH H|fuel g1 ga m' gb _ IH H
                 |fuel g1 ga preds gb _ IH H]; [apply cache_ext_refl|..];
    eapply cache_ext_trans; try exact IH.
  - by apply first_spec in H as [[Hce _] _].
  - by apply first_of_rhs_spec in H as [[Hce _] _].
  - apply derives_epsilon_spec in H as (s & H & _).
    by apply first_of_rhs_spec in H as [[Hce _] _].
  - eapply (follow_all_preserves (cache_ext ga)); [| |exact H|apply cache_ext_refl].
    + intros f rhs g r g' Hf Hg. apply first_of_rhs_spec in Hf as [[Hce _] _].
      by eapply cache_ext_trans.
    + by intros X s g (? & ? & ? & ?).
  - eapply (prediction_sets_preserves (cache_ext ga)); [| |exact H|apply cache_ext_refl].
    + intros f rhs g r g' Hf Hg. apply first_of_rhs_spec in Hf as [[Hce _] _].
      by eapply cache_ext_trans.
    + by intros X s g (? & ? & ? & ?).
Qed.

End Replay.

(** X1: a set [first(X)] has returned is what every later call of
    [first(X)] returns, whichever methods were called in between, and
    that later call changes nothing. *)
Theorem first_result_final {py : PyStr} fuel X g r g1 g2 fuel' :
  first fuel X g = Ok (r, g1) → calls g1 g2 →
  first fuel' X g2 = Ok (r, g2).
Proof.
  intros [_ Hr]%first_spec (_ & _ & Hfc & _)%calls_cache_ext.
  apply first_hit. by eapply lookup_weaken.
Qed.

Lemma first_result_final_witness :
  ∃ r g1 m g2,
    @first ascii_str 3 "S" (fresh scenario "S") = Ok (r, g1) ∧
    @follow_all ascii_str 3 g1 = Ok (m, g2) ∧
    @first ascii_str 0 "S" g2 = Ok (r, g2).
Proof.
  destruct (is_Ok_inv (@first ascii_str 3 "S" (fresh scenario "S")
                         ≫= λ '(_, g1), @follow_all ascii_str 3 g1))
    as [[m g2] H]; [vm_compute; reflexivity|].
  apply bind_Ok in H as ([r g1] & H1 & H2).
  exists r, g1, m, g2. split; [exact H1|]. split; [exact H2|].
  exact (@first_result_final ascii_str 3 "S" _ r g1 g2 0 H1
           (calls_follow_all 3 g1 g1 m g2 (calls_none g1) H2)).
Defined.

(** X2: a set [first_of_rhs(rhs)] has returned is what every later call
    of [first_of_rhs(rhs)] returns, and that later call changes nothing. *)
Theorem first_of_rhs_result_final {py : PyStr} fuel rhs g r g1 g2 fuel' :
  first_of_rhs fuel rhs g = Ok (r, g1) → calls g1 g2 →
  first_of_rhs fuel' rhs g2 = Ok (r, g2).
Proof.
  intros [_ Hr]%first_of_rhs_spec (_ & _ & _ & Hrc)%calls_cache_ext.
  apply first_of_rhs_hit. by eapply lookup_weaken.
Qed.

Lemma first_of_rhs_result_final_witness :
  ∃ r g1 r' g2,
    @first_of_rhs ascii_str 3 ["A"; "b"] (fresh scenario "S") = Ok (r, g1) ∧
    @first ascii_str 3 "S" g1 = Ok (r', g2) ∧
    @first_of_rhs ascii_str 0 ["A"; "b"] g2 = Ok (r, g2).
Proof.
  destruct (is_Ok_inv (@first_of_rhs ascii_str 3 ["A"; "b"] (fresh scenario "S")
                         ≫= λ '(_, g1), @first ascii_str 3 "S" g1))
    as [[r' g2] H]; [vm_compute; reflexivity|].
  apply bind_Ok in H as ([r g1] & H1 & H2).
  exists r, g1, r', g2. split; [exact H1|]. split; [exact H2|].
  exact (@first_of_rhs_result_final ascii_str 3 ["A"; "b"] _ r g1 g2 0 H1
           (calls_first 3 "S" g1 g1 r' g2 (calls_none g1) H2)).
Defined.

(** X3: [derives_epsilon(rhs)] gives the same answer at every later call. *)
Theorem derives_epsilon_final {py : PyStr} fuel rhs g b g1 g2 fuel' :
  derives_epsilon fuel rhs g = Ok (b, g1) → calls g1 g2 →
  derives_epsilon fuel' rhs g2 = Ok (b, g2).
Proof.
  intros (s & [_ Hs]%first_of_rhs_spec & ->)%derives_epsilon_spec
    (_ & _ & _ & Hrc)%calls_cache_ext.
  unfold derives_epsilon.
  rewrite (first_of_rhs_hit fuel' rhs g2 s) by (by eapply lookup_weaken). done.
Qed.

Lemma derives_epsilon_final_witness :
  ∃ b g1 r g2,
    @derives_epsilon ascii_str 3 ["A"; "b"] (fresh scenario "S") = Ok (b, g1) ∧
    @first ascii_str 3 "S" g1 = Ok (r, g2) ∧
    @derives_epsilon ascii_str 0 ["A"; "b"] g2 = Ok (b, g2).
Proof.
  destruct (is_Ok_inv (@derives_epsilon ascii_str 3 ["A"; "b"] (fresh scenario "S")
                         ≫= λ '(_, g1), @first ascii_str 3 "S" g1))
    as [[r g2] H]; [vm_compute; reflexivity|].
  apply bind_Ok in H as ([b g1] & H1 & H2).
  exists b, g1, r, g2. split; [exact H1|]. split; [exact H2|].
  exact (@derives_epsilon_final ascii_str 3 ["A"; "b"] _ b g1 g2 0 H1
           (calls_first 3 "S" g1 g1 r g2 (calls_none g1) H2)).
Defined.

(** X4: [follow_all] is idempotent. Once it has returned a mapping, every
    later call, whichever methods were called in between, returns the
    same mapping and changes nothing. *)
Theorem follow_all_idempotent {py : PyStr} fuel g m g1 g2 fuel' :
  follow_all fuel g = Ok (m, g1) → calls g1 g2 → 1 ≤ fuel' →
  follow_all fuel' g2 = Ok (m, g2).
Proof.
  intros H Hc Hfuel. eapply follow_all_settled; [exact H| |done].
  eapply calls_settled; [eauto | | exact Hc].
  split; [apply cache_ext_refl | done].
Qed.

Lemma follow_all_idempotent_witness :
  ∃ m g1 r g2,
    @follow_all ascii_str 3 (fresh scenario "S") = Ok (m, g1) ∧
    @first ascii_str 3 "Z" g1 = Ok (r, g2) ∧
    @follow_all ascii_str 1 g2 = Ok (m, g2).
Proof.
  destruct (is_Ok_inv (@follow_all ascii_str 3 (fresh scenario "S")
                         ≫= λ '(_, g1), @first ascii_str 3 "Z" g1))
    as [[r g2] H]; [vm_compute; reflexivity|].
  apply bind_Ok in H as ([m g1] & H1 & H2).
  exists m, g1, r, g2. split; [exact H1|]. split; [exact H2|].
  apply (@follow_all_idempotent ascii_str 3 _ m g1 g2 1 H1
           (calls_first 3 "Z" g1 g1 r g2 (calls_none g1) H2)).
  lia.
Defined.

(** X5: [prediction_sets] is idempotent. Once it has returned a mapping,
    every later call returns the same mapping and changes nothing. *)
Theorem prediction_sets_idempotent {py : PyStr} fuel g preds g1 g2 fuel' :
  prediction_sets fuel g = Ok (preds, g1) → calls g1 g2 → 1 ≤ fuel' →
  prediction_sets fuel' g2 = Ok (preds, g2).
Proof.
  intros (m & ga & Hfo & Hs & Hrep)%prediction_sets_inv Hc Hfuel.
  assert (settled ga g2) as Hs2 by (eapply calls_settled; eauto).
  unfold prediction_sets.
  rewrite (follow_all_settled _ _ _ _ fuel' g2 Hfo Hs2 Hfuel). simpl.
  destruct Hs2 as [(-> & _) _]. apply Hrep. by apply calls_cache_ext.
Qed.

Lemma prediction_sets_idempotent_witness :
  ∃ preds g1,
    @prediction_sets ascii_str 3 (fresh scenario "S") = Ok (preds, g1) ∧
    @prediction_sets ascii_str 1 g1 = Ok (preds, g1).
Proof.
  destruct (is_Ok_inv (@prediction_sets ascii_str 3 (fresh scenario "S")))
    as [[preds g1] H]; [vm_compute; reflexivity|].
  exists preds, g1. split; [exact H|].
  apply (@prediction_sets_idempotent ascii_str 3 _ preds g1 g1 1 H (calls_none g1)).
  lia.
Defined.

(** ** Sequences whose FIRST set does not depend on the grammar *)

(** X6: in every state of an analyzer the empty sequence has the FIRST
    set [{ε}] and derives [ε]. *)
Theorem derives_epsilon_empty {py : PyStr} fuel g :
  reachable g →
  ∃ g', first_of_rhs fuel [] g = Ok ({[EPS]}, g') ∧
        derives_epsilon fuel [] g = Ok (true, g').
Proof.
  intros Hg%reachable_rhs_cache_ok.
  destruct (first_of_rhs_fixed fuel [] g Hg) as [g' H].
  exists g'. split; [done|]. unfold derives_epsilon. rewrite H. simpl.
  by rewrite bool_decide_eq_true_2 by set_solver.
Qed.

Lemma derives_epsilon_empty_witness :
  ∃ g', @first_of_rhs ascii_str 0 [] (fresh scenario "S") = Ok ({[EPS]}, g') ∧
        @derives_epsilon ascii_str 0 [] (fresh scenario "S") = Ok (true, g').
Proof.
  apply (@derives_epsilon_empty ascii_str 0 (fresh scenario "S")).
  by apply (reach_init scenario "S").
Defined.

(** X7: in every state of an analyzer a sequence that begins with a
    terminal [t] has the FIRST set [{t}], whatever follows [t], and it
    derives [ε] exactly when [t] is the symbol ['ε']. *)
Theorem derives_epsilon_terminal {py : PyStr} fuel t rest g :
  reachable g → is_nonterminal t = false →
  ∃ g', first_of_rhs fuel (t :: rest) g = Ok ({[t]}, g') ∧
        derives_epsilon fuel (t :: rest) g = Ok (bool_decide (t = EPS), g').
Proof.
  intros Hg%reachable_rhs_cache_ok Ht.
  destruct (first_of_rhs_fixed fuel (t :: rest) g Hg Ht) as [g' H].
  exists g'. split; [done|]. unfold derives_epsilon. rewrite H. simpl.
  do 2 f_equal. apply bool_decide_ext. set_solver.
Qed.

Lemma derives_epsilon_terminal_witness :
  ∃ g', @first_of_rhs ascii_str 0 ["b"; "S"] (fresh scenario "S") = Ok ({["b"]}, g') ∧
        @derives_epsilon ascii_str 0 ["b"; "S"] (fresh scenario "S")
        = Ok (bool_decide ("b" = EPS), g').
Proof.
  apply (@derives_epsilon_terminal ascii_str 0 "b" ["S"] (fresh scenario "S")).
  - by apply (reach_init scenario "S").
  - reflexivity.
Defined.

(** ** The members of the FIRST, FOLLOW and PREDICT sets *)

Section Members.
Context {py : PyStr}.
Variable prods : pydict (list (list string)).

(** The state is about the grammar [prods] and its cached FIRST sets
    have the right members. *)
#[local] Abbreviation first_ok g := (productions g = prods ∧ first_members_ok g).
#[local] Abbreviation all_ok g :=
  (productions g = prods ∧ first_members_ok g ∧ follow_members_ok g).
#[local] Abbreviation W := (terminals prods ∪ {[EPS]}).
#[local] Abbreviation terminals_of rhs :=
  (filter (λ sym, is_nonterminal sym = false) (list_to_set rhs : gset string)).

Lemma terminals_of_body rhs :
  (∀ sym, sym ∈ rhs → sym ∈ body_symbols prods) → terminals_of rhs ⊆ terminals prods.
Proof.
  intros H sym [Hnt Hsym%elem_of_list_to_set]%elem_of_filter.
  apply elem_of_filter. split; [done | by apply H].
Qed.

Lemma first_ok_set_first_cache X s g :
  s ⊆ W → first_ok g → first_ok (set_first_cache X s g).
Proof.
  intros Hs [Hp [H1 H2]]. split; [done|]. split; simpl; [|done].
  apply map_Forall_insert_2; [by rewrite Hp | done].
Qed.

Lemma first_ok_set_first_rhs_cache rhs s g :
  s ⊆ W ∪ terminals_of rhs → first_ok g → first_ok (set_first_rhs_cache rhs s g).
Proof.
  intros Hs [Hp [H1 H2]]. split; [done|]. split; simpl; [done|].
  apply map_Forall_insert_2; [by rewrite Hp | done].
Qed.

Section Bodies.
Variable first_rec : string → Grammar → res (gset string * Grammar).
Hypothesis first_rec_ok : ∀ X g r g',
  first_rec X g = Ok (r, g') → first_ok g → first_ok g' ∧ r ⊆ W.

Lemma first_of_rhs_scan_members W' rhs : ∀ result g r g',
  W ⊆ W' → (∀ sym, sym ∈ rhs → is_nonterminal sym = false → sym ∈ W') →
  result ⊆ W' →
  first_of_rhs_scan first_rec rhs result g = Ok (r, g') →
  first_ok g → first_ok g' ∧ r ⊆ W'.
Proof.
  induction rhs as [|sym rhs IH]; intros result g r g' HW Hrhs Hres H Hg; simpl in H.
  - injection H as <- <-. split; [done | set_solver].
  - destruct (is_nonterminal sym) eqn:Hnt; simpl in H.
    2:{ injection H as <- <-. split; [done|].
        assert (sym ∈ W') by (apply Hrhs; [left | done]). set_solver. }
    apply bind_Ok in H as ([fs g1] & Hf & H).
    apply first_rec_ok in Hf as [Hg1 Hfs]; [|done].
    pose proof (without_eps_subseteq fs).
    destruct (decide (EPS ∈ fs)).
    + eapply IH in H; [done | done | | set_solver | done].
      intros s Hs. apply Hrhs. by right.
    + injection H as <- <-. split; [done | set_solver].
Qed.

Lemma first_of_rhs_body_members rhs g r g' :
  first_of_rhs_body first_rec rhs g = Ok (r, g') →
  first_ok g → first_ok g' ∧ r ⊆ W ∪ terminals_of rhs.
Proof.
  unfold first_of_rhs_body. intros H Hg.
  destruct (_first_rhs_cache g !! rhs) as [c|] eqn:Hc.
  { injection H as <- <-. split; [done|].
    destruct Hg as [Hp [_ H2]]. specialize (H2 rhs c Hc). simpl in H2.
    by rewrite Hp in H2. }
  destruct (length rhs =? 0).
  - injection H as <- <-.
    assert ((∅ ∪ {[EPS]} : gset string) ⊆ W ∪ terminals_of rhs) by set_solver.
    split; [by apply first_ok_set_first_rhs_cache | done].
  - apply bind_Ok in H as ([r1 g1] & Hs & H). injection H as <- <-.
    apply (first_of_rhs_scan_members (W ∪ terminals_of rhs)) in Hs as [Hg1 Hr1];
      [| set_solver | | set_solver | done].
    + split; [by apply first_ok_set_first_rhs_cache | done].
    + intros sym Hsym Hnt. apply elem_of_union_r, elem_of_filter.
      split; [done | by apply elem_of_list_to_set].
Qed.

Lemma first_alternatives_members X alphas : ∀ result g r g',
  (∀ alpha sym, alpha ∈ alphas → sym ∈ alpha → sym ∈ body_symbols prods) →
  result ⊆ W →
  first_alternatives first_rec X alphas result g = Ok (r, g') →
  first_ok g → first_ok g' ∧ r ⊆ W.
Proof.
  induction alphas as [|alpha alphas IH]; intros result g r g' Hal Hres H Hg; simpl in H.
  - by injection H as <- <-.
  - apply bind_Ok in H as ([fa g1] & Hb & H).
    apply first_of_rhs_body_members in Hb as [Hg1 Hfa]; [|done].
    assert (fa ⊆ W) as Hfa'.
    { pose proof (terminals_of_body alpha (λ sym, Hal alpha sym (list_elem_of_here _ _))).
      set_solver. }
    pose proof (without_eps_subseteq fa).
    assert ((let result := result ∪ without_eps fa in
             if decide (EPS ∈ fa) then result ∪ {[EPS]} else result) ⊆ W) as Hr'.
    { simpl. destruct (decide (EPS ∈ fa)); set_solver. }
    eapply IH in H; [done | | exact Hr' | by apply first_ok_set_first_cache].
    intros a sym Ha. apply Hal. by right.
Qed.
End Bodies.

Lemma first_members fuel : ∀ X g r g',
  first fuel X g = Ok (r, g') → first_ok g → first_ok g' ∧ r ⊆ W.
Proof.
  induction fuel as [|fuel IH]; intros X g r g' H Hg; simpl in H.
  - destruct (_first_cache g !! X) as [c|] eqn:Hc; [|done].
    injection H as <- <-. split; [done|].
    destruct Hg as [Hp [H1 _]]. specialize (H1 X c Hc). simpl in H1.
    by rewrite Hp in H1.
  - destruct (_first_cache g !! X) as [c|] eqn:Hc.
    { injection H as <- <-. split; [done|].
      destruct Hg as [Hp [H1 _]]. specialize (H1 X c Hc). simpl in H1.
      by rewrite Hp in H1. }
    apply bind_Ok in H as ([r1 g1] & Ha & H). injection H as <- <-.
    eapply first_alternatives_members in Ha as [Hg1 Hr1]; [| exact IH | | done |].
    + split; [by apply first_ok_set_first_cache | done].
    + intros alpha sym Hal Hs. simpl in Hal. destruct Hg as [<- _].
      by eapply dict_get_symbols.
    + by apply first_ok_set_first_cache.
Qed.

Lemma first_of_rhs_members fuel rhs g r g' :
  first_of_rhs fuel rhs g = Ok (r, g') →
  first_ok g → first_ok g' ∧ r ⊆ W ∪ terminals_of rhs.
Proof. apply first_of_rhs_body_members, first_members. Qed.

Lemma all_ok_set_follow_cache X s g :
  s ⊆ (terminals prods ∖ {[EPS]}) ∪ {[EOI]} → all_ok g → all_ok (set_follow_cache X s g).
Proof.
  intros Hs (Hp & H1 & H2). split; [done|]. split; [done|].
  unfold follow_members_ok. simpl.
  apply map_Forall_insert_2; [by rewrite Hp | done].
Qed.

Lemma follow_step_members fuel A B rest c g c' g' :
  (∀ sym, sym ∈ rest → sym ∈ body_symbols prods) →
  follow_step fuel A B rest c g = Ok (c', g') → all_ok g → all_ok g'.
Proof.
  unfold follow_step. intros Hrest H (Hp & H1 & H2).
  apply bind_Ok in H as ([F g1] & Hf & H).
  pose proof (first_of_rhs_spec _ _ _ _ _ Hf) as [[_ Hfo] _].
  apply first_of_rhs_members in Hf as [[Hp1 H11] HF]; [|done].
  pose proof (terminals_of_body rest Hrest) as Hterm.
  assert (all_ok g1) as Hg1.
  { split; [done|]. split; [done|]. unfold follow_members_ok. by rewrite Hfo, Hp1, <- Hp. }
  assert (without_eps F ⊆ (terminals prods ∖ {[EPS]}) ∪ {[EOI]}) as HweF.
  { intros x [Hne Hx]%without_eps_spec. set_solver. }
  destruct (_follow_cache g1 !! B) as [before|] eqn:HB; [|done].
  assert (before ⊆ (terminals prods ∖ {[EPS]}) ∪ {[EOI]}) as Hbefore.
  { destruct Hg1 as (_ & _ & H3). specialize (H3 B before HB). simpl in H3.
    by rewrite Hp1 in H3. }
  apply bind_Ok in H as ([fB g2] & Hu & H). injection H as _ <-.
  destruct (bool_decide (EPS ∈ F) || (length rest =? 0)).
  - simpl in Hu.
    destruct (<[B:=before ∪ without_eps F]> (_follow_cache g1) !! A) as [fA|] eqn:EA;
      [|done].
    injection Hu as _ <-.
    assert (fA ⊆ (terminals prods ∖ {[EPS]}) ∪ {[EOI]}).
    { destruct (decide (B = A)) as [->|Hne].
      - rewrite lookup_insert_eq in EA. injection EA as <-. set_solver.
      - rewrite lookup_insert_ne in EA by done.
        destruct Hg1 as (_ & _ & H3). specialize (H3 A fA EA). simpl in H3.
        by rewrite Hp1 in H3. }
    apply all_ok_set_follow_cache; [set_solver|].
    apply all_ok_set_follow_cache; [set_solver | done].
  - injection Hu as _ <-. apply all_ok_set_follow_cache; [set_solver | done].
Qed.

Lemma follow_symbols_members fuel A symbols : ∀ c g c' g',
  (∀ sym, sym ∈ symbols → sym ∈ body_symbols prods) →
  follow_symbols fuel A symbols c g = Ok (c', g') → all_ok g → all_ok g'.
Proof.
  induction symbols as [|B rest IH]; intros c g c' g' Hs H Hg; simpl in H.
  - by injection H as _ <-.
  - assert (∀ sym, sym ∈ rest → sym ∈ body_symbols prods) as Hrest.
    { intros sym Hsym. apply Hs. by right. }
    destruct (negb (is_nonterminal B)); [by eapply IH|].
    apply bind_Ok in H as ([c1 g1] & Hstep & H).
    eapply IH; [done | done|]. by eapply follow_step_members.
Qed.

Lemma follow_rhss_members fuel A rhss : ∀ c g c' g',
  (∀ rhs sym, rhs ∈ rhss → sym ∈ rhs → sym ∈ body_symbols prods) →
  follow_rhss fuel A rhss c g = Ok (c', g') → all_ok g → all_ok g'.
Proof.
  induction rhss as [|rhs rhss IH]; intros c g c' g' Hs H Hg; simpl in H.
  - by injection H as _ <-.
  - apply bind_Ok in H as ([c1 g1] & Hsym & H).
    eapply IH; [|done|].
    + intros r sym Hr. apply Hs. by right.
    + eapply follow_symbols_members; [|done..]. intros sym. apply Hs. left.
Qed.

Lemma follow_items_members fuel items : ∀ c g c' g',
  items ⊆ prods →
  follow_items fuel items c g = Ok (c', g') → all_ok g → all_ok g'.
Proof.
  induction items as [|[A rhss] items IH]; intros c g c' g' Hs H Hg; simpl in H.
  - by injection H as _ <-.
  - apply bind_Ok in H as ([c1 g1] & Hr & H).
    eapply IH; [|done|].
    + intros x Hx. apply Hs. by right.
    + eapply follow_rhss_members; [|done..].
      intros rhs sym ??. eapply elem_of_body_symbols; [|done..]. apply Hs. left.
Qed.

Lemma follow_while_members passes fuel : ∀ g g',
  follow_while passes fuel g = Ok g' → all_ok g → all_ok g'.
Proof.
  induction passes as [|passes IH]; intros g g' H Hg; simpl in H; [done|].
  apply bind_Ok in H as ([c g1] & Hp & H).
  assert (all_ok g1) as Hg1.
  { unfold follow_pass in Hp. destruct Hg as (Hprods & ?).
    eapply follow_items_members; [|exact Hp|done]. by rewrite Hprods. }
  destruct c; [by eapply IH | by injection H as <-].
Qed.

Lemma follow_all_members fuel g m g' :
  follow_all fuel g = Ok (m, g') → all_ok g → all_ok g'.
Proof.
  unfold follow_all. intros H Hg.
  assert (∀ keys g, all_ok g → all_ok (foldl follow_setdefault g keys)) as Hkeys.
  { induction keys as [|k keys IH]; intros g1 H1; simpl; [done|].
    apply IH. unfold follow_setdefault.
    destruct (_follow_cache g1 !! k); [done|].
    apply all_ok_set_follow_cache; [set_solver | done]. }
  specialize (Hkeys (dict_keys (productions g)) g Hg).
  set (g1 := foldl follow_setdefault g (dict_keys (productions g))) in *.
  destruct (_follow_cache g1 !! start g1) as [s|] eqn:Hs; [|done].
  apply bind_Ok in H as (g3 & Hw & H). injection H as _ <-.
  eapply follow_while_members; [done|].
  apply all_ok_set_follow_cache; [|done].
  destruct Hkeys as (Hp1 & _ & H3). specialize (H3 _ s Hs). simpl in H3.
  rewrite Hp1 in H3. set_solver.
Qed.

Lemma prediction_rhss_members fuel follow A rhss : ∀ preds g preds' g',
  (∀ rhs sym, rhs ∈ rhss → sym ∈ rhs → sym ∈ body_symbols prods) →
  map_Forall (λ _ s, s ⊆ (terminals prods ∖ {[EPS]}) ∪ {[EOI]}) follow →
  map_Forall (λ _ s, s ⊆ (terminals prods ∖ {[EPS]}) ∪ {[EOI]}) preds →
  prediction_rhss fuel follow A rhss preds g = Ok (preds', g') → first_ok g →
  first_ok g' ∧ map_Forall (λ _ s, s ⊆ (terminals prods ∖ {[EPS]}) ∪ {[EOI]}) preds'.
Proof.
  induction rhss as [|rhs rhss IH]; intros preds g preds' g' Hs Hfo Hpreds H Hg;
    simpl in H.
  - by injection H as <- <-.
  - apply bind_Ok in H as ([F g1] & Hf & H).
    apply first_of_rhs_members in Hf as [Hg1 HF]; [|done].
    pose proof (terminals_of_body rhs (λ sym, Hs rhs sym (list_elem_of_here _ _))).
    assert (without_eps F ⊆ (terminals prods ∖ {[EPS]}) ∪ {[EOI]}) as HweF.
    { intros x [Hne Hx]%without_eps_spec. set_solver. }
    apply bind_Ok in H as (pred & Hpred & H).
    eapply IH in H; [done | | done | | done].
    + intros r sym Hr. apply Hs. by right.
    + apply map_Forall_insert_2; [|done].
      destruct (bool_decide (EPS ∈ F)).
      * destruct (follow !! A) as [fA|] eqn:EA; [|done]. injection Hpred as <-.
        specialize (Hfo A fA EA). simpl in Hfo. set_solver.
      * by injection Hpred as <-.
Qed.

Lemma prediction_items_members fuel follow items : ∀ preds g preds' g',
  items ⊆ prods →
  map_Forall (λ _ s, s ⊆ (terminals prods ∖ {[EPS]}) ∪ {[EOI]}) follow →
  map_Forall (λ _ s, s ⊆ (terminals prods ∖ {[EPS]}) ∪ {[EOI]}) preds →
  prediction_items fuel follow items preds g = Ok (preds', g') → first_ok g →
  first_ok g' ∧ map_Forall (λ _ s, s ⊆ (terminals prods ∖ {[EPS]}) ∪ {[EOI]}) preds'.
Proof.
  induction items as [|[A rhss] items IH]; intros preds g preds' g' Hs Hfo Hpreds H Hg;
    simpl in H.
  - by injection H as <- <-.
  - apply bind_Ok in H as ([preds1 g1] & Hr & H).
    apply prediction_rhss_members in Hr as [Hg1 Hpreds1]; [| |done..].
    2:{ intros rhs sym ??. eapply elem_of_body_symbols; [|done..]. apply Hs. left. }
    eapply IH in H; [done | | done..]. intros x Hx. apply Hs. by right.
Qed.

Lemma prediction_sets_members fuel g preds g' :
  prediction_sets fuel g = Ok (preds, g') → all_ok g →
  all_ok g' ∧ map_Forall (λ _ s, s ⊆ (terminals prods ∖ {[EPS]}) ∪ {[EOI]}) preds.
Proof.
  intros H Hg.
  pose proof (prediction_sets_inv _ _ _ _ H) as (m & g1 & Hfo & [_ Hfo'] & _).
  unfold prediction_sets in H. rewrite Hfo in H. simpl in H.
  pose proof (follow_all_spec _ _ _ _ Hfo) as (-> & _).
  apply follow_all_members in Hfo as (Hp1 & H1 & H2); [|done].
  apply prediction_items_members in H as [[Hp' H1'] Hpreds];
    [| by rewrite Hp1 | by rewrite <- Hp1 | done | done].
  split; [|done]. split; [done|]. split; [done|].
  unfold follow_members_ok. by rewrite Hp', Hfo', <- Hp1.
Qed.

End Members.

Lemma reachable_members {py : PyStr} g :
  reachable g → first_members_ok g ∧ follow_members_ok g.
Proof.
  induction 1 as [prods st g Hi|fuel X g r g' _ [IH1 IH2] H|fuel rhs g r g' _ [IH1 IH2] H
                 |fuel g m g' _ [IH1 IH2] H|fuel g preds g' _ [IH1 IH2] H].
  - injection Hi as <-. split; [split|]; intros k s; simpl; by rewrite lookup_empty.
  - pose proof (first_spec _ _ _ _ _ H) as [[_ Hfo] _].
    apply (first_members (productions g)) in H as [[Hp H1] _]; [|done].
    split; [done|]. unfold follow_members_ok. by rewrite Hfo, Hp.
  - pose proof (first_of_rhs_spec _ _ _ _ _ H) as [[_ Hfo] _].
    apply (first_of_rhs_members (productions g)) in H as [[Hp H1] _]; [|done].
    split; [done|]. unfold follow_members_ok. by rewrite Hfo, Hp.
  - by apply (follow_all_members (productions g)) in H as (_ & ? & ?).
  - by apply (prediction_sets_members (productions g)) in H as [(_ & ? & ?) _].
Qed.

Lemma elem_of_terminals {py : PyStr} prods x :
  x ∈ terminals prods ↔ x ∈ body_symbols prods ∧ is_nonterminal x = false.
Proof. unfold terminals. rewrite elem_of_filter. tauto. Qed.

(** X8: every member of a set [first] returns is [ε] or a symbol of some
    body that [is_nonterminal] rejects. *)
Theorem first_members_terminal {py : PyStr} fuel X g r g' x :
  reachable g → first fuel X g = Ok (r, g') → x ∈ r →
  x = EPS ∨ (x ∈ body_symbols (productions g) ∧ is_nonterminal x = false).
Proof.
  intros [Hg _]%reachable_members H Hx.
  apply (first_members (productions g)) in H as [_ Hr]; [|done].
  apply Hr in Hx. rewrite <- elem_of_terminals. set_solver.
Qed.

Lemma first_members_terminal_witness :
  ∃ r g', @first ascii_str 3 "S" (fresh scenario "S") = Ok (r, g') ∧ "b" ∈ r ∧
          ("b" = EPS ∨ ("b" ∈ body_symbols scenario ∧ @is_nonterminal ascii_str "b" = false)).
Proof.
  assert (match @first ascii_str 3 "S" (fresh scenario "S") with
          | Ok (r, _) => "b" ∈ r
          | _ => False
          end) as Hb by compute_done.
  destruct (@first ascii_str 3 "S" (fresh scenario "S")) as [[r g']| | |] eqn:H;
    [|exact (False_ind _ Hb)..].
  exists r, g'. split; [reflexivity|]. split; [exact Hb|].
  exact (@first_members_terminal ascii_str 3 "S" (fresh scenario "S") r g' "b"
           (reach_init scenario "S" _ eq_refl) H Hb).
Defined.

(** X9: no FOLLOW set that [follow_all] returns holds [ε]; every member
    is [$] or a symbol of some body that [is_nonterminal] rejects. *)
Theorem follow_members_terminal {py : PyStr} fuel g m g' A s x :
  reachable g → follow_all fuel g = Ok (m, g') → m !! A = Some s → x ∈ s →
  x ≠ EPS ∧
  (x = EOI ∨ (x ∈ body_symbols (productions g) ∧ is_nonterminal x = false)).
Proof.
  intros [Hg1 Hg2]%reachable_members H HA Hx.
  pose proof (follow_all_spec _ _ _ _ H) as (-> & _).
  apply (follow_all_members (productions g)) in H as (Hp & _ & H3); [|done].
  specialize (H3 A s HA). simpl in H3. rewrite Hp in H3. apply H3 in Hx.
  assert (EOI ≠ EPS) by done.
  rewrite <- elem_of_terminals. set_solver.
Qed.

Lemma follow_members_terminal_witness :
  ∃ m g' s, @follow_all ascii_str 3 (fresh scenario "S") = Ok (m, g') ∧
            m !! "A" = Some s ∧ "b" ∈ s ∧
            "b" ≠ EPS ∧
            ("b" = EOI ∨
             ("b" ∈ body_symbols scenario ∧ @is_nonterminal ascii_str "b" = false)).
Proof.
  assert (match @follow_all ascii_str 3 (fresh scenario "S") with
          | Ok (m, _) => ∃ s, m !! "A" = Some s ∧ "b" ∈ s
          | _ => False
          end) as Hb.
  { vm_compute. eexists. split; [reflexivity|]. compute_done. }
  destruct (@follow_all ascii_str 3 (fresh scenario "S")) as [[m g']| | |] eqn:H;
    [|exact (False_ind _ Hb)..].
  destruct Hb as (s & Hs & Hb).
  exists m, g', s. split; [reflexivity|]. split; [exact Hs|]. split; [exact Hb|].
  exact (@follow_members_terminal ascii_str 3 (fresh scenario "S") m g' "A" s "b"
           (reach_init scenario "S" _ eq_refl) H Hs Hb).
Defined.

(** X10: no PREDICT set that [prediction_sets] returns holds [ε]; every
    member is [$] or a symbol of some body that [is_nonterminal] rejects. *)
Theorem prediction_members_terminal {py : PyStr} fuel g preds g' key s x :
  reachable g → prediction_sets fuel g = Ok (preds, g') →
  preds !! key = Some s → x ∈ s →
  x ≠ EPS ∧
  (x = EOI ∨ (x ∈ body_symbols (productions g) ∧ is_nonterminal x = false)).
Proof.
  intros [Hg1 Hg2]%reachable_members H Hk Hx.
  apply (prediction_sets_members (productions g)) in H as [_ Hp]; [|done].
  specialize (Hp key s Hk). simpl in Hp. apply Hp in Hx.
  assert (EOI ≠ EPS) by done.
  rewrite <- elem_of_terminals. set_solver.
Qed.

Lemma prediction_members_terminal_witness :
  ∃ preds g' s, @prediction_sets ascii_str 3 (fresh scenario "S") = Ok (preds, g') ∧
                preds !! "S -> c" = Some s ∧ "c" ∈ s ∧
                "c" ≠ EPS ∧
                ("c" = EOI ∨
                 ("c" ∈ body_symbols scenario ∧ @is_nonterminal ascii_str "c" = false)).
Proof.
  assert (match @prediction_sets ascii_str 3 (fresh scenario "S") with
          | Ok (preds, _) => ∃ s, preds !! "S -> c" = Some s ∧ "c" ∈ s
          | _ => False
          end) as Hb.
  { vm_compute. eexists. split; [reflexivity|]. compute_done. }
  destruct (@prediction_sets ascii_str 3 (fresh scenario "S")) as [[preds g']| | |] eqn:H;
    [|exact (False_ind _ Hb)..].
  destruct Hb as (s & Hs & Hb).
  exists preds, g', s. split; [reflexivity|]. split; [exact Hs|]. split; [exact Hb|].
  exact (@prediction_members_terminal ascii_str 3 (fresh scenario "S") preds g'
           "S -> c" s "c" (reach_init scenario "S" _ eq_refl) H Hs Hb).
Defined.

(** ** The errors of [follow_all] *)

Section FollowErrors.
Context {py : PyStr}.

Lemma follow_all_dom fuel g m g' :
  follow_all fuel g = Ok (m, g') →
  dom m = dom (_follow_cache g) ∪ list_to_set (dict_keys (productions g)).
Proof.
  unfold follow_all. intros H.
  pose proof (follow_setdefault_keys (dict_keys (productions g)) g)
    as (_ & _ & _ & _ & _ & Hd & _).
  simpl in Hd. set (g1 := foldl follow_setdefault g (dict_keys (productions g))) in *.
  destruct (_follow_cache g1 !! start g1) as [s|] eqn:Hs; [|done].
  apply bind_Ok in H as (g3 & Hw & H). injection H as <- <-.
  apply follow_while_spec in Hw as ((_ & Hd3 & _) & _).
  rewrite Hd3. simpl. rewrite dom_insert_L, Hd.
  apply elem_of_dom_2 in Hs. rewrite Hd in Hs. set_solver.
Qed.

Lemma reachable_follow_dom_ok g : reachable g → follow_dom_ok g.
Proof.
  induction 1 as [prods st g Hi|fuel X g r g' _ IH H|fuel rhs g r g' _ IH H
                 |fuel g m g' _ IH H|fuel g preds g' _ IH H].
  - injection Hi as <-. intros k. simpl. by rewrite dom_empty_L, elem_of_empty.
  - apply first_spec in H as [[(Hp & _) Hfo] _]. intros k. rewrite Hfo, Hp. apply IH.
  - apply first_of_rhs_spec in H as [[(Hp & _) Hfo] _].
    intros k. rewrite Hfo, Hp. apply IH.
  - pose proof (follow_all_dom _ _ _ _ H) as Hd.
    apply follow_all_spec in H as (-> & Hp & _).
    intros k. rewrite Hd, Hp, elem_of_union, elem_of_list_to_set.
    intros [Hk|Hk]; [by apply IH | done].
  - apply prediction_sets_inv in H as (m & g1 & Hfo & [(Hp & _) Hfo'] & _).
    pose proof (follow_all_dom _ _ _ _ Hfo) as Hd.
    apply follow_all_spec in Hfo as (-> & Hp1 & _).
    intros k. rewrite Hfo', Hd, Hp, Hp1, elem_of_union, elem_of_list_to_set.
    intros [Hk|Hk]; [by apply IH | done].
Qed.

(** A step that returns has found the entry of its nonterminal. *)
Lemma follow_step_key fuel A B rest c g c' g' :
  follow_step fuel A B rest c g = Ok (c', g') → B ∈ dom (_follow_cache g).
Proof.
  unfold follow_step. intros ([F g1] & Hf & H)%bind_Ok.
  apply first_of_rhs_spec in Hf as [[_ Hfo] _]. rewrite <- Hfo.
  destruct (_follow_cache g1 !! B) eqn:HB; [|done]. by apply elem_of_dom_2 in HB.
Qed.

Lemma follow_symbols_keys fuel A symbols : ∀ c g c' g',
  follow_symbols fuel A symbols c g = Ok (c', g') →
  ∀ B, B ∈ symbols → is_nonterminal B = true → B ∈ dom (_follow_cache g).
Proof.
  induction symbols as [|B0 rest IH]; intros c g c' g' H B HB Hnt; simpl in H.
  - by apply elem_of_nil in HB.
  - apply elem_of_cons in HB as [->|HB].
    + rewrite Hnt in H. simpl in H. apply bind_Ok in H as ([c1 g1] & Hs & _).
      by eapply follow_step_key.
    + destruct (negb (is_nonterminal B0)); [by eapply IH|].
      apply bind_Ok in H as ([c1 g1] & Hs & H).
      apply follow_step_spec in Hs as [(_ & <- & _) _]. by eapply IH.
Qed.

Lemma follow_rhss_keys fuel A rhss : ∀ c g c' g',
  follow_rhss fuel A rhss c g = Ok (c', g') →
  ∀ rhs B, rhs ∈ rhss → B ∈ rhs → is_nonterminal B = true →
           B ∈ dom (_follow_cache g).
Proof.
  induction rhss as [|rhs0 rhss IH]; intros c g c' g' H rhs B Hr HB Hnt; simpl in H.
  - by apply elem_of_nil in Hr.
  - apply bind_Ok in H as ([c1 g1] & Hs & H).
    apply elem_of_cons in Hr as [->|Hr].
    + by eapply follow_symbols_keys.
    + apply follow_symbols_spec in Hs as [(_ & <- & _) _]. by eapply IH.
Qed.

Lemma follow_items_keys fuel items : ∀ c g c' g',
  follow_items fuel items c g = Ok (c', g') →
  ∀ B, B ∈ body_symbols items → is_nonterminal B = true →
       B ∈ dom (_follow_cache g).
Proof.
  induction items as [|[A0 rhss0] items IH]; intros c g c' g' H B HB Hnt; simpl in H.
  - apply body_symbols_inv in HB as (? & ? & ? & Hin & _). by apply elem_of_nil in Hin.
  - apply bind_Ok in H as ([c1 g1] & Hs & H).
    apply body_symbols_inv in HB as (A & rhss & rhs & Hin & Hr & HB).
    apply elem_of_cons in Hin as [[= -> ->]|Hin].
    + by eapply follow_rhss_keys.
    + apply follow_rhss_spec in Hs as [(_ & <- & _) _].
      eapply IH; [done| |done]. by eapply elem_of_body_symbols.
Qed.

(** A call of [follow_all] that returns has found an entry for the start
    symbol and for every symbol of a body that [is_nonterminal] accepts. *)
Lemma follow_all_keys fuel g m g' :
  follow_all fuel g = Ok (m, g') →
  start g ∈ dom m ∧
  ∀ B, B ∈ body_symbols (productions g) → is_nonterminal B = true → B ∈ dom m.
Proof.
  intros H. pose proof (follow_all_dom _ _ _ _ H) as Hd.
  pose proof (follow_all_spec _ _ _ _ H) as (_ & _ & _ & (s & Hs & _) & _).
  split; [by apply elem_of_dom_2 in Hs|].
  unfold follow_all in H.
  pose proof (follow_setdefault_keys (dict_keys (productions g)) g)
    as (Hp & _ & _ & _ & _ & Hd1 & _).
  simpl in *. set (g1 := foldl follow_setdefault g (dict_keys (productions g))) in *.
  destruct (_follow_cache g1 !! start g1) as [s1|] eqn:Hs1; [|done].
  apply bind_Ok in H as (g3 & Hw & H). injection H as <- <-.
  destruct fuel as [|fuel]; [done|]. simpl in Hw.
  apply bind_Ok in Hw as ([c g2] & Hpass & _).
  intros B HB Hnt. unfold follow_pass in Hpass. simpl in Hpass.
  eapply follow_items_keys in Hpass; [| by rewrite Hp | done].
  simpl in Hpass. rewrite dom_insert_L in Hpass.
  apply elem_of_dom_2 in Hs1. rewrite Hd. rewrite Hd1 in Hpass, Hs1. set_solver.
Qed.

End FollowErrors.

(** X11: when the start symbol is not a key of the productions,
    [follow_all] and [prediction_sets] raise [KeyError] for it, in every
    state of the analyzer. *)
Theorem follow_all_start_missing {py : PyStr} fuel g :
  reachable g → start g ∉ dict_keys (productions g) →
  follow_all fuel g = KeyError (start g) ∧
  prediction_sets fuel g = KeyError (start g).
Proof.
  intros Hg%reachable_follow_dom_ok Hstart.
  assert (follow_all fuel g = KeyError (start g)) as H.
  { unfold follow_all.
    pose proof (follow_setdefault_keys (dict_keys (productions g)) g)
      as (_ & Hst & _ & _ & _ & Hd & _).
    simpl in *. set (g1 := foldl follow_setdefault g (dict_keys (productions g))) in *.
    destruct (_follow_cache g1 !! start g1) as [s|] eqn:Hs; [|by rewrite Hst].
    apply elem_of_dom_2 in Hs. rewrite Hd, Hst in Hs.
    apply elem_of_union in Hs as [Hs|Hs%elem_of_list_to_set]; [|done].
    by apply Hg in Hs. }
  split; [done|]. unfold prediction_sets. by rewrite H.
Qed.

Lemma follow_all_start_missing_witness :
  @follow_all ascii_str 3 (fresh dangling "T") = KeyError "T" ∧
  @prediction_sets ascii_str 3 (fresh dangling "T") = KeyError "T".
Proof.
  apply (@follow_all_start_missing ascii_str 3 (fresh dangling "T")).
  - by apply (reach_init dangling "T").
  - compute_done.
Defined.

Lemma follow_all_Ok_valid {py : PyStr} fuel g m g' :
  follow_dom_ok g → follow_all fuel g = Ok (m, g') → structurally_valid g = true.
Proof.
  intros Hg H.
  pose proof (follow_all_dom _ _ _ _ H) as Hd.
  apply follow_all_keys in H as [Hstart Hbody].
  assert (∀ k, k ∈ dom m → k ∈ dict_keys (productions g)) as Hkeys.
  { intros k. rewrite Hd, elem_of_union, elem_of_list_to_set.
    intros [Hk|Hk]; [by apply Hg | done]. }
  unfold structurally_valid. apply andb_true_intro. split.
  - apply bool_decide_eq_true_2. by apply Hkeys.
  - apply forallb_forall. intros sym Hsym%list_elem_of_In.
    destruct (is_nonterminal sym) eqn:Hnt; [|done]. simpl.
    apply bool_decide_eq_true_2, Hkeys, Hbody; [|done].
    unfold body_symbols. by apply elem_of_list_to_set.
Qed.

(** X12: [follow_all] returns on structurally valid grammars only: when
    it returns, the start symbol and every symbol of a body that
    [is_nonterminal] accepts are keys of the productions. *)
Theorem follow_all_returns_valid {py : PyStr} fuel g m g' :
  reachable g → follow_all fuel g = Ok (m, g') → structurally_valid g = true.
Proof. intros Hg%reachable_follow_dom_ok. by apply follow_all_Ok_valid. Qed.

Lemma follow_all_returns_valid_witness :
  @structurally_valid ascii_str (fresh scenario "S") = true.
Proof.
  destruct (is_Ok_inv (@follow_all ascii_str 3 (fresh scenario "S")))
    as [[m g'] H]; [vm_compute; reflexivity|].
  exact (@follow_all_returns_valid ascii_str 3 (fresh scenario "S") m g'
           (reach_init scenario "S" _ eq_refl) H).
Defined.

(** ** The mapping [follow_all] returns is closed under propagation *)

Section FollowClosed.
Context {py : PyStr}.

Lemma follow_step_closed fuel A B rest c g g' :
  follow_step fuel A B rest c g = Ok (false, g') →
  ∃ F, _first_rhs_cache g' !! rest = Some F ∧
       follow_closed_at (_follow_cache g) F A B rest.
Proof.
  unfold follow_step. intros H.
  apply bind_Ok in H as ([F g1] & Hf & H).
  apply first_of_rhs_spec in Hf as [[_ Hfo] HF].
  destruct (_follow_cache g1 !! B) as [before|] eqn:HB; [|done].
  apply bind_Ok in H as ([fB g2] & Hu & H). injection H as Hflag <-.
  case_bool_decide as Hne; [done|]. subst fB. clear Hflag.
  exists F. rewrite <- Hfo. unfold follow_closed_at.
  destruct (bool_decide (EPS ∈ F) || (length rest =? 0)) eqn:Hcond.
  - simpl in Hu.
    destruct (<[B:=before ∪ without_eps F]> (_follow_cache g1) !! A) as [fA|] eqn:EA;
      [|done].
    injection Hu as Hb <-. split; [done|].
    exists before. split; [done|]. rewrite <- without_eps_difference.
    split; [set_solver|]. intros _.
    destruct (decide (B = A)) as [->|HBA].
    + exists before. split; [done | set_solver].
    + rewrite lookup_insert_ne in EA by done. exists fA. split; [done | set_solver].
  - injection Hu as Hb <-. split; [done|].
    exists before. split; [done|]. rewrite <- without_eps_difference.
    split; [set_solver|]. intros Hor. exfalso.
    apply orb_false_elim in Hcond as [He Hl].
    destruct Hor as [He'| ->]; [|done].
    by apply bool_decide_eq_false_1 in He.
Qed.

Lemma follow_symbols_closed fuel A symbols : ∀ c g g',
  follow_symbols fuel A symbols c g = Ok (false, g') →
  ∀ pre B rest, symbols = pre ++ B :: rest → is_nonterminal B = true →
    ∃ F, _first_rhs_cache g' !! rest = Some F ∧
         follow_closed_at (_follow_cache g) F A B rest.
Proof.
  induction symbols as [|B0 rest0 IH]; intros c g g' H pre B rest Hsym Hnt; simpl in H.
  - by destruct pre.
  - destruct pre as [|x pre]; simpl in Hsym; injection Hsym as -> ->.
    + rewrite Hnt in H. simpl in H. apply bind_Ok in H as ([c1 g1] & Hs & H).
      pose proof (follow_symbols_spec _ _ _ _ _ _ _ H) as [((_ & _ & _ & Hrc) & _) _].
      apply follow_symbols_replay in H as (-> & _).
      apply follow_step_closed in Hs as (F & HF & Hcl).
      exists F. split; [by eapply lookup_weaken | done].
    + destruct (negb (is_nonterminal x)); [by eapply IH|].
      apply bind_Ok in H as ([c1 g1] & Hs & H).
      pose proof (follow_symbols_replay _ _ _ _ _ _ H) as (-> & _).
      apply follow_step_replay in Hs as (_ & <- & _). by eapply IH.
Qed.

Lemma follow_rhss_closed fuel A rhss : ∀ c g g',
  follow_rhss fuel A rhss c g = Ok (false, g') →
  ∀ rhs pre B rest, rhs ∈ rhss → rhs = pre ++ B :: rest → is_nonterminal B = true →
    ∃ F, _first_rhs_cache g' !! rest = Some F ∧
         follow_closed_at (_follow_cache g) F A B rest.
Proof.
  induction rhss as [|rhs0 rhss IH]; intros c g g' H rhs pre B rest Hr Hsym Hnt;
    simpl in H.
  - by apply elem_of_nil in Hr.
  - apply bind_Ok in H as ([c1 g1] & Hs & H).
    pose proof (follow_rhss_spec _ _ _ _ _ _ _ H) as [((_ & _ & _ & Hrc) & _) _].
    pose proof (follow_rhss_replay _ _ _ _ _ _ H) as (-> & _).
    apply elem_of_cons in Hr as [->|Hr].
    + eapply follow_symbols_closed in Hs as (F & HF & Hcl); [|done..].
      exists F. split; [by eapply lookup_weaken | done].
    + apply follow_symbols_replay in Hs as (_ & <- & _). by eapply IH.
Qed.

Lemma follow_items_closed fuel items : ∀ c g g',
  follow_items fuel items c g = Ok (false, g') →
  ∀ A rhss rhs pre B rest,
    (A, rhss) ∈ items → rhs ∈ rhss → rhs = pre ++ B :: rest →
    is_nonterminal B = true →
    ∃ F, _first_rhs_cache g' !! rest = Some F ∧
         follow_closed_at (_follow_cache g) F A B rest.
Proof.
  induction items as [|[A0 rhss0] items IH];
    intros c g g' H A rhss rhs pre B rest Hin Hr Hsym Hnt; simpl in H.
  - by apply elem_of_nil in Hin.
  - apply bind_Ok in H as ([c1 g1] & Hs & H).
    pose proof (follow_items_spec _ _ _ _ _ _ H) as [((_ & _ & _ & Hrc) & _) _].
    pose proof (follow_items_replay _ _ _ _ _ H) as (-> & _).
    apply elem_of_cons in Hin as [[= -> ->]|Hin].
    + eapply follow_rhss_closed in Hs as (F & HF & Hcl); [|done..].
      exists F. split; [by eapply lookup_weaken | done].
    + apply follow_rhss_replay in Hs as (_ & <- & _). by eapply IH.
Qed.

End FollowClosed.

(** X13: the mapping [follow_all] returns is a fixed point of the two
    propagation rules. For every nonterminal [B] in a body of [A],
    followed there by [rest], with [F] the set [first_of_rhs(rest)] gives
    after the call: [F] without [ε] is within [FOLLOW(B)], and if [ε] is in
    [F] or [rest] is empty then [FOLLOW(A)] is within [FOLLOW(B)]. *)
Theorem follow_all_fixed_point {py : PyStr} fuel g m g' A rhss pre B rest fuel' :
  follow_all fuel g = Ok (m, g') →
  (A, rhss) ∈ productions g → pre ++ B :: rest ∈ rhss → is_nonterminal B = true →
  ∃ F, first_of_rhs fuel' rest g' = Ok (F, g') ∧ follow_closed_at m F A B rest.
Proof.
  intros (_ & Hp & _ & _ & _ & _ & g0 & Hpass & Hfo0)%follow_all_spec Hin Hr Hnt.
  pose proof (follow_pass_spec _ _ _ _ Hpass) as [Hg0%follow_grows_productions _].
  unfold follow_pass in Hpass.
  eapply follow_items_closed in Hpass as (F & HF & Hcl); [| |exact Hr|done|done].
  - exists F. split; [by apply first_of_rhs_hit | by rewrite <- Hfo0].
  - by rewrite <- Hg0, Hp.
Qed.

Lemma follow_all_fixed_point_witness :
  ∃ m g' F, @follow_all ascii_str 3 (fresh scenario "S") = Ok (m, g') ∧
            @first_of_rhs ascii_str 0 ["b"] g' = Ok (F, g') ∧
            follow_closed_at m F "S" "A" ["b"].
Proof.
  destruct (is_Ok_inv (@follow_all ascii_str 3 (fresh scenario "S")))
    as [[m g'] H]; [vm_compute; reflexivity|].
  destruct (@follow_all_fixed_point ascii_str 3 (fresh scenario "S") m g'
              "S" [["A"; "b"]; ["c"]] [] "A" ["b"] 0 H) as (F & H1 & H2).
  - compute_done.
  - compute_done.
  - reflexivity.
  - exact (ex_intro _ m (ex_intro _ g' (ex_intro _ F (conj H (conj H1 H2))))).
Defined.

(** ** [first] and its alternatives *)

Lemma absorb_without_eps (result fa : gset string) :
  (let result := result ∪ without_eps fa in
   if decide (EPS ∈ fa) then result ∪ {[EPS]} else result) = result ∪ fa.
Proof.
  simpl. apply set_eq. intros x.
  destruct (decide (EPS ∈ fa)); rewrite ?elem_of_union, without_eps_spec;
    destruct (decide (x = EPS)); set_solver.
Qed.

Section FirstUnion.
Context {py : PyStr}.
Variable first_rec : string → Grammar → res (gset string * Grammar).
Hypothesis first_rec_ext : ∀ X g r g',
  first_rec X g = Ok (r, g') → first_ext g g' ∧ _first_cache g' !! X = Some r.

Lemma first_alternatives_union X alphas : ∀ result g r g',
  first_alternatives first_rec X alphas result g = Ok (r, g') →
  _first_rhs_cache g ⊆ _first_rhs_cache g' ∧
  ∀ gf, _first_rhs_cache g' ⊆ _first_rhs_cache gf →
        r = result ∪ ⋃ (rhs_map gf <$> alphas).
Proof.
  induction alphas as [|alpha alphas IH]; intros result g r g' H; simpl in H.
  - injection H as <- <-. split; [done|]. intros gf _. simpl.
    by rewrite union_empty_r_L.
  - apply bind_Ok in H as ([fa g1] & Hb & H).
    apply (first_of_rhs_body_ext _ first_rec_ext) in Hb as [[(_ & _ & _ & Hrc) _] Hfa].
    rewrite absorb_without_eps in H.
    apply IH in H as [Hrc1 Hr]. simpl in Hrc1.
    split; [by etrans|]. intros gf Hgf.
    rewrite (Hr gf Hgf), fmap_cons. simpl.
    assert (rhs_map gf alpha = fa) as ->.
    { unfold rhs_map. eapply lookup_weaken in Hfa; [|by etrans]. by rewrite Hfa. }
    by rewrite union_assoc_L.
Qed.
End FirstUnion.

(** X14: when [first(X)] computes its set, rather than finding it in the
    cache, the set is the union of the FIRST sets the cache then holds for
    the alternatives of [X]. *)
Theorem first_union_of_alternatives {py : PyStr} fuel X g r g' :
  _first_cache g !! X = None → first fuel X g = Ok (r, g') →
  r = ⋃ (rhs_map g' <$> dict_get X [] (productions g)).
Proof.
  intros Hc H. destruct fuel as [|fuel]; simpl in H; rewrite Hc in H; [done|].
  apply bind_Ok in H as ([r1 g1] & Ha & H). injection H as <- <-.
  apply (first_alternatives_union _ (first_spec fuel)) in Ha as [_ Hr].
  rewrite (Hr (set_first_cache X r1 g1)) by done.
  by rewrite union_empty_l_L.
Qed.

Lemma first_union_of_alternatives_witness :
  ∃ r g', @first ascii_str 3 "S" (fresh scenario "S") = Ok (r, g') ∧
          r = ⋃ (rhs_map g' <$> [["A"; "b"]; ["c"]]).
Proof.
  destruct (is_Ok_inv (@first ascii_str 3 "S" (fresh scenario "S")))
    as [[r g'] H]; [vm_compute; reflexivity|].
  exists r, g'. split; [exact H|].
  exact (@first_union_of_alternatives ascii_str 3 "S" (fresh scenario "S") r g'
           eq_refl H).
Defined.

(** ** [ε] in the FIRST set of a nonterminal *)

Section FirstEpsilon.
Context {py : PyStr}.

Lemma shows_epsilon_first alpha g fa :
  rhs_cache_ok g → _first_rhs_cache g !! alpha = Some fa →
  shows_epsilon alpha = true → EPS ∈ fa.
Proof.
  intros Hg Hfa Hs. specialize (Hg alpha fa Hfa). destruct alpha as [|sym alpha].
  - set_solver.
  - simpl in Hs. apply andb_prop in Hs as [->%bool_decide_eq_true Hnt].
    apply negb_true_iff in Hnt. rewrite (Hg Hnt). set_solver.
Qed.

Lemma first_epsilon_ok_ext P g g' :
  productions g' = productions g → _first_cache g' = _first_cache g →
  first_epsilon_ok P g → first_epsilon_ok P g'.
Proof.
  intros Hp Hfc Hg X s HX. unfold has_epsilon_alternative. rewrite Hfc, Hp.
  by apply Hg.
Qed.

Lemma first_epsilon_ok_set_in P X s g :
  X ∈ P → first_epsilon_ok P g → first_epsilon_ok P (set_first_cache X s g).
Proof.
  intros HX Hg Y t HY. simpl. rewrite lookup_insert_ne by set_solver. by apply Hg.
Qed.

Section Bodies.
Variable first_rec : string → Grammar → res (gset string * Grammar).
Hypothesis first_rec_ext : ∀ X g r g',
  first_rec X g = Ok (r, g') → first_ext g g' ∧ _first_cache g' !! X = Some r.
Hypothesis first_rec_rhs : ∀ X g r g',
  first_rec X g = Ok (r, g') → rhs_cache_ok g → rhs_cache_ok g'.
Hypothesis first_rec_eps : ∀ P X g r g',
  first_rec X g = Ok (r, g') → rhs_cache_ok g →
  first_epsilon_ok P g → first_epsilon_ok P g'.

Lemma first_of_rhs_scan_eps P rhs : ∀ result g r g',
  first_of_rhs_scan first_rec rhs result g = Ok (r, g') → rhs_cache_ok g →
  first_epsilon_ok P g → first_epsilon_ok P g'.
Proof.
  induction rhs as [|sym rhs IH]; intros result g r g' H Hrc Hg; simpl in H.
  - by injection H as _ <-.
  - destruct (negb (is_nonterminal sym)); [by injection H as _ <-|].
    apply bind_Ok in H as ([fs g1] & Hf & H).
    pose proof (first_rec_rhs _ _ _ _ Hf Hrc).
    apply (first_rec_eps P) in Hf; [|done..].
    destruct (decide (EPS ∈ fs)); [by eapply IH | by injection H as _ <-].
Qed.

Lemma first_of_rhs_body_eps P rhs g r g' :
  first_of_rhs_body first_rec rhs g = Ok (r, g') → rhs_cache_ok g →
  first_epsilon_ok P g → first_epsilon_ok P g'.
Proof.
  unfold first_of_rhs_body. intros H Hrc Hg.
  destruct (_first_rhs_cache g !! rhs); [by injection H as _ <-|].
  destruct (length rhs =? 0); [by injection H as _ <-|].
  apply bind_Ok in H as ([r1 g1] & Hs & H). injection H as _ <-.
  apply (first_of_rhs_scan_eps P) in Hs; [|done..].
  by apply (first_epsilon_ok_ext P g1).
Qed.

Lemma first_alternatives_eps P X alphas : ∀ result g r g',
  X ∈ P →
  first_alternatives first_rec X alphas result g = Ok (r, g') → rhs_cache_ok g →
  first_epsilon_ok P g →
  first_epsilon_ok P g' ∧ rhs_cache_ok g' ∧
  (EPS ∈ result ∨ Exists (λ alpha, shows_epsilon alpha = true) alphas → EPS ∈ r).
Proof.
  induction alphas as [|alpha alphas IH]; intros result g r g' HX H Hrc Hg; simpl in H.
  - injection H as <- <-. split; [done|]. split; [done|].
    intros [?|Hex]; [done | by apply Exists_nil in Hex].
  - apply bind_Ok in H as ([fa g1] & Hb & H).
    pose proof (first_of_rhs_body_rhs_cache _ first_rec_rhs _ _ _ _ Hb Hrc) as Hrc1.
    pose proof (first_of_rhs_body_ext _ first_rec_ext _ _ _ _ Hb) as [_ Hfa].
    apply (first_of_rhs_body_eps P) in Hb; [|done..].
    rewrite absorb_without_eps in H.
    apply IH in H as (Hg' & Hrc' & Hr); [|done|done|by apply first_epsilon_ok_set_in].
    split; [done|]. split; [done|]. intros Hor. apply Hr.
    destruct Hor as [He|[Hs|Hex]%Exists_cons]; [left; set_solver| |by right].
    left. apply elem_of_union_r. by eapply shows_epsilon_first.
Qed.
End Bodies.

Lemma first_eps fuel : ∀ P X g r g',
  first fuel X g = Ok (r, g') → rhs_cache_ok g →
  first_epsilon_ok P g → first_epsilon_ok P g'.
Proof.
  induction fuel as [|fuel IH]; intros P X g r g' H Hrc Hg; simpl in H.
  - destruct (_first_cache g !! X); [by injection H as _ <- | done].
  - destruct (_first_cache g !! X) eqn:Hc; [by injection H as _ <-|].
    apply bind_Ok in H as ([r1 g1] & Ha & H). injection H as _ <-.
    pose proof (first_alternatives_ext _ (first_spec fuel) X g _ _ _ _ _ Hc
      (first_ext_set_first_cache g g X ∅ Hc (first_ext_refl g))
      (lookup_insert_eq _ _ _) Ha) as [[(Hp & _) _] _].
    apply (first_alternatives_eps _ (first_spec fuel) (first_rhs_cache fuel) IH
             (P ∪ {[X]})) in Ha as (Hg1 & _ & Hr); [|set_solver|done|].
    + intros Y t HY. simpl. destruct (decide (X = Y)) as [<-|Hne].
      * rewrite lookup_insert_eq. intros [= <-] Halt. apply Hr. right.
        unfold has_epsilon_alternative in Halt. simpl in Halt. by rewrite Hp in Halt.
      * rewrite lookup_insert_ne by done. apply Hg1. set_solver.
    + intros Y t HY. simpl. rewrite lookup_insert_ne by set_solver.
      apply Hg. set_solver.
Qed.

Lemma first_of_rhs_eps P fuel rhs g r g' :
  first_of_rhs fuel rhs g = Ok (r, g') → rhs_cache_ok g →
  first_epsilon_ok P g → first_epsilon_ok P g'.
Proof.
  apply first_of_rhs_body_eps; [apply first_rhs_cache | intros ?; apply first_eps].
Qed.

Lemma reachable_first_epsilon_ok g : reachable g → first_epsilon_ok ∅ g.
Proof.
  intros Hg.
  cut (rhs_cache_ok g ∧ first_epsilon_ok ∅ g); [tauto|].
  assert (∀ f rhs g r g',
            first_of_rhs f rhs g = Ok (r, g') →
            rhs_cache_ok g ∧ first_epsilon_ok ∅ g →
            rhs_cache_ok g' ∧ first_epsilon_ok ∅ g') as Hfo.
  { intros f rhs g0 r g' H [H1 H2].
    split; [by eapply first_of_rhs_rhs_cache | by eapply first_of_rhs_eps]. }
  assert (∀ X s g, rhs_cache_ok g ∧ first_epsilon_ok ∅ g →
            rhs_cache_ok (set_follow_cache X s g) ∧
            first_epsilon_ok ∅ (set_follow_cache X s g)) as Hset by done.
  induction Hg as [prods st g Hi|fuel X g r g' _ IH H|fuel rhs g r g' _ IH H
                  |fuel g m g' _ IH H|fuel g preds g' _ IH H].
  - injection Hi as <-. split; intros k s; simpl; by rewrite lookup_empty.
  - destruct IH as [H1 H2].
    split; [by eapply first_rhs_cache | by eapply first_eps].
  - by eapply Hfo.
  - by eapply (follow_all_preserves _ Hfo Hset).
  - by eapply (prediction_sets_preserves _ Hfo Hset).
Qed.

End FirstEpsilon.

(** X15: in every state of an analyzer, if [X] has an alternative that is
    the empty body or begins with the terminal ['ε'], then [ε] is in the
    set [first(X)] returns. *)
Theorem first_has_epsilon {py : PyStr} fuel X g r g' :
  reachable g → has_epsilon_alternative g X → first fuel X g = Ok (r, g') →
  EPS ∈ r.
Proof.
  intros Hg Halt H.
  pose proof (reachable_rhs_cache_ok g Hg) as Hrc.
  apply reachable_first_epsilon_ok in Hg.
  pose proof (first_spec _ _ _ _ _ H) as [[(Hp & _) _] Hr].
  apply (first_eps _ ∅) in H; [|done..].
  apply (H X r); [set_solver | done|].
  unfold has_epsilon_alternative. by rewrite Hp.
Qed.

Lemma first_has_epsilon_witness :
  ∃ r g', @first ascii_str 3 "A" (fresh scenario "S") = Ok (r, g') ∧ EPS ∈ r.
Proof.
  destruct (is_Ok_inv (@first ascii_str 3 "A" (fresh scenario "S")))
    as [[r g'] H]; [vm_compute; reflexivity|].
  exists r, g'. split; [exact H|].
  apply (@first_has_epsilon ascii_str 3 "A" (fresh scenario "S") r g').
  - by apply (reach_init scenario "S").
  - apply Exists_cons_hd. reflexivity.
  - exact H.
Defined.

(** ** [follow_all] on a grammar that is not structurally valid *)

Section FollowProgress.
Context {py : PyStr}.
Variables U V : gset string.
Variable fuel : nat.

(** A part of a pass started in a state that can serve every query and
    whose sets are within [V] returns in such a state, or raises
    [KeyError] for a key the FOLLOW cache does not have; it does not run
    out of fuel. *)
#[local] Abbreviation progress g r :=
  (match r with
   | Ok (_, g') => ready U fuel g' ∧ bounded V g'
   | KeyError k => k ∉ dom (_follow_cache g)
   | RecursionError => False
   | OutOfFuel => False
   end).

Lemma follow_step_progress A B rest c g :
  ready U fuel g → bounded V g →
  (∀ sym, sym ∈ rest → sym ∈ body_symbols (productions g)) →
  progress g (follow_step fuel A B rest c g).
Proof.
  intros Hr Hb Hrest.
  destruct (first_of_rhs_total U fuel rest g) as (fr & g1 & Hf); [|done|].
  { intros sym Hs. apply Hr. by apply Hrest. }
  pose proof Hf as Hf'. apply first_of_rhs_spec in Hf' as [[Hce Hfo] _].
  pose proof Hf as Hf'. apply (first_of_rhs_bounded V) in Hf' as [Hb1 Hfr]; [| |done].
  2:{ intros sym Hs. apply Hb. by apply Hrest. }
  pose proof (ready_cache_ext U fuel g g1 Hce Hr) as Hr1.
  unfold follow_step. rewrite Hf. simpl. rewrite <- Hfo.
  destruct (_follow_cache g1 !! B) as [before|] eqn:HB.
  2:{ by apply not_elem_of_dom. }
  assert (before ⊆ V) as Hbefore.
  { destruct Hb1 as (_ & _ & _ & _ & H3). by apply (H3 B). }
  pose proof (without_eps_subseteq fr).
  destruct (bool_decide (EPS ∈ fr) || (length rest =? 0)); simpl.
  - destruct (<[B:=before ∪ without_eps fr]> (_follow_cache g1) !! A) as [fA|] eqn:EA;
      simpl.
    + assert (fA ⊆ V).
      { destruct (decide (B = A)) as [->|Hne].
        - rewrite lookup_insert_eq in EA. injection EA as <-. set_solver.
        - rewrite lookup_insert_ne in EA by done.
          destruct Hb1 as (_ & _ & _ & _ & H3). by apply (H3 A). }
      split; [done|].
      apply bounded_set_follow_cache; [set_solver|].
      apply bounded_set_follow_cache; [set_solver | done].
    + apply not_elem_of_dom in EA. rewrite dom_insert_L in EA. set_solver.
  - split; [done|]. apply bounded_set_follow_cache; [set_solver | done].
Qed.

Lemma follow_symbols_progress A symbols : ∀ c g,
  ready U fuel g → bounded V g →
  (∀ sym, sym ∈ symbols → sym ∈ body_symbols (productions g)) →
  progress g (follow_symbols fuel A symbols c g).
Proof.
  induction symbols as [|B rest IH]; intros c g Hr Hb Hs; simpl; [done|].
  assert (∀ sym, sym ∈ rest → sym ∈ body_symbols (productions g)) as Hrest.
  { intros sym Hsym. apply Hs. by right. }
  destruct (negb (is_nonterminal B)); [by apply IH|].
  pose proof (follow_step_progress A B rest c g Hr Hb Hrest) as Hstep.
  destruct (follow_step fuel A B rest c g) as [[c1 g1]| | |] eqn:E; simpl; [|done..].
  apply follow_step_spec in E as [(Hce & Hd & _) _]. destruct Hstep as [Hr1 Hb1].
  rewrite <- Hd. apply IH; [done..|]. by destruct Hce as (-> & _).
Qed.

Lemma follow_rhss_progress A rhss : ∀ c g,
  ready U fuel g → bounded V g →
  (∀ rhs sym, rhs ∈ rhss → sym ∈ rhs → sym ∈ body_symbols (productions g)) →
  progress g (follow_rhss fuel A rhss c g).
Proof.
  induction rhss as [|rhs rhss IH]; intros c g Hr Hb Hs; simpl; [done|].
  pose proof (follow_symbols_progress A rhs c g Hr Hb
                (λ sym, Hs rhs sym (list_elem_of_here _ _))) as Hsym.
  destruct (follow_symbols fuel A rhs c g) as [[c1 g1]| | |] eqn:E; simpl; [|done..].
  apply follow_symbols_spec in E as [(Hce & Hd & _) _]. destruct Hsym as [Hr1 Hb1].
  rewrite <- Hd. apply IH; [done..|]. destruct Hce as (-> & _).
  intros r sym Hin. apply Hs. by right.
Qed.

Lemma follow_items_progress items : ∀ c g,
  ready U fuel g → bounded V g → items ⊆ productions g →
  progress g (follow_items fuel items c g).
Proof.
  induction items as [|[A rhss] items IH]; intros c g Hr Hb Hs; simpl; [done|].
  assert ((A, rhss) ∈ productions g) as HA by (apply Hs; left).
  pose proof (follow_rhss_progress A rhss c g Hr Hb
                (λ rhs sym H1 H2, elem_of_body_symbols _ _ _ _ _ HA H1 H2)) as Hrhss.
  destruct (follow_rhss fuel A rhss c g) as [[c1 g1]| | |] eqn:E; simpl; [|done..].
  apply follow_rhss_spec in E as [(Hce & Hd & _) _]. destruct Hrhss as [Hr1 Hb1].
  rewrite <- Hd. apply IH; [done..|]. destruct Hce as (-> & _).
  intros x Hx. apply Hs. by right.
Qed.

Lemma follow_while_progress k : ∀ passes g,
  ready U fuel g → bounded V g →
  size (dom (_follow_cache g)) * size V < follow_weight g + k →
  k ≤ passes →
  match follow_while passes fuel g with
  | Ok g' => True
  | KeyError key => key ∉ dom (_follow_cache g)
  | RecursionError => False
  | OutOfFuel => False
  end.
Proof.
  induction k as [|k IH]; intros passes g Hr Hb Hk Hp.
  - pose proof (follow_weight_bound V g) as Hw.
    destruct Hb as (_ & _ & _ & _ & H3). specialize (Hw H3). lia.
  - destruct passes as [|passes]; [lia|]. simpl.
    pose proof (follow_items_progress (productions g) false g Hr Hb
                  (λ x Hx, Hx)) as Hpass.
    unfold follow_pass.
    destruct (follow_items fuel (productions g) false g) as [[c g1]| | |] eqn:E;
      simpl; [|done..].
    destruct Hpass as [Hr1 Hb1].
    assert (follow_pass fuel g = Ok (c, g1)) as [Hg Hf]%follow_pass_spec by done.
    destruct c; [|done].
    simpl in Hf. pose proof Hg as (_ & Hd & _). rewrite <- Hd.
    apply IH; [done | done | | lia]. rewrite Hd. lia.
Qed.

End FollowProgress.

(** X16: on a grammar that is not structurally valid, [follow_all] and
    [prediction_sets] raise [KeyError] for a symbol that is not a key of
    the productions, when the interpreter can still push [2 n + 4] frames,
    [n] being the number of distinct symbols in the bodies. *)
Theorem follow_all_invalid_raises {py : PyStr} g passes limit :
  reachable g → structurally_valid g = false →
  size (dom (_follow_cache g) ∪ list_to_set (dict_keys (productions g)))
    * size (universe g) + 1 ≤ passes →
  2 * size (body_symbols (productions g)) + 4 ≤ limit →
  ∃ k, k ∉ dict_keys (productions g) ∧
       follow_all_limited passes limit g = KeyError k ∧
       prediction_sets_limited passes limit g = KeyError k.
Proof.
  intros Hg%reachable_follow_dom_ok Hv Hpasses Hlimit.
  destruct limit as [|[|limit2]]; [lia..|].
  unfold prediction_sets_limited, follow_all_limited.
  pose proof (follow_setdefault_keys (dict_keys (productions g)) g)
    as (Hp & Hst & _ & _ & _ & Hd & _).
  simpl in Hp, Hst, Hd.
  destruct (_follow_cache (foldl follow_setdefault g (dict_keys (productions g)))
              !! start (foldl follow_setdefault g (dict_keys (productions g))))
    as [s|] eqn:Hs.
  2:{ exists (start (foldl follow_setdefault g (dict_keys (productions g)))).
      split; [|done]. apply not_elem_of_dom in Hs. rewrite Hd in Hs. set_solver. }
  destruct (follow_seed_ready g s (size (body_symbols (productions g))) Hs)
    as (_ & Hr & Hb & Hd2); [done|].
  pose proof (follow_while_progress _ _ _
                (size (dom (_follow_cache g) ∪ list_to_set (dict_keys (productions g)))
                 * size (universe g) + 1) passes _ Hr Hb) as Hw.
  rewrite Hd2 in Hw.
  assert (size (dom (_follow_cache g) ∪ list_to_set (dict_keys (productions g)))
          * size (universe g)
          < follow_weight
              (set_follow_cache
                 (start (foldl follow_setdefault g (dict_keys (productions g))))
                 (s ∪ {[EOI]})
                 (foldl follow_setdefault g (dict_keys (productions g))))
            + (size (dom (_follow_cache g) ∪ list_to_set (dict_keys (productions g)))
               * size (universe g) + 1)) as Hlt by lia.
  specialize (Hw Hlt Hpasses).
  destruct (follow_while passes (size (body_symbols (productions g))) _)
    as [g3|k| |] eqn:E; [|clear Hv|done..].
  - exfalso.
    assert (follow_all (passes `max` size (body_symbols (productions g))) g
            = Ok (_follow_cache g3, g3)) as Hfo.
    { unfold follow_all. rewrite Hs. rewrite (bind_Ok_intro _ _ g3); [done|].
      eapply follow_while_fuel_mono; [| |exact E]; lia. }
    apply follow_all_Ok_valid in Hfo; [congruence | done].
  - exists k. split; [set_solver|].
    assert (2 * size (body_symbols (productions g)) + 2 ≤ S limit2) as Hl1 by lia.
    assert (2 * size (body_symbols (productions g)) + 2 ≤ limit2) as Hl2 by lia.
    rewrite (agrees_KeyError _ _ _ (follow_while_limited_complete passes _ _ _ Hl1) E).
    by rewrite (agrees_KeyError _ _ _ (follow_while_limited_complete passes _ _ _ Hl2) E).
Qed.

Lemma follow_all_invalid_raises_witness :
  ∃ k, k ∉ dict_keys dangling ∧
       @follow_all_limited ascii_str 5 6 (fresh dangling "S") = KeyError k ∧
       @prediction_sets_limited ascii_str 5 6 (fresh dangling "S") = KeyError k.
Proof.
  apply (@follow_all_invalid_raises ascii_str (fresh dangling "S") 5 6).
  - by apply (reach_init dangling "S").
  - vm_compute. reflexivity.
  - vm_compute. lia.
  - vm_compute. lia.
Defined.

(** ** The keys of the returned mappings *)

(** X17: the mapping [follow_all] returns has an entry for every key of
    the productions and for nothing else. *)
Theorem follow_all_keys_are_heads {py : PyStr} fuel g m g' A :
  reachable g → follow_all fuel g = Ok (m, g') →
  A ∈ dom m ↔ A ∈ dict_keys (productions g).
Proof.
  intros Hg%reachable_follow_dom_ok H.
  rewrite (follow_all_dom _ _ _ _ H), elem_of_union, elem_of_list_to_set.
  split; [intros [HA|HA]; [by apply Hg | done] | by right].
Qed.

Lemma follow_all_keys_are_heads_witness :
  ∃ m g', @follow_all ascii_str 3 (fresh scenario "S") = Ok (m, g') ∧
          ("A" ∈ dom m ↔ "A" ∈ dict_keys scenario).
Proof.
  destruct (is_Ok_inv (@follow_all ascii_str 3 (fresh scenario "S")))
    as [[m g'] H]; [vm_compute; reflexivity|].
  exists m, g'. split; [exact H|].
  exact (@follow_all_keys_are_heads ascii_str 3 (fresh scenario "S") m g' "A"
           (reach_init scenario "S" _ eq_refl) H).
Defined.

Section PredictionKeys.
Context {py : PyStr}.

Lemma prediction_rhss_dom fuel follow A rhss : ∀ preds g preds' g',
  prediction_rhss fuel follow A rhss preds g = Ok (preds', g') →
  dom preds' = dom preds ∪ list_to_set (production_key A <$> rhss).
Proof.
  induction rhss as [|rhs rhss IH]; intros preds g preds' g' H; simpl in H.
  - injection H as <- <-. set_solver.
  - apply bind_Ok in H as ([F g1] & Hf & H).
    apply bind_Ok in H as (pred & Hpred & H).
    apply IH in H. rewrite H, dom_insert_L, fmap_cons. set_solver.
Qed.

Lemma prediction_items_dom fuel follow items : ∀ preds g preds' g',
  prediction_items fuel follow items preds g = Ok (preds', g') →
  dom preds' = dom preds ∪
    list_to_set ((λ p, production_key p.1 p.2) <$> flat_productions items).
Proof.
  induction items as [|[A rhss] items IH]; intros preds g preds' g' H; simpl in H.
  - injection H as <- <-. set_solver.
  - apply bind_Ok in H as ([preds1 g1] & Hr & H).
    apply prediction_rhss_dom in Hr. apply IH in H.
    rewrite H, Hr, flat_productions_cons, fmap_app, <- list_fmap_compose.
    set_solver.
Qed.

End PredictionKeys.

(** X18: the mapping [prediction_sets] returns has an entry at the key of
    every production and at no other key. *)
Theorem prediction_sets_keys {py : PyStr} fuel g preds g' key :
  prediction_sets fuel g = Ok (preds, g') →
  key ∈ dom preds ↔ ∃ A rhs, is_production g A rhs ∧ key = production_key A rhs.
Proof.
  unfold prediction_sets. intros ([m g1] & Hfo & H)%bind_Ok.
  apply follow_all_spec in Hfo as (_ & Hp & _).
  apply prediction_items_dom in H.
  rewrite H, dom_empty_L, union_empty_l_L, elem_of_list_to_set, list_elem_of_fmap, Hp.
  split.
  - intros ([A rhs] & -> & Hin). by exists A, rhs.
  - intros (A & rhs & Hin & ->). by exists (A, rhs).
Qed.

Lemma prediction_sets_keys_witness :
  ∃ preds g', @prediction_sets ascii_str 3 (fresh scenario "S") = Ok (preds, g') ∧
    ("S -> c" ∈ dom preds ↔
     ∃ A rhs, is_production (fresh scenario "S") A rhs ∧
              "S -> c" = production_key A rhs).
Proof.
  destruct (is_Ok_inv (@prediction_sets ascii_str 3 (fresh scenario "S")))
    as [[preds g'] H]; [vm_compute; reflexivity|].
  exists preds, g'. split; [exact H|].
  exact (@prediction_sets_keys ascii_str 3 (fresh scenario "S") preds g' "S -> c" H).
Defined.

(** ** What the methods never change *)

Lemma calls_follow_grows {py : PyStr} g g' :
  calls g g' →
  ∀ X s, _follow_cache g !! X = Some s →
         ∃ s', _follow_cache g' !! X = Some s' ∧ s ⊆ s'.
Proof.
  induction 1 as [g1|fuel X0 g1 ga r gb _ IH H|fuel rhs g1 ga r gb _ IH H
                 |fuel rhs g1 ga b gb _ IH H|fuel g1 ga m' gb _ IH H
                 |fuel g1 ga preds gb _ IH H]; intros X s Hs; [eauto|..];
    destruct (IH X s Hs) as (s1 & Hs1 & Hsub).
  - apply first_spec in H as [[_ Hfo] _]. rewrite Hfo. eauto.
  - apply first_of_rhs_spec in H as [[_ Hfo] _]. rewrite Hfo. eauto.
  - apply derives_epsilon_spec in H as (t & H & _).
    apply first_of_rhs_spec in H as [[_ Hfo] _]. rewrite Hfo. eauto.
  - apply follow_all_spec in H as (-> & _ & _ & _ & _ & Hgrow & _).
    destruct (Hgrow X s1 Hs1) as (s2 & Hs2 & Hsub2). exists s2.
    split; [done | set_solver].
  - apply prediction_sets_inv in H as (m & g2 & Hfo & [_ Hfo'] & _).
    apply follow_all_spec in Hfo as (-> & _ & _ & _ & _ & Hgrow & _).
    destruct (Hgrow X s1 Hs1) as (s2 & Hs2 & Hsub2). exists s2.
    rewrite Hfo'. split; [done | set_solver].
Qed.

(** X19: no method mutates the grammar: after any sequence of calls the
    productions and the start symbol are what they were. *)
Theorem grammar_never_mutated {py : PyStr} g g' :
  calls g g' → productions g' = productions g ∧ start g' = start g.
Proof. by intros (? & ? & _)%calls_cache_ext. Qed.

Lemma grammar_never_mutated_witness :
  ∃ preds g', @prediction_sets ascii_str 3 (fresh scenario "S") = Ok (preds, g') ∧
              productions g' = scenario ∧ start g' = "S".
Proof.
  destruct (is_Ok_inv (@prediction_sets ascii_str 3 (fresh scenario "S")))
    as [[preds g'] H]; [vm_compute; reflexivity|].
  exists preds, g'. split; [exact H|].
  exact (@grammar_never_mutated ascii_str (fresh scenario "S") g'
           (calls_prediction_sets 3 _ _ preds g' (calls_none _) H)).
Defined.

(** X20: over any sequence of calls no FOLLOW set loses a member and no
    key leaves the FOLLOW cache. *)
Theorem follow_cache_only_grows {py : PyStr} g g' X s :
  calls g g' → _follow_cache g !! X = Some s →
  ∃ s', _follow_cache g' !! X = Some s' ∧ s ⊆ s'.
Proof. intros Hc. by apply calls_follow_grows. Qed.

Lemma follow_cache_only_grows_witness :
  ∃ m g', @follow_all ascii_str 3 scenario_seeded = Ok (m, g') ∧
          ∃ s', _follow_cache g' !! "S" = Some s' ∧ {[EOI]} ⊆ s'.
Proof.
  destruct (is_Ok_inv (@follow_all ascii_str 3 scenario_seeded))
    as [[m g'] H]; [vm_compute; reflexivity|].
  exists m, g'. split; [exact H|].
  exact (@follow_cache_only_grows ascii_str scenario_seeded g' "S" {[EOI]}
           (calls_follow_all 3 _ _ m g' (calls_none _) H) eq_refl).
Defined.

(** ** Termination of the other methods *)







(** ** [first_of_rhs] on a sequence it has not seen *)

(** X24: a call of [first_of_rhs] that does not find its sequence in the
    cache returns the left-to-right scan of the sequence, over the FIRST
    sets of the nonterminals as the cache holds them when the call
    returns, and stores it in the cache. *)
Theorem first_of_rhs_scans_on_miss {py : PyStr} fuel rhs g r g' :
  _first_rhs_cache g !! rhs = None →
  first_of_rhs fuel rhs g = Ok (r, g') →
  r = spec_scan (first_map g') rhs ∧ _first_rhs_cache g' !! rhs = Some r.
Proof.
  intros Hc H. split; [by eapply first_of_rhs_miss_scan|].
  by apply first_of_rhs_spec in H as [_ ?].
Qed.

Lemma first_of_rhs_scans_on_miss_witness :
  ∃ r g', @first_of_rhs ascii_str 3 ["A"; "b"] (fresh scenario "S") = Ok (r, g') ∧
          r = @spec_scan ascii_str (first_map g') ["A"; "b"] ∧
          _first_rhs_cache g' !! ["A"; "b"] = Some r.
Proof.
  destruct (is_Ok_inv (@first_of_rhs ascii_str 3 ["A"; "b"] (fresh scenario "S")))
    as [[r g'] H]; [vm_compute; reflexivity|].
  exists r, g'. split; [exact H|].
  exact (@first_of_rhs_scans_on_miss ascii_str 3 ["A"; "b"] (fresh scenario "S") r g'
           eq_refl H).
Defined.

(** ** The recursion limit changes no result *)

(** X25: a set [first] returns under a recursion limit is the set it
    returns on a stack without limit, and the analyzer is left in the
    same state. *)
Theorem first_limited_returns {py : PyStr} limit X g r g' :
  first_limited limit X g = Ok (r, g') → first limit X g = Ok (r, g').
Proof. by apply first_limited_sound. Qed.

Lemma first_limited_returns_witness :
  ∃ r g', @first_limited ascii_str 3 "S" (fresh left_recursive "S") = Ok (r, g') ∧
          @first ascii_str 3 "S" (fresh left_recursive "S") = Ok (r, g').
Proof.
  destruct (is_Ok_inv (@first_limited ascii_str 3 "S" (fresh left_recursive "S")))
    as [[r g'] H]; [vm_compute; reflexivity|].
  exists r, g'. split; [exact H|].
  exact (@first_limited_returns ascii_str 3 "S" (fresh left_recursive "S") r g' H).
Defined.

(** X26: a set [first_of_rhs] returns under a recursion limit is the set
    it returns on a stack without limit, and the analyzer is left in the
    same state. *)
Theorem first_of_rhs_limited_returns {py : PyStr} limit rhs g r g' :
  first_of_rhs_limited limit rhs g = Ok (r, g') →
  first_of_rhs limit rhs g = Ok (r, g').
Proof. by apply first_of_rhs_limited_sound. Qed.

Lemma first_of_rhs_limited_returns_witness :
  ∃ r g', @first_of_rhs_limited ascii_str 6 ["A"; "b"] (fresh scenario "S")
          = Ok (r, g') ∧
          @first_of_rhs ascii_str 6 ["A"; "b"] (fresh scenario "S") = Ok (r, g').
Proof.
  destruct (is_Ok_inv (@first_of_rhs_limited ascii_str 6 ["A"; "b"]
                         (fresh scenario "S")))
    as [[r g'] H]; [vm_compute; reflexivity|].
  exists r, g'. split; [exact H|].
  exact (@first_of_rhs_limited_returns ascii_str 6 ["A"; "b"] (fresh scenario "S")
           r g' H).
Defined.

(** X27: a mapping [follow_all] returns under a recursion limit is the
    mapping it returns on a stack without limit, and the analyzer is left
    in the same state. *)
Theorem follow_all_limited_returns {py : PyStr} passes limit g m g' :
  follow_all_limited passes limit g = Ok (m, g') →
  follow_all (passes `max` limit) g = Ok (m, g').
Proof. apply follow_all_limited_sound; lia. Qed.

Lemma follow_all_limited_returns_witness :
  ∃ m g', @follow_all_limited ascii_str 3 6 (fresh scenario "S") = Ok (m, g') ∧
          @follow_all ascii_str (3 `max` 6) (fresh scenario "S") = Ok (m, g').
Proof.
  destruct (is_Ok_inv (@follow_all_limited ascii_str 3 6 (fresh scenario "S")))
    as [[m g'] H]; [vm_compute; reflexivity|].
  exists m, g'. split; [exact H|].
  exact (@follow_all_limited_returns ascii_str 3 6 (fresh scenario "S") m g' H).
Defined.

(** X28: a mapping [prediction_sets] returns under a recursion limit is
    the mapping it returns on a stack without limit, and the analyzer is
    left in the same state. *)
Theorem prediction_sets_limited_returns {py : PyStr} passes limit g preds g' :
  prediction_sets_limited passes limit g = Ok (preds, g') →
  prediction_sets (passes `max` limit) g = Ok (preds, g').
Proof. apply prediction_sets_limited_sound; lia. Qed.

Lemma prediction_sets_limited_returns_witness :
  ∃ preds g',
    @prediction_sets_limited ascii_str 3 7 (fresh scenario "S") = Ok (preds, g') ∧
    @prediction_sets ascii_str (3 `max` 7) (fresh scenario "S") = Ok (preds, g').
Proof.
  destruct (is_Ok_inv (@prediction_sets_limited ascii_str 3 7 (fresh scenario "S")))
    as [[preds g'] H]; [vm_compute; reflexivity|].
  exists preds, g'. split; [exact H|].
  exact (@prediction_sets_limited_returns ascii_str 3 7 (fresh scenario "S")
           preds g' H).
Defined.

(** X29: the state a returning call leaves under a recursion limit is a
    state of the analyzer: what holds in every reachable state holds in
    it. *)
Theorem reachable_limited {py : PyStr} passes limit X rhs g r b m preds g' :
  reachable g →
  first_limited limit X g = Ok (r, g') ∨
  first_of_rhs_limited limit rhs g = Ok (r, g') ∨
  derives_epsilon_limited limit rhs g = Ok (b, g') ∨
  follow_all_limited passes limit g = Ok (m, g') ∨
  prediction_sets_limited passes limit g = Ok (preds, g') →
  reachable g'.
Proof.
  intros Hg [H|[H|[H|[H|H]]]].
  - eapply reach_first; [done|]. by apply (first_limited_sound limit limit).
  - eapply reach_first_of_rhs; [done|].
    by apply (first_of_rhs_limited_sound limit limit).
  - apply (derives_epsilon_limited_sound limit limit) in H; [|done].
    apply derives_epsilon_spec in H as (s & H & _). by eapply reach_first_of_rhs.
  - eapply reach_follow_all; [done|].
    apply (follow_all_limited_sound passes limit (passes `max` limit)); [lia..|done].
  - eapply reach_prediction_sets; [done|].
    apply (prediction_sets_limited_sound passes limit (passes `max` limit));
      [lia..|done].
Qed.

Lemma reachable_limited_witness :
  ∃ r g', @first_limited ascii_str 3 "S" (fresh left_recursive "S") = Ok (r, g') ∧
          @reachable ascii_str g'.
Proof.
  destruct (is_Ok_inv (@first_limited ascii_str 3 "S" (fresh left_recursive "S")))
    as [[r g'] H]; [vm_compute; reflexivity|].
  exists r, g'. split; [exact H|].
  exact (@reachable_limited ascii_str 0 3 "S" [] (fresh left_recursive "S")
           r false ∅ ∅ g' (reach_init left_recursive "S" _ eq_refl) (or_introl H)).
Defined.

(** X30: more frames change no outcome other than [RecursionError]:
    whatever a method returns or raises with [limit] frames left, apart
    from [RecursionError], it returns or raises with more. *)
Theorem limit_monotone {py : PyStr} passes limit limit' X rhs g :
  limit ≤ limit' →
  (first_limited limit X g = RecursionError ∨
   first_limited limit' X g = first_limited limit X g) ∧
  (first_of_rhs_limited limit rhs g = RecursionError ∨
   first_of_rhs_limited limit' rhs g = first_of_rhs_limited limit rhs g) ∧
  (derives_epsilon_limited limit rhs g = RecursionError ∨
   derives_epsilon_limited limit' rhs g = derives_epsilon_limited limit rhs g) ∧
  (follow_all_limited passes limit g = RecursionError ∨
   follow_all_limited passes limit' g = follow_all_limited passes limit g) ∧
  (prediction_sets_limited passes limit g = RecursionError ∨
   prediction_sets_limited passes limit' g = prediction_sets_limited passes limit g).
Proof.
  intros Hle. split; [|split; [|split; [|split]]].
  - by apply first_limited_mono.
  - by apply first_of_rhs_limited_mono.
  - by apply derives_epsilon_limited_mono.
  - by apply follow_all_limited_mono.
  - by apply prediction_sets_limited_mono.
Qed.

Lemma limit_monotone_witness :
  (@first_limited ascii_str 3 "S" (fresh scenario "S") = RecursionError ∨
   @first_limited ascii_str 5 "S" (fresh scenario "S")
   = @first_limited ascii_str 3 "S" (fresh scenario "S")) ∧
  (@first_of_rhs_limited ascii_str 3 ["A"; "b"] (fresh scenario "S") = RecursionError ∨
   @first_of_rhs_limited ascii_str 5 ["A"; "b"] (fresh scenario "S")
   = @first_of_rhs_limited ascii_str 3 ["A"; "b"] (fresh scenario "S")) ∧
  (@derives_epsilon_limited ascii_str 3 ["A"; "b"] (fresh scenario "S")
   = RecursionError ∨
   @derives_epsilon_limited ascii_str 5 ["A"; "b"] (fresh scenario "S")
   = @derives_epsilon_limited ascii_str 3 ["A"; "b"] (fresh scenario "S")) ∧
  (@follow_all_limited ascii_str 3 3 (fresh scenario "S") = RecursionError ∨
   @follow_all_limited ascii_str 3 5 (fresh scenario "S")
   = @follow_all_limited ascii_str 3 3 (fresh scenario "S")) ∧
  (@prediction_sets_limited ascii_str 3 3 (fresh scenario "S") = RecursionError ∨
   @prediction_sets_limited ascii_str 3 5 (fresh scenario "S")
   = @prediction_sets_limited ascii_str 3 3 (fresh scenario "S")).
Proof.
  apply (@limit_monotone ascii_str 3 3 5 "S" ["A"; "b"] (fresh scenario "S")). lia.
Defined.
